(** * Excel-CPU-Disassembler: a shallow embedding and its verified properties

    The development follows [Excel-CPU-Disassembler.py]:
    - [Py]       the Python built-ins the program relies on ([int], [str],
                 ['%04X'], list indexing with negative indices, ...);
    - [Address]  the address codec (class [Address]);
    - [Cell], [Machine] and the monad [M] the global state ([cells],
                 [entry], [last], the output stream);
    - [preparation] (the tracer) and [output] (the emitter);
    - the theorems. *)

From Stdlib Require Import ZArith String Ascii List Lia Bool.
From stdpp Require Import base tactics option list numbers strings gmap fin_maps.

Local Open Scope string_scope.
Local Open Scope Z_scope.

(** ** Python exceptions and the result of a pure, fallible computation *)

Inductive exn : Type := IndexError | TypeError | ValueError.

Inductive res (A : Type) : Type :=
| Ret (a : A)
| Exn (e : exn).
Arguments Ret {A} a.
Arguments Exn {A} e.

Definition res_bind {A B} (r : res A) (k : A -> res B) : res B :=
  match r with
  | Ret a => k a
  | Exn e => Exn e
  end.

Declare Scope res_scope.
Delimit Scope res_scope with res.
Notation "'let?' x ':=' r 'in' k" := (res_bind r (fun x => k))
  (at level 10, x name, r at level 100, k at level 200) : res_scope.

(** ** Python built-ins *)

Module Py.

Definition TAB : string := String (ascii_of_nat 9) "".
Definition NL : string := String (ascii_of_nat 10) "".

Definition ord (c : ascii) : Z := Z.of_N (N_of_ascii c).
Definition chr (n : Z) : ascii := ascii_of_N (Z.to_N n).

(** [len(s)] of a string. *)
Definition len (s : string) : Z := Z.of_nat (String.length s).

(** ASCII character classes (the model covers ASCII strings). *)
Definition is_upper (c : ascii) : bool := (65 <=? ord c) && (ord c <=? 90).
Definition is_lower (c : ascii) : bool := (97 <=? ord c) && (ord c <=? 122).
Definition isalpha (c : ascii) : bool := is_upper c || is_lower c.
Definition is_digit (c : ascii) : bool := (48 <=? ord c) && (ord c <=? 57).
Definition is_space (c : ascii) : bool :=
  ((9 <=? ord c) && (ord c <=? 13)) || (ord c =? 32).
Definition upper (c : ascii) : ascii :=
  if is_lower c then chr (ord c - 32) else c.

Definition is_ascii (c : ascii) : bool := ord c <? 128.
Fixpoint all_ascii (s : string) : bool :=
  match s with
  | EmptyString => true
  | String c s' => is_ascii c && all_ascii s'
  end.

(** [s[i]] for [i >= 0]: [IndexError] past the end. *)
Fixpoint str_index (s : string) (i : nat) : res ascii :=
  match s, i with
  | EmptyString, _ => Exn IndexError
  | String c _, O => Ret c
  | String _ s', S j => str_index s' j
  end.

(** [s[i:]] for [i >= 0]: the empty string past the end. *)
Fixpoint str_from (s : string) (i : nat) : string :=
  match s, i with
  | EmptyString, _ => EmptyString
  | _, O => s
  | String _ s', S j => str_from s' j
  end.

(** [l[i]] on a list, with Python's negative indices. *)
Definition list_index {A} (l : list A) (i : Z) : res A :=
  let n := Z.of_nat (length l) in
  let j := if i <? 0 then i + n else i in
  if (0 <=? j) && (j <? n)
  then match l !! Z.to_nat j with Some x => Ret x | None => Exn IndexError end
  else Exn IndexError.

(** Digits of a non-negative number, most significant first, in upper case. *)
Definition digit_char (d : Z) : ascii :=
  chr (if d <? 10 then 48 + d else 55 + d).

Fixpoint digits_of (base : Z) (fuel : nat) (n : Z) (acc : string) : string :=
  match fuel with
  | O => acc
  | S k =>
      let acc' := String (digit_char (n mod base)) acc in
      if n / base =? 0 then acc' else digits_of base k (n / base) acc'
  end.

Definition digits (base : Z) (n : Z) : string :=
  digits_of base (S (Z.to_nat (Z.log2 n))) n "".

(** [str(n)] for an integer. *)
Definition str (n : Z) : string :=
  if n <? 0 then "-" ++ digits 10 (- n) else digits 10 n.

Fixpoint zeros (k : nat) : string :=
  match k with
  | O => ""
  | S k' => String "0" (zeros k')
  end.

(** [f'{n:0wX}'] and ['%0wX' % n]: the sign first, then zeros up to the
    width, then the upper-case hexadecimal digits. *)
Definition format_X (w : nat) (n : Z) : string :=
  let sign := if n <? 0 then "-" else "" in
  let ds := digits 16 (Z.abs n) in
  sign ++ zeros (w - String.length sign - String.length ds) ++ ds.

(** Value of a digit character in a base up to 16 ([None] when the
    character is no digit of the base). *)
Definition digit_value (base : Z) (c : ascii) : option Z :=
  let v :=
    if is_digit c then ord c - 48
    else if is_upper c then ord c - 55
    else if is_lower c then ord c - 87
    else 99 in
  if v <? base then Some v else None.

(** The digit part of an integer literal: digits of the base, single
    underscores allowed between digits only. [prev] is the previous
    character kind: [None] at the start, [Some true] after a digit,
    [Some false] after an underscore. Returns the value read and the
    unread rest. *)
Fixpoint scan_digits (base : Z) (s : string) (prev : option bool) (acc : Z)
  : option (Z * string) :=
  match s with
  | EmptyString =>
      match prev with
      | Some true => Some (acc, EmptyString)
      | _ => None
      end
  | String c s' =>
      match digit_value base c with
      | Some v => scan_digits base s' (Some true) (acc * base + v)
      | None =>
          if Ascii.eqb c "_" then
            match prev with
            | Some true => scan_digits base s' (Some false) acc
            | _ => None
            end
          else
            match prev with
            | Some true => Some (acc, s)
            | _ => None
            end
      end
  end.

Fixpoint lstrip (s : string) : string :=
  match s with
  | String c s' => if is_space c then lstrip s' else s
  | EmptyString => EmptyString
  end.

Definition skip_sign (s : string) : bool * string :=
  match s with
  | String "+" s' => (false, s')
  | String "-" s' => (true, s')
  | _ => (false, s)
  end.

(** The prefix [0x] / [0X] of base 16, and the underscore allowed after it. *)
Definition skip_prefix (base : Z) (s : string) : string :=
  match s with
  | String "0" (String c s') =>
      if (base =? 16) && (Ascii.eqb c "x" || Ascii.eqb c "X") then
        match s' with
        | String "_" s'' => s''
        | _ => s'
        end
      else s
  | _ => s
  end.

(** [int(s, base)] for base 10 or 16 on an ASCII string. *)
Definition int (base : Z) (s : string) : res Z :=
  let (neg, s1) := skip_sign (lstrip s) in
  match scan_digits base (skip_prefix base s1) None 0 with
  | Some (v, rest) =>
      match lstrip rest with
      | EmptyString => Ret (if neg then - v else v)
      | _ => Exn ValueError
      end
  | None => Exn ValueError
  end.

End Py.

(** ** The address codec (class [Address])

    An [Address] object only wraps the integer [address]; it is modelled by
    that integer. *)

Inductive AddressStyle : Type := deci | hex | rowcol | excel.

(** The command line ([args]). [to_stdout] says whether [args.output] is
    [sys.stdout]. *)
Record Args : Type := mkArgs {
  input : string;
  to_stdout : bool;
  address_style : AddressStyle;
  include_address : bool;
  include_data : bool;
  decode_all : bool;
  no_warnings : bool
}.

Module Address.
Import Py.
Local Open Scope res_scope.

Definition to_hex (address : Z) : string := format_X 4 address.

Definition to_row_col (address : Z) : Z * Z :=
  (address / 0x100, address mod 0x100).

Definition to_excel (address : Z) : string :=
  let '(row, col) := to_row_col address in
  if 26 <=? col
  then String (chr (col / 26 + 65)) (String (chr (col mod 26 + 65)) (str (row + 1)))
  else String (chr (col + 65)) (str (row + 1)).

Definition from_hex (hex_str : string) : res Z := int 16 hex_str.

Definition from_row_col (row col : Z) : Z := row * 0x100 + col.

Definition from_excel (excel_str : string) : res Z :=
  let? c1 := str_index excel_str 1 in
  if isalpha c1 then
    let? c0 := str_index excel_str 0 in
    let col_h := ord (upper c0) - 65 in
    let col_l := ord (upper c1) - 65 in
    let col := col_h * 26 + col_l in
    let? n := int 10 (str_from excel_str 2) in
    let row := n - 1 in
    Ret (from_row_col row col)
  else
    let? c0 := str_index excel_str 0 in
    let col := ord (upper c0) - 65 in
    let? n := int 10 (str_from excel_str 1) in
    let row := n - 1 in
    Ret (from_row_col row col).

(** [__str__], with the style the command line selected. *)
Definition to_str (style : AddressStyle) (address : Z) : string :=
  match style with
  | deci => str address
  | hex => to_hex address
  | rowcol => let '(row, col) := to_row_col address in str row ++ "_" ++ str col
  | excel => to_excel address
  end.

Definition tab_pad (style : AddressStyle) (address : Z) : string :=
  to_str style address ++ (if len (to_str style address) <? 4 then TAB else "").

(** [repr] of a list of addresses, as an f-string prints [jump_from]. *)
Fixpoint join_addresses (style : AddressStyle) (l : list Z) : string :=
  match l with
  | [] => ""
  | [a] => to_str style a
  | a :: l' => to_str style a ++ ", " ++ join_addresses style l'
  end.

Definition list_repr (style : AddressStyle) (l : list Z) : string :=
  "[" ++ join_addresses style l ++ "]".

(** Not part of the program: a reader for the [rowcol] rendering, used
    only to show that this rendering determines the address. *)
Fixpoint split_underscore (s : string) (acc : string) : option (string * string) :=
  match s with
  | EmptyString => None
  | String c s' =>
      if Ascii.eqb c "_" then Some (acc, s')
      else split_underscore s' (acc ++ String c "")
  end.

Definition read_rowcol (s : string) : res Z :=
  match split_underscore s "" with
  | Some (r, c) =>
      let? row := int 10 r in
      let? col := int 10 c in
      Ret (from_row_col row col)
  | None => Exn ValueError
  end.

(** The row part [from_excel] hands to [int]. *)
Definition row_part (excel_str : string) : string :=
  match str_index excel_str 1 with
  | Ret c1 => if isalpha c1 then str_from excel_str 2 else str_from excel_str 1
  | Exn _ => ""
  end.

End Address.

(** ** Cells and the global state *)

Record Cell : Type := mkCell {
  data : Z;
  label : option string;
  exec_from_prev : option Z;
  is_2nd_word : bool;
  read_from : list Z;
  write_from : list Z;
  jump_from : list Z
}.

(** [Cell(data)]. *)
Definition Cell_init (d : Z) : Cell := mkCell d None None false [] [] [].

#[global] Instance Cell_inhabited : Inhabited Cell := populate (Cell_init 0).

Definition set_label (l : option string) (c : Cell) : Cell :=
  mkCell (data c) l (exec_from_prev c) (is_2nd_word c)
         (read_from c) (write_from c) (jump_from c).
Definition set_exec_from_prev (p : option Z) (c : Cell) : Cell :=
  mkCell (data c) (label c) p (is_2nd_word c)
         (read_from c) (write_from c) (jump_from c).
Definition set_is_2nd_word (b : bool) (c : Cell) : Cell :=
  mkCell (data c) (label c) (exec_from_prev c) b
         (read_from c) (write_from c) (jump_from c).
Definition read_from_append (a : Z) (c : Cell) : Cell :=
  mkCell (data c) (label c) (exec_from_prev c) (is_2nd_word c)
         (read_from c ++ [a]) (write_from c) (jump_from c).
Definition write_from_append (a : Z) (c : Cell) : Cell :=
  mkCell (data c) (label c) (exec_from_prev c) (is_2nd_word c)
         (read_from c) (write_from c ++ [a]) (jump_from c).
Definition jump_from_append (a : Z) (c : Cell) : Cell :=
  mkCell (data c) (label c) (exec_from_prev c) (is_2nd_word c)
         (read_from c) (write_from c) (jump_from c ++ [a]).

(** The global state: the list [cells] of 0x10000 cells, held as a map from
    position to cell in which a position without entry is a fresh [Cell()];
    [entry] and [last]; what has been written to [fout]; and, as a ghost
    field, the indices at which [cells] has been subscripted (latest first). *)
Record Machine : Type := mkMachine {
  cells : gmap Z Cell;
  entry : Z;
  last : Z;
  fout : list string;
  accessed : list Z
}.

Definition NCELLS : Z := 0x10000.

(** Position of [cells[i]]: Python counts a negative index from the end and
    raises [IndexError] outside [-len, len). *)
Definition cell_index (i : Z) : option Z :=
  if (0 <=? i) && (i <? NCELLS) then Some i
  else if (- NCELLS <=? i) && (i <? 0) then Some (i + NCELLS)
  else None.

(** The cell at a position of the list. *)
Definition cell_at (m : Machine) (j : Z) : Cell := cells m !!! j.

(** [load_excel]: the loader is given as the map from address to the value
    of the spreadsheet cell; every other cell stays [Cell()]. *)
Definition load_excel (image : gmap Z Z) : Machine :=
  mkMachine (Cell_init <$> image) 0 0 [] [].

(** ** The monad of the program: state, exceptions, and fuel for loops *)

Inductive outcome (A : Type) : Type :=
| Done (a : A) (m : Machine)
| Raised (e : exn) (m : Machine)
| OutOfFuel.
Arguments Done {A} a m.
Arguments Raised {A} e m.
Arguments OutOfFuel {A}.

Definition M (A : Type) : Type := Machine -> outcome A.

Definition ret {A} (a : A) : M A := fun m => Done a m.

Definition bind {A B} (c : M A) (k : A -> M B) : M B :=
  fun m =>
    match c m with
    | Done a m' => k a m'
    | Raised e m' => Raised e m'
    | OutOfFuel => OutOfFuel
    end.

Definition raise {A} (e : exn) : M A := fun m => Raised e m.

Declare Scope M_scope.
Delimit Scope M_scope with M.
Notation "'let*' x ':=' c 'in' k" := (bind c (fun x => k))
  (at level 10, x name, c at level 100, k at level 200) : M_scope.
Notation "c '>>' k" := (bind c (fun _ => k))
  (at level 100, k at level 200, right associativity) : M_scope.

Local Open Scope M_scope.

Definition lift {A} (r : res A) : M A :=
  match r with
  | Ret a => ret a
  | Exn e => raise e
  end.

Definition touch (i : Z) (m : Machine) : Machine :=
  mkMachine (cells m) (entry m) (last m) (fout m) (i :: accessed m).

(** [cells[i]] read. *)
Definition get_cell (i : Z) : M Cell :=
  fun m =>
    match cell_index i with
    | Some j => Done (cell_at m j) (touch i m)
    | None => Raised IndexError (touch i m)
    end.

(** The cell at position [j] replaced by [f] of it, reached as [cells[i]]. *)
Definition upd (j : Z) (f : Cell -> Cell) (i : Z) (m : Machine) : Machine :=
  mkMachine (<[j := f (cell_at m j)]> (cells m))
            (entry m) (last m) (fout m) (i :: accessed m).

(** [cells[i].field = ...] and [cells[i].field.append(...)]. *)
Definition upd_cell (i : Z) (f : Cell -> Cell) : M unit :=
  fun m =>
    match cell_index i with
    | Some j => Done tt (upd j f i m)
    | None => Raised IndexError (touch i m)
    end.

Definition get_entry : M Z := fun m => Done (entry m) m.
Definition get_last : M Z := fun m => Done (last m) m.
Definition set_entry (e : Z) : M unit :=
  fun m => Done tt (mkMachine (cells m) e (last m) (fout m) (accessed m)).
Definition set_last (l : Z) : M unit :=
  fun m => Done tt (mkMachine (cells m) (entry m) l (fout m) (accessed m)).

(** [fout.write(s)]. *)
Definition write (s : string) : M unit :=
  fun m => Done tt (mkMachine (cells m) (entry m) (last m) (fout m ++ [s]) (accessed m)).

Definition when (b : bool) (c : M unit) : M unit := if b then c else ret tt.

(** [while cond: x = body(x)], for at most [fuel] tests of the condition. *)
Fixpoint while {S} (fuel : nat) (cond : S -> M bool) (body : S -> M S) (x : S) : M S :=
  match fuel with
  | O => fun _ => OutOfFuel
  | Datatypes.S k =>
      let* b := cond x in
      if b then let* x' := body x in while k cond body x' else ret x
  end.

(** A loop whose fuel is read off the state it starts in. *)
Definition while_upto {S} (bound : S -> Machine -> Z)
    (cond : S -> M bool) (body : S -> M S) (x : S) : M S :=
  fun m => while (Datatypes.S (Z.to_nat (bound x m))) cond body x m.

(** [for x in l: body(x)]. *)
Fixpoint for_each {S} (l : list S) (body : S -> M unit) : M unit :=
  match l with
  | [] => ret tt
  | x :: l' => body x >> for_each l' body
  end.

(** ** The tracer: [preparation] *)

Definition opcode (x : Z) : Z := Z.shiftr x 8.
Definition reg1 (x : Z) : Z := Z.land (Z.shiftr x 4) 0xf.
Definition reg2 (x : Z) : Z := Z.land x 0xf.

Definition one_instruction (pc_ : Z) : M Z :=
  let pc_here := pc_ in
  let* c := get_cell pc_ in
  (if opcode (data c) <? 4 then
     let* t := get_cell (pc_ + 1) in
     upd_cell (data t) (jump_from_append pc_)
   else
     let* c := get_cell pc_ in
     if opcode (data c) =? 4 then
       let* t := get_cell (pc_ + 1) in
       upd_cell (data t) (read_from_append pc_)
     else
       let* c := get_cell pc_ in
       if opcode (data c) =? 6 then
         let* t := get_cell (pc_ + 1) in
         upd_cell (data t) (write_from_append pc_)
       else ret tt) >>
  let* c := get_cell pc_ in
  let* pc_ := (if opcode (data c) <? 7
               then upd_cell (pc_ + 1) (set_is_2nd_word true) >> ret (pc_ + 2)
               else ret (pc_ + 1)) in
  let* c := get_cell pc_here in
  when (negb (data c =? 0)) (upd_cell pc_ (set_exec_from_prev (Some pc_here))) >>
  ret pc_.

Section Program.

Variable args : Args.

Definition Address_str (a : Z) : string := Address.to_str (address_style args) a.
Definition Address_tab_pad (a : Z) : string := Address.tab_pad (address_style args) a.
Definition Address_list (l : list Z) : string := Address.list_repr (address_style args) l.

(** get entry point *)
Definition get_entry_point : M unit :=
  let* c0 := get_cell 0 in
  if data c0 =? 0 then
    let* c1 := get_cell 1 in
    set_entry (data c1) >>
    let* c1 := get_cell 1 in
    let lbl := "Entrypoint_" ++ Address_str (data c1) in
    let* c1 := get_cell 1 in
    upd_cell (data c1) (set_label (Some lbl)) >>
    let* c1 := get_cell 1 in
    upd_cell (data c1) (jump_from_append 0)
  else
    set_entry 0.

(** find last instruction *)
Definition find_last : M unit :=
  set_last 0xffff >>
  while (Z.to_nat (2 * NCELLS + 2))
    (fun _ => let* l := get_last in let* c := get_cell l in ret (data c =? 0))
    (fun _ => let* l := get_last in set_last (l - 1))
    tt.

(** traverse all cells *)
Definition traverse (pc : Z) : M Z :=
  while_upto (fun pc m => last m + 1 - pc)
    (fun pc => let* l := get_last in ret (pc <=? l))
    one_instruction
    pc.

(** cells before entry point *)
Definition before_entry : M Z :=
  while_upto (fun x m => entry m - x)
    (fun x => let* e := get_entry in ret (x <? e))
    (fun x =>
       let* c := get_cell x in
       if Nat.eqb (length (jump_from c)) 0 then
         let* c := get_cell x in
         match exec_from_prev c with
         | None => ret (x + 1)
         | Some _ => one_instruction x
         end
       else one_instruction x)
    0.

(** set label *)
Definition set_labels : M Z :=
  let* pc := get_entry in
  while_upto (fun pc m => last m + 1 - pc)
    (fun pc => let* l := get_last in ret (pc <=? l))
    (fun pc =>
       let* c := get_cell pc in
       (if negb (is_2nd_word c) then
          let* c := get_cell pc in
          match label c with
          | None =>
              let* c := get_cell pc in
              when (negb (Nat.eqb (length (jump_from c)) 0))
                   (upd_cell pc (set_label (Some ("loc_" ++ Address_tab_pad pc))))
          | Some _ => ret tt
          end
        else ret tt) >>
       ret (pc + 1))
    pc.

Definition preparation : M unit :=
  get_entry_point >>
  let* pc := get_entry in
  find_last >>
  let* pc := traverse pc in
  before_entry >>
  set_labels >>
  ret tt.

(** ** The emitter: [output] *)

Import Py.

(** An f-string: the concatenation of its pieces. *)
Definition fstr (pieces : list string) : string := String.concat "" pieces.

Definition HEADER_STR (file time : string) : string :=
  fstr ["; Source Generated with Excel-CPU-Disassembler.py"; NL;
        "; https://github.com/Lil-Ran/Excel-CPU-Disassembler"; NL; NL;
        "; No guarantee of accuracy or functionality is provided."; NL;
        "; It is recommended to set tab width to 8 spaces."; NL; NL;
        "; File: "; file; NL;
        "; Time: "; time; NL; NL].

Definition ins_set : list string :=
  ["JMP"; "JEQ"; "JLT"; "JGE"; "LOAD"; "LOAD"; "STORE"; "STORE"; "TRAN";
   "ADD"; "SUB"; "MULT"; "DIV"; "INC"; "DEC"; "AND"; "OR"; "XOR";
   "NOT"; "ROL"; "ROR"; "CMP"; "CLC"; "STC"; "NOP"; "LOAD"].

(** [ins_set[i]]. *)
Definition ins_set_at (i : Z) : M string := lift (list_index ins_set i).

(** [ins_set(i)]: a list is not callable. *)
Definition ins_set_call (i : Z) : M string := raise TypeError.

Definition nonempty {A} (l : list A) : bool := negb (Nat.eqb (length l) 0).

Definition TAB5 : string := fstr [TAB; TAB; TAB; TAB; TAB].

(** The warnings about addresses 0 and 1. *)
Definition output_vector_warnings (i : Z) : M unit :=
  (let* c := get_cell i in
   when (nonempty (jump_from c))
     (let* c := get_cell i in
      write (fstr ["; Warning: address "; Address_str i;
                   " may be a jump target of "; Address_list (jump_from c); NL]))) >>
  (let* c := get_cell i in
   when (nonempty (read_from c))
     (let* c := get_cell i in
      write (fstr ["; Warning: address "; Address_str i;
                   " may be read by "; Address_list (read_from c); NL]))) >>
  (let* c := get_cell i in
   when (nonempty (write_from c))
     (let* c := get_cell i in
      write (fstr ["; Warning: address "; Address_str i;
                   " may be overwritten by "; Address_list (write_from c); NL]))).

(** One line of the data section. *)
Definition output_data (i : Z) : M unit :=
  (let* c := get_cell i in
   when (nonempty (jump_from c) && negb (no_warnings args))
     (let* c := get_cell i in
      write (fstr [TAB; "; Warning: the data below (@"; Address_str i;
                   ") may be a jump target of "; Address_list (jump_from c); NL]))) >>
  (let* c := get_cell i in
   write (fstr [TAB; "var_"; Address_str i; " = $"; format_X 4 (data c)])) >>
  (if decode_all args then
     let* c := get_cell i in
     when (opcode (data c) <? 26)
       (let* c := get_cell i in
        let* name := ins_set_at (opcode (data c)) in
        write (fstr [TAB; TAB; "; "; name]))
   else ret tt) >>
  write NL >>
  (let* c := get_cell i in
   when (nonempty (read_from c))
     (let* c := get_cell i in
      write (fstr [TAB5; "; XREF(R): "; Address_list (read_from c); NL]))) >>
  (let* c := get_cell i in
   when (nonempty (write_from c))
     (let* c := get_cell i in
      write (fstr [TAB5; "; XREF(W): "; Address_list (write_from c); NL]))).

(** opcode and operands; the result is [unused_bits]. *)
Definition output_operands (opcode_ reg1_ reg2_ second : Z) : M Z :=
  if opcode_ <? 4 then
    (let* name := ins_set_at opcode_ in write (fstr [TAB; name; TAB])) >>
    (let* t := get_cell second in
     match label t with
     | Some _ =>
         let* t := get_cell second in
         write (fstr [default "None" (label t); TAB])
     | None => write (fstr ["@"; Address.to_hex second; TAB; TAB])
     end) >>
    ret (if negb (reg1_ =? 0) || negb (reg2_ =? 0) then 2 else 0)
  else if (opcode_ =? 4) || (opcode_ =? 6) then
    let* e := get_entry in
    let tmp_operand_2 :=
      if second <? e then fstr ["var_"; Address_tab_pad second]
      else fstr ["@"; Address.to_hex second; TAB] in
    (let* name := ins_set_at opcode_ in
     write (fstr [TAB; name; TAB; "R"; str reg1_; TAB; tmp_operand_2])) >>
    ret (if negb (reg2_ =? 0) then 1 else 0)
  else if opcode_ =? 5 then
    (let* name := ins_set_at opcode_ in
     write (fstr [TAB; name; TAB; "R"; str reg1_; TAB; "$"; format_X 4 second; TAB])) >>
    ret (if negb (reg2_ =? 0) then 1 else 0)
  else if ((7 <=? opcode_) && (opcode_ <=? 12)) || ((15 <=? opcode_) && (opcode_ <=? 17))
          || ((opcode_ =? 21) || (opcode_ =? 25)) then
    (let* name := ins_set_at opcode_ in
     write (fstr [TAB; name; TAB; "R"; str reg1_; TAB; "R"; str reg2_; TAB])) >>
    ret 0
  else if (opcode_ =? 13) || (opcode_ =? 14) || (opcode_ =? 18) then
    (let* name := ins_set_at opcode_ in
     write (fstr [TAB; name; TAB; "R"; str reg1_; TAB; TAB])) >>
    ret (if negb (reg2_ =? 0) then 1 else 0)
  else if (opcode_ =? 19) || (opcode_ =? 20) then
    (let* name := ins_set_at opcode_ in
     write (fstr [TAB; name; TAB; "R"; str reg1_; TAB; "#"; str reg2_; TAB])) >>
    ret 0
  else if (22 <=? opcode_) && (opcode_ <=? 24) then
    (let* name := ins_set_at opcode_ in write (fstr [TAB; name; TAB; TAB; TAB])) >>
    ret (if negb (reg1_ =? 0) || negb (reg2_ =? 0) then 2 else 0)
  else
    write (fstr [TAB; "NOP"; TAB; TAB; TAB]) >> ret 0.

(** One instruction of the code section; the result is the next [pc]. *)
Definition output_instruction (pc : Z) : M Z :=
  let* c := get_cell pc in
  let ins := data c in
  let opcode_ := opcode ins in
  let reg1_ := reg1 ins in
  let reg2_ := reg2 ins in
  let* c := get_cell (pc + 1) in
  let second := data c in
  (* up msg *)
  (let* c := get_cell pc in
   match label c with
   | Some _ =>
       let* c := get_cell pc in
       write (fstr [NL; default "None" (label c); ":"; NL])
   | None => ret tt
   end) >>
  (let* c := get_cell pc in
   when (nonempty (read_from c) && negb (no_warnings args))
     (let* c := get_cell pc in
      write (fstr [TAB; "; Warning: the code below (@"; Address_str pc;
                   ") may be read by "; Address_list (read_from c); NL]))) >>
  (let* c := get_cell pc in
   when (nonempty (write_from c) && negb (no_warnings args))
     (let* c := get_cell pc in
      write (fstr [TAB; "; Warning: the code below (@"; Address_str pc;
                   ") may be overwritten by "; Address_list (write_from c); NL]))) >>
  (* opcode and operands *)
  let* unused_bits := output_operands opcode_ reg1_ reg2_ second in
  (* include address or data *)
  when (include_address args) (write (fstr [TAB; "; at "; Address_str pc])) >>
  (if include_data args then
     let* operand :=
       (if opcode_ <? 7
        then let* c := get_cell (pc + 1) in ret (fstr [" "; format_X 4 (data c)])
        else ret "") in
     write (fstr [TAB; "; data: "; format_X 4 ins; operand])
   else ret tt) >>
  write NL >>
  (* opcode >= 26 (down) *)
  when (26 <=? opcode_)
    (write (fstr [TAB; "; Error: instruction above is not NOP but unknown opcode ";
                  format_X 4 ins; ";"; NL;
                  TAB; "  plain data in code section is not allowed by compiler;"; NL;
                  TAB; "  if it is a junk code that would never be read or executed,"; NL;
                  TAB; "  please set Cell "; Address.to_excel pc;
                  " to 6144 (NOP) in Excel manually."; NL; NL])) >>
  (* 2nd word has jump_from *)
  (if opcode_ <? 7 then
     let* c := get_cell (pc + 1) in
     when (nonempty (jump_from c) && negb (no_warnings args))
       (let* name := ins_set_call opcode_ in
        let* c := get_cell (pc + 1) in
        write (fstr [TAB5; "; Warning: the operand of "; name; " (@"; Address_str (pc + 1);
                     ") may be a jump target of "; Address_list (jump_from c); NL]))
   else ret tt) >>
  (* unused bits *)
  when (negb (unused_bits =? 0) && negb (no_warnings args))
    (write (fstr [TAB5; "; Warning: instruction above has unused bits (";
                  (if unused_bits =? 2 then format_X 1 reg1_ else "");
                  format_X 1 reg2_; ")"; NL])) >>
  (* XREF and NO XREF warn *)
  (let* c := get_cell pc in
   if nonempty (jump_from c) then
     let* c := get_cell pc in
     write (fstr [TAB5; "; XREF(X): "; Address_list (jump_from c); NL])
   else
     let* c := get_cell pc in
     match exec_from_prev c with
     | None =>
         when (negb (no_warnings args))
           (write (fstr [TAB5; "; Warning: the code above (@"; Address_str pc;
                         ") may not be executed"; NL]))
     | Some _ => ret tt
     end) >>
  (* decode all - 2nd word *)
  (if decode_all args && (opcode_ <? 7) then
     let* c := get_cell (pc + 1) in
     when ((0 <? opcode (data c)) && (opcode (data c) <? 26))
       (let* c := get_cell (pc + 1) in
        let* name := ins_set_at (opcode (data c)) in
        write (fstr [TAB5; "; -A: operand can be decoded as "; name; NL]))
   else ret tt) >>
  ret (pc + (if 7 <=? opcode_ then 1 else 2)).

(** [now] is the time stamp [datetime.now().strftime(...)] returns. *)
Definition output (now : string) : M unit :=
  when (negb (to_stdout args)) (write (HEADER_STR (input args) now)) >>
  (* data section *)
  (let* e := get_entry in
   if negb (e =? 0) then
     (* ignore cells[0] and cells[1] *)
     when (negb (no_warnings args)) (for_each [0; 1] output_vector_warnings) >>
     write (fstr [NL; ".DATA"; NL]) >>
     (let* e := get_entry in for_each (seqZ 2 (e - 2)) output_data) >>
     write (fstr [NL; ".CODE"; NL])
   else ret tt) >>
  let* pc := get_entry in
  while_upto (fun pc m => last m + 1 - pc)
    (fun pc => let* l := get_last in ret (pc <=? l))
    output_instruction
    pc >>
  ret tt.

(** [__main__], after [arg_parse] and [load_excel]. *)
Definition main (now : string) : M unit :=
  preparation >> output now.

End Program.

(** ** Predicate transformers and the definitions the statements use *)

(** Weakest liberal precondition: [Q] on a normal end, [E] on an
    exception; nothing is said of a run that exhausts its fuel (the
    termination lemmas exclude it). *)
Definition wlp {A} (c : M A) (Q : A -> Machine -> Prop) (E : exn -> Machine -> Prop)
    (m : Machine) : Prop :=
  match c m with
  | Done a m' => Q a m'
  | Raised e m' => E e m'
  | OutOfFuel => True
  end.

(** The computation never exhausts its fuel. *)
Definition total {A} (c : M A) : Prop := forall m, c m <> OutOfFuel.

(** Every step of [c] relates the state before to the state after, also
    when [c] raises. *)
Definition steps {A} (R : Machine -> Machine -> Prop) (c : M A) : Prop :=
  forall m, wlp c (fun _ m' => R m m') (fun _ m' => R m m') m.

(** A relation on cells, lifted to states that keep [entry] and [last]. *)
Definition lifted (Rc : Cell -> Cell -> Prop) (m m' : Machine) : Prop :=
  (forall j, Rc (cell_at m j) (cell_at m' j))
  /\ entry m' = entry m /\ last m' = last m.

(** [c'] is [c] after more tracing: the word is the same, a label and the
    second-word mark are kept, cross-references are only appended. *)
Record cell_le (c c' : Cell) : Prop := mk_cell_le {
  le_data : data c' = data c;
  le_label : forall l, label c = Some l -> label c' = Some l;
  le_2nd_word : is_2nd_word c = true -> is_2nd_word c' = true;
  le_read_from : read_from c `prefix_of` read_from c';
  le_write_from : write_from c `prefix_of` write_from c';
  le_jump_from : jump_from c `prefix_of` jump_from c'
}.

(** What a sweep does to a cell: as [cell_le], and the label is untouched. *)
Definition cell_swept (c c' : Cell) : Prop := cell_le c c' /\ label c' = label c.

(** What the emitter does to a cell: nothing. *)
Definition cell_same (c c' : Cell) : Prop := c' = c.

(** The two labels the tracer assigns. *)
Definition entry_label (args : Args) (a : Z) : string :=
  "Entrypoint_" ++ Address_str args a.

Definition loc_label (args : Args) (a : Z) : string :=
  "loc_" ++ Address_tab_pad args a.

(** The label of a cell after [set_labels] has passed its address [pc]. *)
Definition final_label (args : Args) (c : Cell) (pc : Z) : option string :=
  match label c with
  | Some l => Some l
  | None =>
      if negb (is_2nd_word c) && nonempty (jump_from c)
      then Some (loc_label args pc) else None
  end.

(** A Hoare triple over an invariant [I] of the state: from a state in
    [I], [c] ends in [I] with a result in [P], or raises an exception in [E]
    in a state in [I]. *)
Definition hoare {A} (I : Machine -> Prop) (E : exn -> Prop) (c : M A) (P : A -> Prop) : Prop :=
  forall m, I m -> wlp c (fun a m' => I m' /\ P a) (fun e m' => I m' /\ E e) m.

(** What makes [I] an invariant of the primitive steps: [ok] are the
    indices the program may use, [val i] holds of the cell a read at [i]
    returns, [okf] are the updates it may make, [e0] and [l0] are [entry] and
    [last]. *)
Class Invariant (I : Machine -> Prop) (E : exn -> Prop)
    (ok : Z -> Prop) (val : Z -> Cell -> Prop) (okf : (Cell -> Cell) -> Prop)
    (e0 l0 : Z) : Prop := {
  inv_get : forall i m, ok i -> I m ->
    match cell_index i with
    | Some j => I (touch i m) /\ val i (cell_at m j)
    | None => I (touch i m) /\ E IndexError
    end;
  inv_upd : forall i f m, ok i -> okf f -> I m ->
    match cell_index i with
    | Some j => I (upd j f i m)
    | None => I (touch i m) /\ E IndexError
    end;
  inv_write : forall s m, I m ->
    I (mkMachine (cells m) (entry m) (last m) (fout m ++ [s]) (accessed m));
  inv_entry : forall m, I m -> entry m = e0;
  inv_last : forall m, I m -> last m = l0
}.

(** Every index at which [cells] has been subscripted lies in the list. *)
Definition in_bounds (m : Machine) : Prop :=
  Forall (fun i => 0 <= i < NCELLS) (accessed m).

Definition in_boundsb (m : Machine) : bool :=
  forallb (fun i => (0 <=? i) && (i <? NCELLS)) (accessed m).

(** The word at a position. *)
Definition data_at (m : Machine) (j : Z) : Z := data (cell_at m j).

(** The word of the image at an address ([0] where the sheet is empty). *)
Definition word (image : gmap Z Z) (a : Z) : Z := default 0 (image !! a).

(** The state holds the words of [image], [entry] and [last] are [e0] and
    [l0], and every index used so far lies in the list. *)
Definition safe_inv (image : gmap Z Z) (e0 l0 : Z) (m : Machine) : Prop :=
  in_bounds m /\ (forall j, data_at m j = word image j)
  /\ entry m = e0 /\ last m = l0.

(** [entry] and [last] are [e0] and [l0]. *)
Definition bounds_inv (e0 l0 : Z) (m : Machine) : Prop :=
  entry m = e0 /\ last m = l0.

(** A well-formed image: addresses and words are 16-bit values. *)
Definition wf_image (image : gmap Z Z) : Prop :=
  forall a v, image !! a = Some v -> 0 <= a < NCELLS /\ 0 <= v < NCELLS.


(** The number of words [one_instruction] advances over a word [d]. *)
Definition width (d : Z) : Z := if opcode d <? 7 then 2 else 1.

(** The addresses at which the loop of [traverse] calls [one_instruction]
    when it starts at [pc] with at most [fuel] turns: the instructions the
    main sweep traces. *)
Fixpoint sweep_pcs (image : gmap Z Z) (l : Z) (fuel : nat) (pc : Z) : list Z :=
  match fuel with
  | O => []
  | S k =>
      if pc <=? l
      then pc :: sweep_pcs image l k (pc + width (word image pc))
      else []
  end.

Definition main_sweep (image : gmap Z Z) (e l : Z) : list Z :=
  sweep_pcs image l (S (Z.to_nat (l + 1 - e))) e.

(** Every recorded origin is an instruction of the matching kind. *)
Definition origins_ok (image : gmap Z Z) (m : Machine) : Prop :=
  forall j p,
    (p ∈ read_from (cell_at m j) -> opcode (word image p) = 4)
    /\ (p ∈ write_from (cell_at m j) -> opcode (word image p) = 6)
    /\ (p ∈ jump_from (cell_at m j) -> opcode (word image p) < 4).

(** What the main sweep has recorded for an instruction it traced. *)
Definition traced_ok (image : gmap Z Z) (m : Machine) (p : Z) : Prop :=
  let d := word image p in
  let t := word image (p + 1) in
  (opcode d < 7 -> is_2nd_word (cell_at m (p + 1)) = true)
  /\ (opcode d = 4 -> p ∈ read_from (cell_at m t))
  /\ (opcode d = 6 -> p ∈ write_from (cell_at m t))
  /\ (opcode d < 4 -> p ∈ jump_from (cell_at m t)).

Fixpoint string_forall (p : ascii -> bool) (s : string) : bool :=
  match s with
  | EmptyString => true
  | String c s' => p c && string_forall p s'
  end.

(** The characters [digit_char] yields. *)
Definition hex_char (c : ascii) : bool :=
  Py.is_digit c || ((65 <=? Py.ord c) && (Py.ord c <=? 70)).

(** The digits of a decimal literal and what follows them: decimal digits
    with single underscores between them, then white space to the end. *)
Fixpoint digit_groups (s : string) : bool :=
  match s with
  | EmptyString => false
  | String c s' =>
      Py.is_digit c &&
      match s' with
      | EmptyString => true
      | String d s'' =>
          if Ascii.eqb d "_" then digit_groups s''
          else if Py.is_digit d then digit_groups s'
          else string_forall Py.is_space s'
      end
  end.

(** What may come after a digit: nothing, one underscore and more digits,
    another digit, or white space to the end. *)
Definition after_digit (s : string) : bool :=
  match s with
  | EmptyString => true
  | String d s' =>
      if Ascii.eqb d "_" then digit_groups s'
      else if Py.is_digit d then digit_groups s
      else string_forall Py.is_space s
  end.

(** A numeric row part: a decimal integer literal as Python writes it,
    that is optional white space, an optional sign, decimal digits with
    single underscores between them, and optional white space. *)
Fixpoint decimal_literal (s : string) : bool :=
  match s with
  | EmptyString => false
  | String c s' =>
      if Py.is_space c then decimal_literal s'
      else if Ascii.eqb c "+" || Ascii.eqb c "-" then digit_groups s'
      else digit_groups s
  end.


Definition res_is (r : res Z) (a : Z) : bool :=
  match r with
  | Ret x => x =? a
  | Exn _ => false
  end.

(** ** Sample inputs *)

Definition args_hex : Args := mkArgs "ROM.xlsx" true hex false false false false.
Definition args_deci : Args := mkArgs "ROM.xlsx" true deci false false false false.
Definition args_quiet : Args := mkArgs "ROM.xlsx" true hex false false false true.

(** Entry vector to address 2, [ADD R0 R4] and [CLC]. *)
Definition image_add_clc : gmap Z Z :=
  list_to_map [(1, 2); (2, 0x0904); (3, 0x1600)].

(** Entry at 4, where a [JMP] (a zero word) targets address 2, before the
    entry. *)
Definition image_jump_back : gmap Z Z :=
  list_to_map [(1, 4); (2, 0x1800); (5, 2)].

(** [JEQ] at address 0 whose operand word, at address 1, is its own target. *)
Definition image_operand_target : gmap Z Z :=
  list_to_map [(0, 0x0100); (1, 1)].

(** [NOP] at address 0 and a [JEQ] back to it at address 1. *)
Definition image_loop : gmap Z Z :=
  list_to_map [(0, 0x1800); (1, 0x0100)].

(** Opcode 25 at address 0, followed by a word that holds 5. *)
Definition image_opcode_25 : gmap Z Z :=
  list_to_map [(0, 0x1901); (1, 5)].

(** [LOAD R1 @0006] at address 0, [STORE R2 @0007] at address 2, [NOP]. *)
Definition image_load_store : gmap Z Z :=
  list_to_map [(0, 0x0410); (1, 6); (2, 0x0620); (3, 7); (4, 0x1800)].

(** [p] holds of every entry of an image. *)
Definition image_check (p : Z -> Z -> bool) (image : gmap Z Z) : bool :=
  forallb (fun kv => p kv.1 kv.2) (map_to_list image).

Definition wf_entry (a v : Z) : bool :=
  (0 <=? a) && (a <? NCELLS) && (0 <=? v) && (v <? NCELLS).

(** The run ended normally. *)
Definition is_done {A} (o : outcome A) : bool :=
  match o with
  | Done _ _ => true
  | _ => false
  end.

(** The run ended normally, in a state that satisfies [P]. *)
Definition ends_with {A} (o : outcome A) (P : Machine -> Prop) : Prop :=
  match o with
  | Done _ m => P m
  | _ => False
  end.

(** The run raised [e], in a state that satisfies [P]. *)
Definition raises_with {A} (o : outcome A) (e : exn) (P : Machine -> Prop) : Prop :=
  match o with
  | Raised e' m => e' = e /\ P m
  | _ => False
  end.

(** [p] holds at the [n] integers from [a] on. *)
Fixpoint all_from (n : nat) (a : Z) (p : Z -> bool) : bool :=
  match n with
  | O => true
  | S k => p a && all_from k (a + 1) p
  end.

(** ** The loader: [load_excel] on the cells of the worksheet *)

(** [cells[i].data = d]. *)
Definition set_data (d : Z) (c : Cell) : Cell :=
  mkCell d (label c) (exec_from_prev c) (is_2nd_word c)
         (read_from c) (write_from c) (jump_from c).

Module Loader.

(** A cell of the active worksheet as [iter_rows] yields it: [row] and
    [column] count from 1, [value] is [None] for an empty cell (the model
    covers cells that hold integers). *)
Record SheetCell : Type := mkSheetCell {
  row : Z;
  column : Z;
  value : option Z
}.

(** [cells = [Cell() for _ in range(0x10000)]]. *)
Definition new_cells : M unit :=
  fun m => Done tt (mkMachine ∅ (entry m) (last m) (fout m) (accessed m)).

(** [load_excel], on the rows [ws.iter_rows()] yields. *)
Definition load_excel (ws : list (list SheetCell)) : M unit :=
  new_cells >>
  for_each ws (fun r =>
    for_each r (fun cell =>
      match value cell with
      | Some v => upd_cell ((row cell - 1) * 0x100 + (column cell - 1)) (set_data v)
      | None => ret tt
      end)).

(** The address at which a cell of the sheet is stored. *)
Definition position (c : SheetCell) : Z := (row c - 1) * 0x100 + (column c - 1).

(** The words of a sheet, cell after cell: a later cell replaces an earlier
    one stored at the same address. *)
Definition store_step (im : gmap Z Z) (c : SheetCell) : gmap Z Z :=
  match value c with
  | Some v => <[position c := v]> im
  | None => im
  end.

Definition image_of (l : list SheetCell) : gmap Z Z := foldl store_step ∅ l.

End Loader.

(** ** Relations between states *)

(** The state a run ends in, normally or with an exception, satisfies [P]
    (and the run does end). *)
Definition after {A} (o : outcome A) (P : Machine -> Prop) : Prop :=
  match o with
  | Done _ m => P m
  | Raised _ m => P m
  | OutOfFuel => False
  end.

(** [c'] is [c] with the same word, the second-word mark kept, and
    cross-references appended. *)
Definition cell_grows (c c' : Cell) : Prop :=
  data c' = data c
  /\ (is_2nd_word c = true -> is_2nd_word c' = true)
  /\ read_from c `prefix_of` read_from c'
  /\ write_from c `prefix_of` write_from c'
  /\ jump_from c `prefix_of` jump_from c'.

(** What the tracer does to a state: nothing is written, words stay,
    cross-references grow. *)
Definition traced (m m' : Machine) : Prop :=
  fout m' = fout m /\ forall j, cell_grows (cell_at m j) (cell_at m' j).

(** What the emitter does to a state: it appends to the output. *)
Definition emitted (m m' : Machine) : Prop :=
  cells m' = cells m /\ entry m' = entry m /\ last m' = last m
  /\ fout m `prefix_of` fout m'.

(** Two cells that differ at most in the text of their label. *)
Definition cell_sim (c1 c2 : Cell) : Prop :=
  data c1 = data c2 /\ exec_from_prev c1 = exec_from_prev c2
  /\ is_2nd_word c1 = is_2nd_word c2
  /\ read_from c1 = read_from c2 /\ write_from c1 = write_from c2
  /\ jump_from c1 = jump_from c2
  /\ (label c1 = None <-> label c2 = None).

(** Two states that differ at most in the text of the labels. *)
Definition sim (m1 m2 : Machine) : Prop :=
  entry m1 = entry m2 /\ last m1 = last m2 /\ fout m1 = fout m2
  /\ accessed m1 = accessed m2
  /\ forall j, cell_sim (cell_at m1 j) (cell_at m2 j).

(** Two runs that end the same way, with related results, in states that
    differ at most in the text of the labels. *)
Definition outcome_sim {A} (RA : A -> A -> Prop) (o1 o2 : outcome A) : Prop :=
  match o1, o2 with
  | Done a1 m1, Done a2 m2 => RA a1 a2 /\ sim m1 m2
  | Raised e1 m1, Raised e2 m2 => e1 = e2 /\ sim m1 m2
  | OutOfFuel, OutOfFuel => True
  | _, _ => False
  end.

Definition related {A} (RA : A -> A -> Prop) (c1 c2 : M A) : Prop :=
  forall m1 m2, sim m1 m2 -> outcome_sim RA (c1 m1) (c2 m2).

(** Every recorded origin is an instruction of the matching kind whose
    operand word is the address of the cell. *)
Definition xrefs_sound (image : gmap Z Z) (m : Machine) : Prop :=
  forall j p,
    (p ∈ read_from (cell_at m j) -> opcode (word image p) = 4 /\ word image (p + 1) = j)
    /\ (p ∈ write_from (cell_at m j) -> opcode (word image p) = 6 /\ word image (p + 1) = j)
    /\ (p ∈ jump_from (cell_at m j) -> opcode (word image p) < 4 /\ word image (p + 1) = j).

(** Every link [exec_from_prev] leads back to a non-zero instruction word
    that ends right before the cell. *)
Definition links_ok (image : gmap Z Z) (m : Machine) : Prop :=
  forall j p, exec_from_prev (cell_at m j) = Some p ->
    word image p <> 0 /\ j = p + width (word image p).

(** Every cell marked as a second word follows a two-word instruction. *)
Definition marks_ok (image : gmap Z Z) (m : Machine) : Prop :=
  forall j, is_2nd_word (cell_at m j) = true -> opcode (word image (j - 1)) < 7.

(** The link of the cell [j] that follows the instruction at [p]: it names
    [p], unless [j] is the cell after the entry and the two-word instruction
    right before the entry, traced later, ends there too. *)
Definition linked (m : Machine) (p j : Z) : Prop :=
  exec_from_prev (cell_at m j) = Some p
  \/ (j = entry m + 1 /\ exec_from_prev (cell_at m j) = Some (entry m - 1)).

(** What [one_instruction] leaves in the cells for the instruction at [p]:
    the mark and the cross-reference of [traced_ok], and the link of the
    cell that follows when the word is not zero. *)
Definition recorded (image : gmap Z Z) (m : Machine) (p : Z) : Prop :=
  traced_ok image m p
  /\ (word image p <> 0 -> linked m p (p + width (word image p))).

(** A link [exec_from_prev], once set, stays set. *)
Definition exec_kept (c c' : Cell) : Prop :=
  exec_from_prev c <> None -> exec_from_prev c' <> None.

(** The characters of the renderings of an address: none is a tab. *)
Definition visible (c : ascii) : bool := 32 <? Py.ord c.

(** The part of [output] before the code section: the header and the data
    section. *)
Definition output_preamble (args : Args) (now : string) : M unit :=
  when (negb (to_stdout args)) (write (HEADER_STR (input args) now)) >>
  (let* e := get_entry in
   if negb (e =? 0) then
     when (negb (no_warnings args)) (for_each [0; 1] (output_vector_warnings args)) >>
     write (fstr [Py.NL; ".DATA"; Py.NL]) >>
     (let* e := get_entry in for_each (seqZ 2 (e - 2)) (output_data args)) >>
     write (fstr [Py.NL; ".CODE"; Py.NL])
   else ret tt).

(** The emitter at work on the state [m0] the tracer left: the cells are
    those of [m0], [entry] and [last] too, and every index used so far lies
    in the list. *)
Definition frozen (m0 m : Machine) : Prop :=
  in_bounds m /\ cells m = cells m0 /\ entry m = entry m0 /\ last m = last m0.

(** The instruction at [pc] has an operand word that is a jump target, and
    warnings are not suppressed: the condition under which [output] builds
    the warning about the operand. *)
Definition warns_operand (args : Args) (m0 : Machine) (pc : Z) : bool :=
  (opcode (data_at m0 pc) <? 7) && nonempty (jump_from (cell_at m0 (pc + 1)))
  && negb (no_warnings args).

(** The line that declares the word at address [i] in the data section, and
    the line that declares a label in the code section. *)
Definition data_line (args : Args) (i d : Z) : string :=
  fstr [Py.TAB; "var_"; Address_str args i; " = $"; Py.format_X 4 d].

Definition label_line (l : string) : string := fstr [Py.NL; l; ":"; Py.NL].

(** Sample sheet: A1 is empty, B1 holds 2, C1 [ADD R0 R4], D1 [CLC]. *)
Definition sheet_add_clc : list (list Loader.SheetCell) :=
  [[Loader.mkSheetCell 1 1 None; Loader.mkSheetCell 1 2 (Some 2);
    Loader.mkSheetCell 1 3 (Some 0x0904); Loader.mkSheetCell 1 4 (Some 0x1600)]].

(** Entry at 3 with a [NOP]; a [LOAD] at address 2, right before the entry,
    to which the [JEQ] at address 4 jumps back. *)
Definition image_entry_link : gmap Z Z :=
  list_to_map [(1, 3); (2, 0x0400); (3, 0x1800); (4, 0x0100); (5, 2)].

(** The state before [load_excel]. *)
Definition machine0 : Machine := mkMachine ∅ 0 0 [] [].

(** * Properties *)

Example py_str_ex : Py.str 65535 = "65535" /\ Py.str 0 = "0" /\ Py.str (-12) = "-12".
Proof. repeat split; reflexivity. Qed.

Example py_format_ex :
  Py.format_X 4 (-1) = "-001" /\ Py.format_X 4 70000 = "11170" /\
  Py.format_X 4 40 = "0028" /\ Py.format_X 1 15 = "F".
Proof. repeat split; reflexivity. Qed.

Example py_int_ex :
  Py.int 10 " 12 " = Ret 12 /\ Py.int 10 "1_0" = Ret 10 /\ Py.int 10 "-5" = Ret (-5) /\
  Py.int 10 "1__0" = Exn ValueError /\ Py.int 10 "0x1f" = Exn ValueError /\
  Py.int 10 "" = Exn ValueError /\ Py.int 16 "0x_1f" = Ret 31 /\
  Py.int 16 "00ff" = Ret 255 /\ Py.int 16 "0x" = Exn ValueError /\
  Py.int 10 "+ 1" = Exn ValueError /\ Py.int 16 "-0x1" = Ret (-1).
Proof. repeat split; reflexivity. Qed.

Example address_ex :
  Address.to_excel 0 = "A1" /\ Address.to_excel 26 = "BA1" /\
  Address.to_excel 65535 = "JV256" /\ Address.to_str rowcol 513 = "2_1" /\
  Address.from_excel "JV256" = Ret 65535 /\ Address.from_excel "a1" = Ret 0 /\
  Address.from_excel "A" = Exn IndexError /\ Address.from_excel "Ax" = Exn ValueError.
Proof. repeat split; reflexivity. Qed.

(** ** Characters and digits *)

Lemma ord_chr x : 0 <= x < 256 -> Py.ord (Py.chr x) = x.
Proof.
  intros Hx. unfold Py.ord, Py.chr.
  rewrite N_ascii_embedding by lia. lia.
Qed.

Lemma ord_inj c1 c2 : Py.ord c1 = Py.ord c2 -> c1 = c2.
Proof.
  unfold Py.ord. intros H. apply N2Z.inj in H.
  rewrite <- (ascii_N_embedding c1), <- (ascii_N_embedding c2). by rewrite H.
Qed.

Lemma eqb_ord c1 c2 : Py.ord c1 <> Py.ord c2 -> Ascii.eqb c1 c2 = false.
Proof. intros H. apply Ascii.eqb_neq. intros ->. by apply H. Qed.

Lemma ord_digit_char d :
  0 <= d < 16 -> Py.ord (Py.digit_char d) = if d <? 10 then 48 + d else 55 + d.
Proof. intros Hd. unfold Py.digit_char. apply ord_chr. case_match; lia. Qed.

Lemma digit_value_digit_char base d :
  0 <= d < base -> base <= 16 -> Py.digit_value base (Py.digit_char d) = Some d.
Proof.
  intros Hd Hb. unfold Py.digit_value, Py.is_digit, Py.is_upper, Py.is_lower.
  rewrite ord_digit_char by lia.
  destruct (d <? 10) eqn:H10; repeat case_match; try lia; f_equal; lia.
Qed.

Lemma hex_char_digit_char d : 0 <= d < 16 -> hex_char (Py.digit_char d) = true.
Proof.
  intros Hd. unfold hex_char, Py.is_digit. rewrite ord_digit_char by lia.
  case_match; lia.
Qed.

Lemma is_digit_digit_char d : 0 <= d < 10 -> Py.is_digit (Py.digit_char d) = true.
Proof.
  intros Hd. unfold Py.is_digit. rewrite ord_digit_char by lia. case_match; lia.
Qed.

Lemma hex_char_ord c :
  hex_char c = true -> 48 <= Py.ord c <= 57 \/ 65 <= Py.ord c <= 70.
Proof. unfold hex_char, Py.is_digit. lia. Qed.

(** The digits of a number are digit characters, one at least. *)
Lemma digits_of_forall (P : ascii -> bool) base fuel : forall n acc,
  0 < base -> (forall d, 0 <= d < base -> P (Py.digit_char d) = true) -> 0 <= n ->
  string_forall P acc = true ->
  string_forall P (Py.digits_of base fuel n acc) = true.
Proof.
  induction fuel as [|k IH]; intros n acc Hb HP Hn Hacc; [done|].
  simpl.
  assert (Hc : string_forall P (String (Py.digit_char (n mod base)) acc) = true).
  { simpl. rewrite HP; [done|]. apply Z.mod_pos_bound. lia. }
  destruct (n / base =? 0); [done|].
  apply IH; [done..| |done]. apply Z.div_pos; lia.
Qed.

Lemma digits_of_nonempty base fuel n acc :
  Py.digits_of base (S fuel) n acc <> "".
Proof.
  revert n acc. induction fuel as [|k IH]; intros n acc; simpl.
  - by destruct (n / base =? 0).
  - destruct (n / base =? 0); [done|]. apply IH.
Qed.

(** Reading the digits of a number back. *)
Lemma scan_digits_of base f : forall n acc prev v0,
  1 < base <= 16 -> 0 <= n < base ^ Z.of_nat (S f) ->
  exists k, Py.scan_digits base (Py.digits_of base (S f) n acc) prev v0
            = Py.scan_digits base acc (Some true) (v0 * base ^ k + n).
Proof.
  induction f as [|f IH]; intros n acc prev v0 Hb Hn.
  - assert (Hmod := Z.mod_pos_bound n base ltac:(lia)).
    change (base ^ Z.of_nat 1) with (base ^ 1) in Hn. rewrite Z.pow_1_r in Hn.
    exists 1. simpl Py.digits_of. rewrite Z.div_small, Z.mod_small by lia. simpl.
    rewrite digit_value_digit_char by lia. f_equal. lia.
  - assert (Hmod := Z.mod_pos_bound n base ltac:(lia)).
    assert (Hdm := Z.div_mod n base ltac:(lia)).
    change (Py.digits_of base (S (S f)) n acc) with
      (let acc' := String (Py.digit_char (n mod base)) acc in
       if n / base =? 0 then acc' else Py.digits_of base (S f) (n / base) acc').
    cbv zeta. destruct (n / base =? 0) eqn:Hq.
    + apply Z.eqb_eq in Hq. exists 1. simpl Py.scan_digits at 1.
      rewrite digit_value_digit_char by lia. f_equal. lia.
    + apply Z.eqb_neq in Hq.
      assert (0 <= n / base < base ^ Z.of_nat (S f)).
      { split; [apply Z.div_pos; lia|].
        apply Z.div_lt_upper_bound; [lia|].
        rewrite (Nat2Z.inj_succ (S f)), Z.pow_succ_r in Hn by lia. lia. }
      destruct (IH (n / base) (String (Py.digit_char (n mod base)) acc) prev v0 Hb
                  ltac:(done)) as (k & ->).
      assert (0 <= k \/ k < 0) as [Hk|Hk] by lia.
      * exists (k + 1). simpl Py.scan_digits at 1.
        rewrite digit_value_digit_char by lia. f_equal.
        rewrite Z.pow_add_r by lia. lia.
      * exists k. simpl Py.scan_digits at 1.
        rewrite digit_value_digit_char by lia. f_equal.
        rewrite (Z.pow_neg_r base k) by lia. lia.
Qed.

Lemma digits_fuel base n :
  1 < base -> 0 <= n -> n < base ^ Z.of_nat (S (Z.to_nat (Z.log2 n))).
Proof.
  intros Hb Hn. rewrite Nat2Z.inj_succ, Z2Nat.id by apply Z.log2_nonneg.
  destruct (decide (n = 0)) as [->|Hnz].
  - simpl. lia.
  - pose proof (Z.log2_spec n ltac:(lia)) as [_ H].
    eapply Z.lt_le_trans; [exact H|].
    apply Z.pow_le_mono_l. pose proof (Z.log2_nonneg n). lia.
Qed.

Lemma scan_digits_digits base n prev :
  1 < base <= 16 -> 0 <= n ->
  Py.scan_digits base (Py.digits base n) prev 0 = Some (n, "").
Proof.
  intros Hb Hn. unfold Py.digits.
  destruct (scan_digits_of base (Z.to_nat (Z.log2 n)) n "" prev 0 Hb
              ltac:(split; [done|by apply digits_fuel; lia])) as (k & ->).
  simpl. do 2 f_equal; lia.
Qed.

Lemma digits_hex_chars base n :
  1 < base <= 16 -> 0 <= n -> string_forall hex_char (Py.digits base n) = true.
Proof.
  intros. apply digits_of_forall; [lia| |done..].
  intros d Hd. apply hex_char_digit_char. lia.
Qed.

Lemma digits_10_chars n : 0 <= n -> string_forall Py.is_digit (Py.digits 10 n) = true.
Proof.
  intros. apply digits_of_forall; [lia| |done..].
  intros d Hd. by apply is_digit_digit_char.
Qed.

Lemma digits_nonempty base n : Py.digits base n <> "".
Proof. apply digits_of_nonempty. Qed.

(** ** [int] on strings of digits *)

Lemma skip_sign_other c s :
  Ascii.eqb c "+" = false -> Ascii.eqb c "-" = false ->
  Py.skip_sign (String c s) = (false, String c s).
Proof.
  destruct c as [[] [] [] [] [] [] [] []]; simpl; intros; try reflexivity; discriminate.
Qed.

Lemma skip_prefix_hex base s :
  string_forall hex_char s = true -> Py.skip_prefix base s = s.
Proof.
  destruct s as [|c0 [|c1 s]].
  - done.
  - by destruct c0 as [[] [] [] [] [] [] [] []].
  - intros H. simpl in H. apply andb_true_iff in H as [_ H].
    apply andb_true_iff in H as [H1%hex_char_ord _].
    assert (Ascii.eqb c1 "x" = false) as Hx
      by (apply eqb_ord; change (Py.ord "x") with 120; lia).
    assert (Ascii.eqb c1 "X" = false) as HX
      by (apply eqb_ord; change (Py.ord "X") with 88; lia).
    destruct c0 as [[] [] [] [] [] [] [] []]; try reflexivity.
    unfold Py.skip_prefix. rewrite Hx, HX. by rewrite andb_false_r.
Qed.

(** A non-empty string of digit characters that scans to [v] is read as [v]. *)
Lemma int_of_digits base s v :
  string_forall hex_char s = true -> s <> "" ->
  Py.scan_digits base s None 0 = Some (v, "") ->
  Py.int base s = Ret v.
Proof.
  intros Hs Hne Hscan. destruct s as [|c s]; [done|]. clear Hne.
  pose proof Hs as Hs'. simpl in Hs'. apply andb_true_iff in Hs' as [Hc%hex_char_ord _].
  unfold Py.int.
  assert (Hl : Py.lstrip (String c s) = String c s).
  { simpl. unfold Py.is_space. case_match; [lia|done]. }
  rewrite Hl, skip_sign_other
    by (apply eqb_ord; change (Py.ord "+") with 43; change (Py.ord "-") with 45; lia).
  rewrite skip_prefix_hex by done. by rewrite Hscan.
Qed.

Lemma int_digits base n :
  1 < base <= 16 -> 0 <= n -> Py.int base (Py.digits base n) = Ret n.
Proof.
  intros Hb Hn. apply int_of_digits.
  - by apply digits_hex_chars.
  - apply digits_nonempty.
  - by apply scan_digits_digits.
Qed.

(** [int(str(n))] is [n]. *)
Lemma int_str n : 0 <= n -> Py.int 10 (Py.str n) = Ret n.
Proof.
  intros Hn. unfold Py.str. destruct (n <? 0) eqn:H; [lia|].
  apply int_digits; lia.
Qed.

Lemma string_forall_app P s1 s2 :
  string_forall P (s1 ++ s2) = string_forall P s1 && string_forall P s2.
Proof.
  induction s1 as [|c s1 IH]; simpl; [done|]. by rewrite IH, andb_assoc.
Qed.

Lemma zeros_hex k : string_forall hex_char (Py.zeros k) = true.
Proof. induction k as [|k IH]; [done|]. simpl. by rewrite IH. Qed.

Lemma digit_value_zero base : 0 < base -> Py.digit_value base "0" = Some 0.
Proof.
  intros Hb. unfold Py.digit_value.
  change (Py.is_digit "0") with true. change (Py.ord "0" - 48) with 0.
  cbv iota zeta. case_match; [done|lia].
Qed.

Lemma scan_zeros base k s v :
  0 < base ->
  Py.scan_digits base s (Some true) 0 = Some (v, "") ->
  Py.scan_digits base s None 0 = Some (v, "") ->
  Py.scan_digits base (Py.zeros k ++ s) None 0 = Some (v, "").
Proof.
  intros Hb H1 H0. destruct k as [|k]; [done|].
  simpl. rewrite digit_value_zero by done. simpl.
  induction k as [|k IH]; [done|].
  simpl. by rewrite digit_value_zero.
Qed.

(** [from_hex] undoes [to_hex]. *)
Lemma from_hex_to_hex a : 0 <= a -> Address.from_hex (Address.to_hex a) = Ret a.
Proof.
  intros Ha. unfold Address.from_hex, Address.to_hex, Py.format_X.
  destruct (a <? 0) eqn:H; [lia|]. rewrite Z.abs_eq by done.
  change ("" ++ ?s) with s.
  apply int_of_digits.
  - rewrite string_forall_app, zeros_hex, digits_hex_chars by (done || lia). done.
  - intros Hz. apply (digits_nonempty 16 a).
    destruct (Py.zeros _); simpl in Hz; [done|discriminate].
  - apply scan_zeros; [lia|by apply scan_digits_digits; lia..].
Qed.

(** ** The round trips of the address codec *)

Lemma from_row_col_to_row_col a :
  uncurry Address.from_row_col (Address.to_row_col a) = a.
Proof.
  unfold Address.to_row_col, Address.from_row_col. simpl.
  pose proof (Z.div_mod a 0x100 ltac:(lia)). lia.
Qed.

Lemma str_from_0 s : Py.str_from s 0 = s.
Proof. by destruct s. Qed.

Lemma is_digit_not_alpha c : Py.is_digit c = true -> Py.isalpha c = false.
Proof. unfold Py.is_digit, Py.isalpha, Py.is_upper, Py.is_lower. lia. Qed.

Lemma letter_code x :
  0 <= x < 26 ->
  Py.isalpha (Py.chr (x + 65)) = true /\ Py.ord (Py.upper (Py.chr (x + 65))) - 65 = x.
Proof.
  intros Hx. unfold Py.isalpha, Py.upper, Py.is_upper, Py.is_lower.
  rewrite !ord_chr by lia.
  replace (97 <=? x + 65) with false by lia. simpl.
  rewrite ord_chr by lia. lia.
Qed.

(** [str] of a positive number starts with a digit. *)
Lemma str_head n :
  0 <= n -> exists c s, Py.str n = String c s /\ Py.is_digit c = true.
Proof.
  intros Hn. unfold Py.str. destruct (n <? 0) eqn:H; [lia|].
  pose proof (digits_10_chars n Hn) as Hc. pose proof (digits_nonempty 10 n) as Hne.
  destruct (Py.digits 10 n) as [|c s]; [done|].
  simpl in Hc. apply andb_true_iff in Hc as [Hc _]. eauto.
Qed.

(** [from_excel] undoes [to_excel]. *)
Lemma from_excel_to_excel a : 0 <= a -> Address.from_excel (Address.to_excel a) = Ret a.
Proof.
  intros Ha. unfold Address.to_excel, Address.to_row_col.
  assert (Hcol := Z.mod_pos_bound a 0x100 ltac:(lia)).
  assert (Hrow : 0 <= a / 0x100) by (apply Z.div_pos; lia).
  assert (Hdm := Z.div_mod a 0x100 ltac:(lia)).
  set (row := a / 0x100) in *. set (col := a mod 0x100) in *.
  assert (Hint := int_str (row + 1) ltac:(lia)).
  destruct (26 <=? col) eqn:H26.
  - assert (Hq : 0 <= col / 26 < 26).
    { split; [apply Z.div_pos; lia|apply Z.div_lt_upper_bound; lia]. }
    assert (Hr := Z.mod_pos_bound col 26 ltac:(lia)).
    assert (Hdm26 := Z.div_mod col 26 ltac:(lia)).
    destruct (letter_code (col / 26) Hq) as [_ Hh].
    destruct (letter_code (col mod 26) Hr) as [Hal Hl].
    unfold Address.from_excel. simpl. rewrite Hal. simpl.
    rewrite str_from_0, Hint. simpl. rewrite Hh, Hl.
    unfold Address.from_row_col. f_equal. lia.
  - destruct (letter_code col ltac:(lia)) as [_ Hc].
    destruct (str_head (row + 1) ltac:(lia)) as (c & s & Hs & Hd).
    unfold Address.from_excel. rewrite Hs in *. simpl.
    rewrite (is_digit_not_alpha c Hd). simpl. rewrite Hint. simpl. rewrite Hc.
    unfold Address.from_row_col. f_equal. lia.
Qed.

(** The [rowcol] rendering can be read back. *)
Lemma append_assoc (s1 s2 s3 : string) : (s1 ++ s2) ++ s3 = s1 ++ (s2 ++ s3).
Proof.
  induction s1 as [|c s1 IH]; [done|].
  change (String c ((s1 ++ s2) ++ s3) = String c (s1 ++ (s2 ++ s3))).
  by rewrite IH.
Qed.

Lemma append_nil_r (s : string) : s ++ "" = s.
Proof.
  induction s as [|c s IH]; [done|].
  change (String c (s ++ "") = String c s). by rewrite IH.
Qed.

Lemma split_underscore_digits s1 s2 : forall acc,
  string_forall Py.is_digit s1 = true ->
  Address.split_underscore (s1 ++ "_" ++ s2) acc = Some (acc ++ s1, s2).
Proof.
  induction s1 as [|c s1 IH]; intros acc Hs.
  - change (Address.split_underscore (String "_" s2) acc = Some (acc ++ "", s2)).
    by rewrite append_nil_r.
  - simpl in Hs. apply andb_true_iff in Hs as [Hc Hs].
    change (Address.split_underscore (String c (s1 ++ "_" ++ s2)) acc
            = Some (acc ++ String c s1, s2)).
    assert (Hu : Ascii.eqb c "_" = false).
    { apply eqb_ord. change (Py.ord "_") with 95. unfold Py.is_digit in Hc. lia. }
    change (Address.split_underscore (String c (s1 ++ "_" ++ s2)) acc)
      with (if Ascii.eqb c "_" then Some (acc, s1 ++ "_" ++ s2)
            else Address.split_underscore (s1 ++ "_" ++ s2) (acc ++ String c "")).
    rewrite Hu, IH by done. by rewrite append_assoc.
Qed.

Lemma read_rowcol_to_str a :
  0 <= a -> Address.read_rowcol (Address.to_str rowcol a) = Ret a.
Proof.
  intros Ha. unfold Address.to_str, Address.to_row_col, Address.read_rowcol.
  assert (Hcol := Z.mod_pos_bound a 0x100 ltac:(lia)).
  assert (Hrow : 0 <= a / 0x100) by (apply Z.div_pos; lia).
  assert (Hdm := Z.div_mod a 0x100 ltac:(lia)).
  rewrite split_underscore_digits.
  - change ("" ++ ?s) with s. simpl. rewrite !int_str by lia. simpl.
    unfold Address.from_row_col. f_equal. lia.
  - unfold Py.str. case_match; [lia|]. by apply digits_10_chars.
Qed.

(** The reader of each rendering of [__str__]. Only used to argue that the
    renderings are one-to-one. *)
Lemma to_str_reader style a :
  0 <= a ->
  match style with
  | deci => Py.int 10
  | hex => Address.from_hex
  | rowcol => Address.read_rowcol
  | excel => Address.from_excel
  end (Address.to_str style a) = Ret a.
Proof.
  intros Ha. destruct style; simpl.
  - by apply int_str.
  - by apply from_hex_to_hex.
  - by apply read_rowcol_to_str.
  - by apply from_excel_to_excel.
Qed.

(** C3. For every address [a] in [0, 65535]: [from_hex] undoes [to_hex],
    [from_row_col] undoes [to_row_col], [from_excel] undoes [to_excel],
    [int] undoes the decimal rendering, and each of the four renderings of
    [__str__] is one-to-one on [0, 65535]. *)
Theorem address_roundtrip (a : Z) :
  0 <= a <= 65535 ->
  Address.from_hex (Address.to_hex a) = Ret a
  /\ uncurry Address.from_row_col (Address.to_row_col a) = a
  /\ Address.from_excel (Address.to_excel a) = Ret a
  /\ Py.int 10 (Address.to_str deci a) = Ret a
  /\ (forall style b, 0 <= b <= 65535 ->
        Address.to_str style a = Address.to_str style b -> a = b).
Proof.
  intros Ha.
  split; [apply from_hex_to_hex; lia|].
  split; [apply from_row_col_to_row_col|].
  split; [apply from_excel_to_excel; lia|].
  split; [apply int_str; lia|].
  intros style b Hb Heq.
  pose proof (to_str_reader style a ltac:(lia)) as Ra.
  pose proof (to_str_reader style b ltac:(lia)) as Rb.
  rewrite Heq in Ra. rewrite Ra in Rb. by injection Rb.
Qed.

Lemma address_roundtrip_witness :
  Address.from_hex (Address.to_hex 40) = Ret 40
  /\ uncurry Address.from_row_col (Address.to_row_col 40) = 40
  /\ Address.from_excel (Address.to_excel 40) = Ret 40
  /\ Py.int 10 (Address.to_str deci 40) = Ret 40
  /\ (forall style b, 0 <= b <= 65535 ->
        Address.to_str style 40 = Address.to_str style b -> 40 = b).
Proof. apply (address_roundtrip 40). lia. Defined.

(** ** Rejection by [from_excel] *)

Lemma digit_value_10 c v : Py.digit_value 10 c = Some v -> Py.is_digit c = true.
Proof.
  unfold Py.digit_value. destruct (Py.is_digit c) eqn:Hd; [done|].
  destruct (Py.is_upper c) eqn:Hu.
  - unfold Py.is_upper in Hu. case_match; [|done]. lia.
  - destruct (Py.is_lower c) eqn:Hl.
    + unfold Py.is_lower in Hl. case_match; [|done]. lia.
    + simpl. done.
Qed.

Lemma skip_prefix_10 s : Py.skip_prefix 10 s = s.
Proof. unfold Py.skip_prefix. repeat case_match; try reflexivity; simpl in *; discriminate. Qed.

Lemma int_10_result s : (exists v, Py.int 10 s = Ret v) \/ Py.int 10 s = Exn ValueError.
Proof.
  unfold Py.int. repeat case_match; eauto.
Qed.

Lemma digit_value_10_digit c :
  Py.is_digit c = true -> exists v, Py.digit_value 10 c = Some v.
Proof.
  intros Hd. unfold Py.digit_value. rewrite Hd.
  unfold Py.is_digit in Hd. case_match; [eauto|lia].
Qed.

Lemma digit_value_10_none c : Py.is_digit c = false -> Py.digit_value 10 c = None.
Proof.
  intros Hd. destruct (Py.digit_value 10 c) as [v|] eqn:Hv; [|done].
  apply digit_value_10 in Hv. congruence.
Qed.

Lemma underscore_no_digit c : Ascii.eqb c "_" = true -> Py.is_digit c = false.
Proof. intros ->%Ascii.eqb_eq. reflexivity. Qed.

Lemma digit_groups_after c s :
  Py.is_digit c = true -> digit_groups (String c s) = after_digit s.
Proof. intros Hc. cbn [digit_groups]. rewrite Hc. by destruct s. Qed.

Lemma lstrip_spaces s : Py.lstrip s = "" <-> string_forall Py.is_space s = true.
Proof.
  induction s as [|c s IH]; simpl; [done|].
  destruct (Py.is_space c); simpl; [done|]. split; discriminate.
Qed.

(** The digits [int] scans, and then white space to the end, are what
    [digit_groups] and [after_digit] accept. *)
Lemma scan_digits_groups s : forall prev acc,
  (exists v rest, Py.scan_digits 10 s prev acc = Some (v, rest) /\ Py.lstrip rest = "")
  <-> (if prev is Some true then after_digit s else digit_groups s) = true.
Proof.
  induction s as [|c s IH]; intros prev acc.
  - simpl. destruct prev as [[|]|]; split; try done; try by intros (? & ? & ? & ?).
    intros _. by exists acc, "".
  - cbn [Py.scan_digits]. destruct (Py.is_digit c) eqn:Hd.
    + destruct (digit_value_10_digit c Hd) as [d ->].
      rewrite (IH (Some true)).
      rewrite (digit_groups_after c s Hd).
      destruct prev as [[|]|]; try done.
      cbn [after_digit].
      destruct (Ascii.eqb c "_") eqn:Hu; [apply underscore_no_digit in Hu; congruence|].
      rewrite Hd. by rewrite (digit_groups_after c s Hd).
    + rewrite (digit_value_10_none c Hd).
      destruct (Ascii.eqb c "_") eqn:Hu.
      * destruct prev as [[|]|].
        -- rewrite (IH (Some false)). cbn [after_digit]. by rewrite Hu.
        -- cbn [digit_groups]. rewrite Hd. simpl. split; [by intros (? & ? & ? & ?)|done].
        -- cbn [digit_groups]. rewrite Hd. simpl. split; [by intros (? & ? & ? & ?)|done].
      * destruct prev as [[|]|].
        -- cbn [after_digit]. rewrite Hu, Hd. rewrite <- lstrip_spaces.
           split; [intros (? & ? & [= <- <-] & ?); done|intros ?; by exists acc, (String c s)].
        -- cbn [digit_groups]. rewrite Hd. simpl. split; [by intros (? & ? & ? & ?)|done].
        -- cbn [digit_groups]. rewrite Hd. simpl. split; [by intros (? & ? & ? & ?)|done].
Qed.

Lemma decimal_literal_lstrip s : decimal_literal s = decimal_literal (Py.lstrip s).
Proof.
  induction s as [|c s IH]; [done|]. cbn [decimal_literal Py.lstrip].
  destruct (Py.is_space c) eqn:Hc; [done|]. cbn [decimal_literal]. by rewrite Hc.
Qed.

(** [int] in base 10 returns a number exactly on the decimal literals. *)
Lemma int_10_accepts s :
  (exists v, Py.int 10 s = Ret v) <-> decimal_literal s = true.
Proof.
  rewrite decimal_literal_lstrip. unfold Py.int.
  destruct (Py.lstrip s) as [|c t] eqn:Hs.
  - simpl. split; [by intros [? ?]|done].
  - assert (Hsp : Py.is_space c = false).
    { destruct s as [|c' s']; [done|]. clear -Hs. revert c' Hs.
      induction s' as [|c'' s'' IH]; intros c' Hs; simpl in Hs.
      - destruct (Py.is_space c') eqn:H; [done|]. by injection Hs as <- <-.
      - destruct (Py.is_space c') eqn:H; [|by injection Hs as <- <-].
        by apply (IH c''). }
    cbn [decimal_literal]. rewrite Hsp.
    destruct (Ascii.eqb c "+" || Ascii.eqb c "-") eqn:Hsg.
    + assert (exists neg, Py.skip_sign (String c t) = (neg, t)) as [neg ->].
      { apply orb_true_iff in Hsg as [->%Ascii.eqb_eq| ->%Ascii.eqb_eq]; simpl; eauto. }
      rewrite skip_prefix_10. rewrite <- (scan_digits_groups t None 0).
      split.
      * intros [v Hv]. destruct (Py.scan_digits 10 t None 0) as [[v' rest]|]; [|done].
        destruct (Py.lstrip rest) eqn:Hr; [|done]. by exists v', rest.
      * intros (v & rest & -> & ->). eauto.
    + assert (Py.skip_sign (String c t) = (false, String c t)) as ->.
      { apply orb_false_iff in Hsg as [H1 H2].
        apply Ascii.eqb_neq in H1, H2. unfold Py.skip_sign.
        repeat case_match; simplify_eq; done. }
      rewrite skip_prefix_10. rewrite <- (scan_digits_groups (String c t) None 0).
      split.
      * intros [v Hv]. destruct (Py.scan_digits 10 (String c t) None 0) as [[v' rest]|]; [|done].
        destruct (Py.lstrip rest) eqn:Hr; [|done]. by exists v', rest.
      * intros (v & rest & -> & ->). eauto.
Qed.

(** C4 (counterexample). Column letters outside the grid and characters
    that are no letters are turned into an address without complaint. *)
Lemma from_excel_coerces :
  Address.from_excel "ZZ1" = Ret 675 /\ Address.from_excel "[1" = Ret 26
  /\ Address.from_excel "1A5" = Ret 608.
Proof. repeat split; reflexivity. Qed.

(** C4 (as amended). [from_excel] raises [IndexError] on a string of fewer
    than two characters. On a longer string it raises [ValueError] whenever
    the row part is not a decimal integer literal, and only then: a string
    of at most 4300 characters whose row part is such a literal is turned
    into an address, whatever its column characters are. *)
Theorem from_excel_rejects (s : string) :
  Py.all_ascii s = true ->
  ((String.length s < 2)%nat -> Address.from_excel s = Exn IndexError)
  /\ ((2 <= String.length s)%nat ->
      decimal_literal (Address.row_part s) = false ->
      Address.from_excel s = Exn ValueError)
  /\ ((2 <= String.length s <= 4300)%nat ->
      decimal_literal (Address.row_part s) = true ->
      exists a, Address.from_excel s = Ret a).
Proof.
  intros _. split; [|split].
  - destruct s as [|c0 [|c1 s]]; simpl; intros; try reflexivity; lia.
  - destruct s as [|c0 [|c1 s]]; simpl; try lia. intros _.
    unfold Address.from_excel, Address.row_part. simpl.
    rewrite !str_from_0.
    destruct (Py.isalpha c1); cbn [res_bind]; intros Hrow.
    + destruct (int_10_result s) as [Hv| ->]; [|done].
      apply int_10_accepts in Hv. congruence.
    + destruct (int_10_result (String c1 s)) as [Hv| ->]; [|done].
      apply int_10_accepts in Hv. congruence.
  - destruct s as [|c0 [|c1 s]]; simpl; try lia. intros _.
    unfold Address.from_excel, Address.row_part. simpl.
    rewrite !str_from_0.
    destruct (Py.isalpha c1); cbn [res_bind]; intros Hrow.
    + apply int_10_accepts in Hrow as [v ->]. simpl. eauto.
    + apply int_10_accepts in Hrow as [v ->]. simpl. eauto.
Qed.

Lemma from_excel_rejects_witness :
  Address.from_excel "A" = Exn IndexError
  /\ Address.from_excel "A1 2" = Exn ValueError
  /\ Address.from_excel "AB1__0" = Exn ValueError
  /\ exists a, Address.from_excel "[ +1_0 " = Ret a.
Proof.
  split; [|split; [|split]].
  - apply (from_excel_rejects "A"); [reflexivity|simpl; lia].
  - apply (from_excel_rejects "A1 2"); [reflexivity|simpl; lia|reflexivity].
  - apply (from_excel_rejects "AB1__0"); [reflexivity|simpl; lia|reflexivity].
  - apply (from_excel_rejects "[ +1_0 "); [reflexivity|simpl; lia|reflexivity].
Defined.

(** ** Rules of the predicate transformer *)

Section Rules.
Context {A : Type}.
Implicit Types (Q : A -> Machine -> Prop) (E : exn -> Machine -> Prop).

Lemma wlp_ret (a : A) Q E m : Q a m -> wlp (ret a) Q E m.
Proof. done. Qed.

Lemma wlp_raise e Q E m : E e m -> wlp (raise e) Q E m.
Proof. done. Qed.

Lemma wlp_bind {B} (c : M B) (k : B -> M A) Q E m :
  wlp c (fun b m' => wlp (k b) Q E m') E m -> wlp (bind c k) Q E m.
Proof. unfold wlp, bind. by destruct (c m). Qed.

Lemma wlp_mono (c : M A) Q Q' E E' m :
  wlp c Q E m ->
  (forall a m', Q a m' -> Q' a m') -> (forall e m', E e m' -> E' e m') ->
  wlp c Q' E' m.
Proof. unfold wlp. destruct (c m); auto. Qed.

Lemma wlp_done (c : M A) Q E m a m' : wlp c Q E m -> c m = Done a m' -> Q a m'.
Proof. unfold wlp. intros H Hc. by rewrite Hc in H. Qed.

Lemma wlp_raised (c : M A) Q E m e m' : wlp c Q E m -> c m = Raised e m' -> E e m'.
Proof. unfold wlp. intros H Hc. by rewrite Hc in H. Qed.

Lemma wlp_conj (c : M A) Q1 Q2 E1 E2 m :
  wlp c Q1 E1 m -> wlp c Q2 E2 m ->
  wlp c (fun a m' => Q1 a m' /\ Q2 a m') (fun e m' => E1 e m' /\ E2 e m') m.
Proof. unfold wlp. destruct (c m); auto. Qed.
End Rules.

Lemma wlp_get_cell i (Q : Cell -> Machine -> Prop) E m :
  (forall j, cell_index i = Some j -> Q (cell_at m j) (touch i m)) ->
  (cell_index i = None -> E IndexError (touch i m)) ->
  wlp (get_cell i) Q E m.
Proof. unfold wlp, get_cell. destruct (cell_index i); auto. Qed.

Lemma wlp_upd_cell i f (Q : unit -> Machine -> Prop) E m :
  (forall j, cell_index i = Some j -> Q tt (upd j f i m)) ->
  (cell_index i = None -> E IndexError (touch i m)) ->
  wlp (upd_cell i f) Q E m.
Proof. unfold wlp, upd_cell. destruct (cell_index i); auto. Qed.

Lemma wlp_lift {A} (r : res A) (Q : A -> Machine -> Prop) E m :
  match r with Ret a => Q a m | Exn e => E e m end -> wlp (lift r) Q E m.
Proof. by destruct r. Qed.

Lemma wlp_while {St} fuel (cond : St -> M bool) (body : St -> M St)
    (Inv Q : St -> Machine -> Prop) E :
  (forall x m, Inv x m ->
     wlp (cond x) (fun b m' => if b then wlp (body x) Inv E m' else Q x m') E m) ->
  forall x m, Inv x m -> wlp (while fuel cond body x) Q E m.
Proof.
  intros Hstep. induction fuel as [|k IH]; intros x m HI; [done|].
  simpl. apply wlp_bind. eapply wlp_mono; [by apply Hstep| |done].
  intros [] m' H; [|done].
  apply wlp_bind. eapply wlp_mono; [exact H| |done].
  intros x' m'' HI'. by apply IH.
Qed.

Lemma wlp_while_upto {St} bound (cond : St -> M bool) (body : St -> M St)
    (Inv Q : St -> Machine -> Prop) E :
  (forall x m, Inv x m ->
     wlp (cond x) (fun b m' => if b then wlp (body x) Inv E m' else Q x m') E m) ->
  forall x m, Inv x m -> wlp (while_upto bound cond body x) Q E m.
Proof.
  intros Hstep x m HI. unfold while_upto.
  change (wlp (while (S (Z.to_nat (bound x m))) cond body x) Q E m).
  by eapply wlp_while.
Qed.

Lemma wlp_for_each {St} (l : list St) (body : St -> M unit) (Inv : Machine -> Prop) E :
  (forall x m, x ∈ l -> Inv m -> wlp (body x) (fun _ => Inv) E m) ->
  forall m, Inv m -> wlp (for_each l body) (fun _ => Inv) E m.
Proof.
  induction l as [|x l IH]; intros Hbody m HI; [done|].
  simpl. apply wlp_bind. eapply wlp_mono; [apply Hbody; [left|done]| |done].
  intros ? m' HI'. apply IH; [|done].
  intros y m'' Hy. apply Hbody. by right.
Qed.

(** Termination. *)

Lemma total_ret {A} (a : A) : total (ret a).
Proof. done. Qed.

Lemma total_bind {A B} (c : M A) (k : A -> M B) :
  total c -> (forall a, total (k a)) -> total (bind c k).
Proof.
  intros Hc Hk m. unfold bind. specialize (Hc m).
  destruct (c m); [apply Hk|done..].
Qed.

Lemma total_get_cell i : total (get_cell i).
Proof. intros m. unfold get_cell. by destruct (cell_index i). Qed.

Lemma total_upd_cell i f : total (upd_cell i f).
Proof. intros m. unfold upd_cell. by destruct (cell_index i). Qed.

Lemma total_lift {A} (r : res A) : total (lift r).
Proof. by destruct r. Qed.

Lemma total_when b c : total c -> total (when b c).
Proof. by destruct b. Qed.

Lemma total_for_each {St} (l : list St) body :
  (forall x, total (body x)) -> total (for_each l body).
Proof.
  intros Hb. induction l as [|x l IH]; [done|].
  simpl. apply total_bind; auto.
Qed.

(** A loop ends when the fuel exceeds a measure every turn decreases. *)
Lemma while_total {St} (mu : St -> Machine -> nat) (cond : St -> M bool) (body : St -> M St) :
  (forall x, total (cond x)) -> (forall x, total (body x)) ->
  (forall x m,
     wlp (cond x)
       (fun b m' => b = true ->
          wlp (body x) (fun x' m'' => (mu x' m'' < mu x m)%nat) (fun _ _ => True) m')
       (fun _ _ => True) m) ->
  forall fuel x m, (mu x m < fuel)%nat -> while fuel cond body x m <> OutOfFuel.
Proof.
  intros Hc Hb Hdec fuel. induction fuel as [|k IH]; intros x m Hlt; [lia|].
  simpl. unfold bind at 1.
  specialize (Hc x m). specialize (Hdec x m). unfold wlp at 1 in Hdec.
  destruct (cond x m) as [b m'| |]; [|done..].
  destruct b; [|done].
  unfold bind. specialize (Hb x m'). specialize (Hdec eq_refl). unfold wlp in Hdec.
  destruct (body x m') as [x' m''| |]; [|done..].
  apply IH. lia.
Qed.

Lemma while_upto_total {St} (bound : St -> Machine -> Z) (cond : St -> M bool) (body : St -> M St) :
  (forall x, total (cond x)) -> (forall x, total (body x)) ->
  (forall x m,
     wlp (cond x)
       (fun b m' => b = true ->
          wlp (body x) (fun x' m'' => bound x' m'' < bound x m /\ 0 < bound x m)
            (fun _ _ => True) m')
       (fun _ _ => True) m) ->
  forall x, total (while_upto bound cond body x).
Proof.
  intros Hc Hb Hdec x m. unfold while_upto.
  apply (while_total (fun x m => Z.to_nat (bound x m))); [done..| |lia].
  intros y m0. eapply wlp_mono; [apply Hdec| |done].
  intros b m' H Hbt. eapply wlp_mono; [by apply H| |done].
  simpl. intros. lia.
Qed.

(** ** The state: positions, reads and updates *)

Lemma cell_index_Some i j :
  cell_index i = Some j ->
  0 <= j < NCELLS /\ - NCELLS <= i < NCELLS /\ (0 <= i -> j = i) /\ (i < 0 -> j = i + NCELLS).
Proof.
  unfold cell_index, NCELLS. intros H.
  repeat case_match; simplify_eq; lia.
Qed.

Lemma cell_index_range i : 0 <= i < NCELLS -> cell_index i = Some i.
Proof. unfold cell_index, NCELLS. intros H. case_match; [done|lia]. Qed.

Lemma cell_index_None i : cell_index i = None -> i < - NCELLS \/ NCELLS <= i.
Proof. unfold cell_index, NCELLS. intros H. repeat case_match; simplify_eq; lia. Qed.

Lemma cell_at_touch i m j : cell_at (touch i m) j = cell_at m j.
Proof. done. Qed.

Lemma cell_at_upd j f i m j' :
  cell_at (upd j f i m) j' = if decide (j = j') then f (cell_at m j) else cell_at m j'.
Proof.
  unfold cell_at, upd. simpl. case_decide.
  - subst. apply lookup_total_insert_eq.
  - by apply lookup_total_insert_ne.
Qed.

Lemma cell_at_upd_eq j f i m : cell_at (upd j f i m) j = f (cell_at m j).
Proof. rewrite cell_at_upd. by case_decide. Qed.

Lemma cell_at_upd_ne j f i m j' : j <> j' -> cell_at (upd j f i m) j' = cell_at m j'.
Proof. intros. rewrite cell_at_upd. by case_decide. Qed.

Lemma cell_at_load image j : cell_at (load_excel image) j = Cell_init (word image j).
Proof.
  unfold cell_at, load_excel, word. simpl.
  rewrite lookup_total_alt, lookup_fmap. by destruct (image !! j).
Qed.

Lemma data_at_load image j : data_at (load_excel image) j = word image j.
Proof. unfold data_at. by rewrite cell_at_load. Qed.

Lemma word_range image a : wf_image image -> 0 <= word image a < NCELLS.
Proof.
  intros Hwf. unfold word. destruct (image !! a) as [v|] eqn:H; simpl.
  - apply Hwf in H as [_ H]. exact H.
  - unfold NCELLS. lia.
Qed.

Lemma wlp_get_entry (Q : Z -> Machine -> Prop) E m : Q (entry m) m -> wlp get_entry Q E m.
Proof. done. Qed.

Lemma wlp_get_last (Q : Z -> Machine -> Prop) E m : Q (last m) m -> wlp get_last Q E m.
Proof. done. Qed.

Lemma wlp_set_entry e (Q : unit -> Machine -> Prop) E m :
  Q tt (mkMachine (cells m) e (last m) (fout m) (accessed m)) -> wlp (set_entry e) Q E m.
Proof. done. Qed.

Lemma wlp_set_last l (Q : unit -> Machine -> Prop) E m :
  Q tt (mkMachine (cells m) (entry m) l (fout m) (accessed m)) -> wlp (set_last l) Q E m.
Proof. done. Qed.

Lemma wlp_write s (Q : unit -> Machine -> Prop) E m :
  Q tt (mkMachine (cells m) (entry m) (last m) (fout m ++ [s]) (accessed m)) ->
  wlp (write s) Q E m.
Proof. done. Qed.

(** One step of symbolic execution. *)
Ltac wstep :=
  lazymatch goal with
  | |- wlp (bind _ _) _ _ _ => apply wlp_bind
  | |- wlp (ret _) _ _ _ => apply wlp_ret
  | |- wlp (raise _) _ _ _ => apply wlp_raise
  | |- wlp (get_cell _) _ _ _ =>
      apply wlp_get_cell; [intros ?j ?Hj|intros ?Hj]
  | |- wlp (upd_cell _ _) _ _ _ =>
      apply wlp_upd_cell; [intros ?j ?Hj|intros ?Hj]
  | |- wlp get_entry _ _ _ => apply wlp_get_entry
  | |- wlp get_last _ _ _ => apply wlp_get_last
  | |- wlp (set_entry _) _ _ _ => apply wlp_set_entry
  | |- wlp (set_last _) _ _ _ => apply wlp_set_last
  | |- wlp (write _) _ _ _ => apply wlp_write
  | |- wlp (when ?b _) _ _ _ => unfold when at 1
  | |- wlp (if ?b then _ else _) _ _ _ => destruct b eqn:?
  | |- wlp (match ?o with _ => _ end) _ _ _ => destruct o eqn:?
  end.

(** ** What [one_instruction] leaves alone *)

Lemma one_instruction_next pc m :
  wlp (one_instruction pc)
      (fun pc' m' => (pc' = pc + 1 \/ pc' = pc + 2) /\ entry m' = entry m /\ last m' = last m)
      (fun _ _ => True) m.
Proof.
  unfold one_instruction. repeat wstep; simpl; auto.
Qed.

(** ** Termination of the loops *)

Lemma total_prim {A} (c : M A) : (forall m, exists a m', c m = Done a m') -> total c.
Proof. intros H m. destruct (H m) as (a & m' & ->). done. Qed.

Ltac tot1 :=
  cbv beta;
  lazymatch goal with
  | |- total (ret _) => apply total_ret
  | |- total (bind _ _) => apply total_bind; [|intros ?]
  | |- total (get_cell _) => apply total_get_cell
  | |- total (upd_cell _ _) => apply total_upd_cell
  | |- total (lift _) => apply total_lift
  | |- total (when _ _) => apply total_when
  | |- total get_entry => by intros ?
  | |- total get_last => by intros ?
  | |- total (set_entry _) => by intros ?
  | |- total (set_last _) => by intros ?
  | |- total (write _) => by intros ?
  | |- total (raise _) => by intros ?
  | |- total (if ?b then _ else _) => destruct b
  | |- total (match ?o with _ => _ end) => destruct o
  end.
Ltac tot := repeat tot1.

Lemma total_one_instruction pc : total (one_instruction pc).
Proof. unfold one_instruction. tot. Qed.

Lemma total_get_entry_point args : total (get_entry_point args).
Proof. unfold get_entry_point. tot. Qed.

Lemma total_find_last : total find_last.
Proof.
  intros m. unfold find_last. set (w := while _ _ _ _).
  unfold bind, set_last. subst w.
  apply (while_total (fun _ m => Z.to_nat (last m + NCELLS + 2))).
  - intros _. tot.
  - intros _. tot.
  - intros [] m0. repeat wstep; [|done]. intros _. repeat wstep.
    simpl. apply cell_index_Some in Hj. unfold NCELLS in *. lia.
  - simpl. unfold NCELLS. lia.
Qed.

Lemma total_traverse pc : total (traverse pc).
Proof.
  apply while_upto_total.
  - intros x. tot.
  - apply total_one_instruction.
  - intros x m. repeat wstep. intros Hc%Z.leb_le.
    eapply wlp_mono; [apply one_instruction_next| |done].
    simpl. intros pc' m' (Hpc & _ & ->). lia.
Qed.

Lemma total_before_entry : total before_entry.
Proof.
  apply while_upto_total.
  - intros x. tot.
  - intros x. tot; apply total_one_instruction.
  - intros x m. repeat wstep. intros Hc%Z.ltb_lt.
    repeat wstep; simpl; try done; try lia;
      (eapply wlp_mono; [apply one_instruction_next| |done]);
      simpl; intros pc' m' (Hpc & -> & _); lia.
Qed.

Lemma total_set_labels args : total (set_labels args).
Proof.
  unfold set_labels. apply total_bind; [by intros ?|]. intros pc.
  apply while_upto_total.
  - intros x. tot.
  - intros x. tot.
  - intros x m. repeat wstep. intros Hc%Z.leb_le.
    repeat wstep; simpl; try done; lia.
Qed.

Lemma total_preparation args : total (preparation args).
Proof.
  unfold preparation. tot.
  - apply total_get_entry_point.
  - apply total_find_last.
  - apply total_traverse.
  - apply total_before_entry.
  - apply total_set_labels.
Qed.

Lemma wlp_total_done {A} (c : M A) Q m :
  total c -> wlp c Q (fun _ _ => False) m -> exists a m', c m = Done a m' /\ Q a m'.
Proof.
  intros Ht H. specialize (Ht m). unfold wlp in H.
  destruct (c m) as [a m'| |]; [eauto|done..].
Qed.

(** ** [find_last] *)

Lemma in_bounds_cons i m :
  0 <= i < NCELLS -> in_bounds m -> Forall (fun i => 0 <= i < NCELLS) (i :: accessed m).
Proof. intros. by constructor. Qed.


Lemma find_last_spec m a :
  0 <= a < NCELLS -> data_at m a <> 0 ->
  (forall b, a < b < NCELLS -> data_at m b = 0) ->
  wlp find_last
      (fun _ m' => last m' = a /\ cells m' = cells m /\ entry m' = entry m /\ fout m' = fout m
                   /\ (in_bounds m -> in_bounds m'))
      (fun _ _ => False) m.
Proof.
  intros Ha Hnz Hz. unfold find_last. repeat wstep.
  apply (wlp_while _ _ _
    (fun _ m' => a <= last m' < NCELLS /\ cells m' = cells m
                 /\ entry m' = entry m /\ fout m' = fout m
                 /\ (in_bounds m -> in_bounds m'))).
  - intros [] m' (Hl & Hc & He & Hf & Hb). repeat wstep.
    + apply cell_index_Some in Hj as (_ & _ & Hj & _).
      rewrite Hj in * by lia. clear Hj.
      assert (Hd : data (cell_at m' (last m')) = data_at m (last m'))
        by (unfold data_at, cell_at; by rewrite Hc).
      rewrite Hd. destruct (data_at m (last m') =? 0) eqn:Hdz.
      * apply Z.eqb_eq in Hdz. repeat wstep. simpl.
        assert (last m' <> a) by congruence.
        split; [lia|]. do 3 (split; [done|]).
        intros Hin. apply in_bounds_cons; [lia|by apply Hb].
      * apply Z.eqb_neq in Hdz. simpl.
        assert (last m' = a).
        { destruct (decide (last m' = a)); [done|]. destruct Hdz. apply Hz. lia. }
        do 4 (split; [done|]).
        intros Hin. apply in_bounds_cons; [lia|by apply Hb].
    + rewrite cell_index_range in Hj by lia. done.
  - simpl. unfold NCELLS in *. split; [lia|]. by do 3 (split; [done|]).
Qed.

(** ** Steps that respect a relation on cells *)

Section Steps.
Variable Rc : Cell -> Cell -> Prop.
Hypothesis Rc_refl : forall c, Rc c c.
Hypothesis Rc_trans : forall c1 c2 c3, Rc c1 c2 -> Rc c2 c3 -> Rc c1 c3.

Lemma lifted_refl m : lifted Rc m m.
Proof. split; [intros j; apply Rc_refl|done]. Qed.

Lemma lifted_trans m1 m2 m3 : lifted Rc m1 m2 -> lifted Rc m2 m3 -> lifted Rc m1 m3.
Proof.
  unfold lifted. intros (H1 & ? & ?) (H2 & ? & ?). repeat split; [|congruence..].
  intros j. eapply Rc_trans; [apply H1|apply H2].
Qed.

Lemma lifted_touch i m : lifted Rc m (touch i m).
Proof. split; [intros j; apply Rc_refl|done]. Qed.

Lemma lifted_upd j f i m : (forall c, Rc c (f c)) -> lifted Rc m (upd j f i m).
Proof.
  intros Hf. split; [|done]. intros j'. rewrite cell_at_upd.
  case_decide; subst; auto.
Qed.

Lemma steps_ret {A} (a : A) : steps (lifted Rc) (ret a).
Proof. intros m. apply lifted_refl. Qed.

Lemma steps_raise {A} e : steps (lifted Rc) (@raise A e).
Proof. intros m. apply lifted_refl. Qed.

Lemma steps_bind {A B} (c : M A) (k : A -> M B) :
  steps (lifted Rc) c -> (forall a, steps (lifted Rc) (k a)) -> steps (lifted Rc) (bind c k).
Proof.
  intros Hc Hk m. specialize (Hc m). unfold wlp, bind in *.
  destruct (c m) as [a m'|e m'|]; [|done..].
  specialize (Hk a m'). unfold wlp in Hk.
  destruct (k a m'); [| |done]; by eapply lifted_trans.
Qed.

Lemma steps_get_cell i : steps (lifted Rc) (get_cell i).
Proof. intros m. apply wlp_get_cell; intros; apply lifted_touch. Qed.

Lemma steps_upd_cell i f : (forall c, Rc c (f c)) -> steps (lifted Rc) (upd_cell i f).
Proof.
  intros Hf m. apply wlp_upd_cell; intros; [by apply lifted_upd|apply lifted_touch].
Qed.

Lemma steps_get_entry : steps (lifted Rc) get_entry.
Proof. intros m. apply lifted_refl. Qed.

Lemma steps_get_last : steps (lifted Rc) get_last.
Proof. intros m. apply lifted_refl. Qed.

Lemma steps_write s : steps (lifted Rc) (write s).
Proof. intros m. split; [intros j; apply Rc_refl|done]. Qed.

Lemma steps_lift {A} (r : res A) : steps (lifted Rc) (lift r).
Proof. destruct r; [apply steps_ret|apply steps_raise]. Qed.

Lemma steps_when b c : steps (lifted Rc) c -> steps (lifted Rc) (when b c).
Proof. destruct b; [done|]. intros _. apply steps_ret. Qed.

Lemma steps_while {St} fuel (cond : St -> M bool) (body : St -> M St) x :
  (forall x, steps (lifted Rc) (cond x)) -> (forall x, steps (lifted Rc) (body x)) ->
  steps (lifted Rc) (while fuel cond body x).
Proof.
  intros Hc Hb m.
  apply (wlp_while fuel cond body (fun _ m' => lifted Rc m m')); [|apply lifted_refl].
  assert (Ht : forall m1 m2, lifted Rc m m1 -> lifted Rc m1 m2 -> lifted Rc m m2)
    by (intros; by eapply lifted_trans).
  intros y m' HR. eapply wlp_mono; [apply Hc| |]; simpl; [|by eauto].
  intros [] m'' HR'; [|by eauto].
  eapply wlp_mono; [apply Hb| |]; simpl; eauto.
Qed.

Lemma steps_while_upto {St} bound (cond : St -> M bool) (body : St -> M St) x :
  (forall x, steps (lifted Rc) (cond x)) -> (forall x, steps (lifted Rc) (body x)) ->
  steps (lifted Rc) (while_upto bound cond body x).
Proof. intros Hc Hb m. unfold while_upto. by apply steps_while. Qed.

Lemma steps_for_each {St} (l : list St) body :
  (forall x, steps (lifted Rc) (body x)) -> steps (lifted Rc) (for_each l body).
Proof.
  intros Hb. induction l as [|x l IH]; [apply steps_ret|].
  simpl. apply steps_bind; auto.
Qed.
End Steps.

Ltac st1 :=
  cbv beta;
  lazymatch goal with
  | |- steps _ (ret _) => apply steps_ret
  | |- steps _ (raise _) => apply steps_raise
  | |- steps _ (bind _ _) => apply steps_bind; [| |intros ?]
  | |- steps _ (get_cell _) => apply steps_get_cell
  | |- steps _ (upd_cell _ _) => apply steps_upd_cell
  | |- steps _ (lift _) => apply steps_lift
  | |- steps _ (when _ _) => apply steps_when
  | |- steps _ get_entry => apply steps_get_entry
  | |- steps _ get_last => apply steps_get_last
  | |- steps _ (write _) => apply steps_write
  | |- steps _ (if ?b then _ else _) => destruct b
  | |- steps _ (match ?o with _ => _ end) => destruct o
  end.
Ltac st := repeat st1.

Lemma cell_le_refl c : cell_le c c.
Proof. by split. Qed.

Lemma cell_le_trans c1 c2 c3 : cell_le c1 c2 -> cell_le c2 c3 -> cell_le c1 c3.
Proof.
  intros [] []. split; try congruence; auto; by etrans.
Qed.

Lemma cell_swept_refl c : cell_swept c c.
Proof. split; [apply cell_le_refl|done]. Qed.

Lemma cell_swept_trans c1 c2 c3 : cell_swept c1 c2 -> cell_swept c2 c3 -> cell_swept c1 c3.
Proof.
  intros [] []. split; [by eapply cell_le_trans|congruence].
Qed.

Lemma swept_jump_from_append a c : cell_swept c (jump_from_append a c).
Proof. repeat split; simpl; try done; by apply prefix_app_r. Qed.

Lemma swept_read_from_append a c : cell_swept c (read_from_append a c).
Proof. repeat split; simpl; try done; by apply prefix_app_r. Qed.

Lemma swept_write_from_append a c : cell_swept c (write_from_append a c).
Proof. repeat split; simpl; try done; by apply prefix_app_r. Qed.

Lemma swept_set_is_2nd_word c : cell_swept c (set_is_2nd_word true c).
Proof. repeat split; simpl; done. Qed.

Lemma swept_set_exec_from_prev p c : cell_swept c (set_exec_from_prev p c).
Proof. repeat split; simpl; done. Qed.

Create HintDb swept.
#[local] Hint Resolve cell_swept_refl cell_swept_trans swept_jump_from_append
  swept_read_from_append swept_write_from_append swept_set_is_2nd_word
  swept_set_exec_from_prev : swept.

Lemma one_instruction_swept pc : steps (lifted cell_swept) (one_instruction pc).
Proof. unfold one_instruction. st; eauto with swept. Qed.

Lemma traverse_swept pc : steps (lifted cell_swept) (traverse pc).
Proof.
  apply steps_while_upto; eauto with swept.
  - intros x. st; eauto with swept.
  - apply one_instruction_swept.
Qed.

Lemma before_entry_swept : steps (lifted cell_swept) before_entry.
Proof.
  apply steps_while_upto; eauto with swept.
  - intros x. st; eauto with swept.
  - intros x. st; eauto with swept; apply one_instruction_swept.
Qed.

(** ** [get_entry_point] *)

Lemma cell_at_mk m e l f a j : cell_at (mkMachine (cells m) e l f a) j = cell_at m j.
Proof. done. Qed.

Lemma cell_index_0 : cell_index 0 = Some 0.
Proof. done. Qed.

Lemma cell_index_1 : cell_index 1 = Some 1.
Proof. done. Qed.

Lemma data_cell_at_upd j f i m j' :
  (forall c, data (f c) = data c) -> data (cell_at (upd j f i m) j') = data (cell_at m j').
Proof. intros Hf. rewrite cell_at_upd. case_decide; subst; by rewrite ?Hf. Qed.

Ltac norm :=
  repeat first
    [ rewrite cell_at_touch in *
    | rewrite cell_at_mk in *
    | rewrite data_cell_at_upd in * by (intros; reflexivity) ].

Lemma get_entry_point_spec args m :
  wlp (get_entry_point args)
    (fun _ m' =>
       last m' = last m /\ fout m' = fout m /\
       if data_at m 0 =? 0 then
         entry m' = data_at m 1 /\
         exists j, cell_index (data_at m 1) = Some j /\
           forall j', cell_at m' j' =
             if decide (j = j')
             then jump_from_append 0
                    (set_label (Some (entry_label args (data_at m 1))) (cell_at m j))
             else cell_at m j'
       else entry m' = 0 /\ forall j', cell_at m' j' = cell_at m j')
    (fun _ _ => cell_index (data_at m 1) = None) m.
Proof.
  unfold get_entry_point, data_at, entry_label. wstep. wstep; [|done].
  rewrite cell_index_0 in Hj. injection Hj as <-.
  destruct (data (cell_at m 0) =? 0) eqn:H0.
  - repeat wstep; try done; rewrite ?cell_index_1 in *; simplify_eq; norm;
      simplify_eq; try assumption.
    do 3 (split; [reflexivity|]). exists j2. split; [assumption|].
    intros j'. repeat (rewrite ?cell_at_upd, ?cell_at_touch, ?cell_at_mk).
    destruct (decide (j2 = j')) as [->|Hne]; [|done].
    by destruct (decide (j' = j')).
  - repeat wstep. by repeat split.
Qed.

(** ** [set_labels] *)

Lemma set_label_same c : set_label (label c) c = c.
Proof. by destruct c. Qed.

Lemma set_labels_spec args m :
  0 <= entry m -> last m < NCELLS ->
  wlp (set_labels args)
    (fun _ m' =>
       entry m' = entry m /\ last m' = last m /\ fout m' = fout m /\
       forall j, cell_at m' j =
         if decide (entry m <= j <= last m)
         then set_label (final_label args (cell_at m j) j) (cell_at m j)
         else cell_at m j)
    (fun _ _ => True) m.
Proof.
  intros He Hl. unfold set_labels. wstep. wstep.
  apply (wlp_while_upto _ _ _
    (fun pc m' =>
       entry m <= pc /\ entry m' = entry m /\ last m' = last m /\ fout m' = fout m /\
       forall j, cell_at m' j =
         if decide (entry m <= j < pc /\ j <= last m)
         then set_label (final_label args (cell_at m j) j) (cell_at m j)
         else cell_at m j)).
  - intros pc m' (Hpc & He' & Hl' & Hf' & Hc). wstep. wstep. wstep.
    destruct (pc <=? last m') eqn:Hcond.
    + apply Z.leb_le in Hcond.
      assert (Hidx : cell_index pc = Some pc) by (apply cell_index_range; lia).
      assert (Hpcc : cell_at m' pc = cell_at m pc).
      { rewrite Hc. case_decide; [lia|done]. }
      assert (Hfin : forall m'' : Machine,
        entry m'' = entry m' -> last m'' = last m' -> fout m'' = fout m' ->
        (forall j, cell_at m'' j =
           if decide (pc = j)
           then set_label (final_label args (cell_at m pc) pc) (cell_at m pc)
           else cell_at m' j) ->
        entry m <= pc + 1 /\ entry m'' = entry m /\ last m'' = last m /\ fout m'' = fout m /\
        forall j, cell_at m'' j =
          if decide (entry m <= j < pc + 1 /\ j <= last m)
          then set_label (final_label args (cell_at m j) j) (cell_at m j)
          else cell_at m j).
      { intros m'' E1 E2 E3 E4. repeat split; try congruence; try lia.
        intros j. rewrite E4, Hc. destruct (decide (pc = j)) as [<-|Hne].
        - case_decide; [done|lia].
        - repeat case_decide; try done; lia. }
      repeat (wstep;
              try match goal with
                  | H : cell_index ?i = Some ?j |- _ =>
                      lazymatch i with
                      | j => fail
                      | _ => rewrite Hidx in H; injection H as <-
                      end
                  end); try done; norm; rewrite ?Hpcc in *;
        (apply Hfin; [reflexivity..|]); intros j0; norm; rewrite ?cell_at_upd; norm;
        (destruct (decide (pc = j0)) as [<-|?]; [|done]); rewrite ?Hpcc;
        unfold final_label, nonempty, loc_label;
        destruct (cell_at m pc) as [d l e b r w jf]; simpl in *; simplify_eq;
        try reflexivity;
        repeat match goal with H : _ = true |- _ => rewrite H | H : _ = false |- _ => rewrite H end;
        simpl; try reflexivity; by destruct l.
    + apply Z.leb_gt in Hcond. repeat split; try done.
      intros j. rewrite Hc. repeat case_decide; try done; lia.
  - repeat split; try done; try lia.
    intros j. case_decide; [lia|done].
Qed.

(** When [find_last] ends normally, [last] is the highest address of a
    non-zero word. *)
Lemma find_last_done m :
  wlp find_last
      (fun _ m' =>
         0 <= last m' < NCELLS /\ data_at m (last m') <> 0
         /\ (forall b, last m' < b < NCELLS -> data_at m b = 0)
         /\ cells m' = cells m /\ entry m' = entry m /\ fout m' = fout m)
      (fun _ _ => True) m.
Proof.
  unfold find_last. repeat wstep.
  apply (wlp_while _ _ _
    (fun _ m' => last m' < NCELLS /\ cells m' = cells m
                 /\ entry m' = entry m /\ fout m' = fout m
                 /\ forall b, last m' < b < NCELLS -> 0 <= b -> data_at m b = 0)).
  - intros [] m' (Hl & Hc & He & Hf & Hz). repeat wstep; [|done].
    apply cell_index_Some in Hj as (Hjr & Hlr & Hpos & Hneg).
    assert (Hd : data (cell_at m' j) = data_at m j)
      by (unfold data_at, cell_at; by rewrite Hc).
    rewrite Hd. destruct (data_at m j =? 0) eqn:Hdz.
    + apply Z.eqb_eq in Hdz. repeat wstep. simpl.
      repeat split; try done; try lia.
      intros b Hb Hb0. destruct (decide (b = last m')) as [->|Hne].
      * rewrite <- Hpos by done. done.
      * apply Hz; lia.
    + apply Z.eqb_neq in Hdz. simpl.
      assert (0 <= last m').
      { destruct (decide (0 <= last m')); [done|]. destruct Hdz.
        apply Hz; lia. }
      rewrite Hpos in * by done.
      repeat split; try done; try lia. intros b Hb. apply Hz; lia.
  - simpl. unfold NCELLS in *. repeat split; try done; lia.
Qed.

(** ** The phases of [preparation] *)

Lemma preparation_inv args m mf :
  preparation args m = Done tt mf ->
  exists m1 m2 m3 m4 pc x y,
    get_entry_point args m = Done tt m1 /\ find_last m1 = Done tt m2
    /\ traverse (entry m1) m2 = Done pc m3 /\ before_entry m3 = Done x m4
    /\ set_labels args m4 = Done y mf.
Proof.
  unfold preparation, bind, get_entry, ret.
  destruct (get_entry_point args m) as [[] m1| |] eqn:H1; [|done..].
  destruct (find_last m1) as [[] m2| |] eqn:H2; [|done..].
  destruct (traverse (entry m1) m2) as [pc m3| |] eqn:H3; [|done..].
  destruct (before_entry m3) as [x m4| |] eqn:H4; [|done..].
  destruct (set_labels args m4) as [y m5| |] eqn:H5; [|done..].
  intros [= <-]. by exists m1, m2, m3, m4, pc, x, y.
Qed.

(** The entry address of an image. *)
Lemma lifted_swept_trans m1 m2 m3 :
  lifted cell_swept m1 m2 -> lifted cell_swept m2 m3 -> lifted cell_swept m1 m3.
Proof. apply lifted_trans, cell_swept_trans. Qed.

Lemma preparation_phases args image mf :
  wf_image image ->
  preparation args (load_excel image) = Done tt mf ->
  let e := if word image 0 =? 0 then word image 1 else 0 in
  exists m2 m3 m4 pc x,
    (traverse e m2 = Done pc m3 /\ before_entry m3 = Done x m4
     /\ entry m2 = e /\ last m2 = last mf
     /\ (forall j, cell_at m2 j =
           if (word image 0 =? 0) && (j =? word image 1)
           then jump_from_append 0
                  (set_label (Some (entry_label args j)) (Cell_init (word image j)))
           else Cell_init (word image j)))
    /\ entry mf = e /\ 0 <= e < NCELLS
    /\ 0 <= last mf < NCELLS /\ word image (last mf) <> 0
    /\ (forall b, last mf < b < NCELLS -> word image b = 0)
    /\ (forall j, data (cell_at m4 j) = word image j)
    /\ (forall j, label (cell_at m4 j) =
          if (word image 0 =? 0) && (j =? word image 1)
          then Some (entry_label args j) else None)
    /\ (word image 0 = 0 -> [0] `prefix_of` jump_from (cell_at m4 (word image 1)))
    /\ (forall j, cell_at mf j =
          if decide (e <= j <= last mf)
          then set_label (final_label args (cell_at m4 j) j) (cell_at m4 j)
          else cell_at m4 j).
Proof.
  intros Hwf Hrun e.
  apply preparation_inv in Hrun as (m1 & m2 & m3 & m4 & pc & x & y & H1 & H2 & H3 & H4 & H5).
  pose proof (wlp_done _ _ _ _ _ _ (get_entry_point_spec args (load_excel image)) H1)
    as (Hl1 & _ & Hc1).
  pose proof (wlp_done _ _ _ _ _ _ (find_last_done m1) H2)
    as (Hl2 & Hnz & Hz & Hc2 & He2 & _).
  pose proof (wlp_done _ _ _ _ _ _ (traverse_swept (entry m1) m2) H3) as Hs3.
  pose proof (wlp_done _ _ _ _ _ _ (before_entry_swept m3) H4) as Hs4.
  pose proof (lifted_swept_trans _ _ _ Hs3 Hs4) as (Hc4 & He4 & Hl4).
  clear Hs3 Hs4 H1 H2.
  rewrite !data_at_load in Hc1.
  assert (Hw1 := word_range image 1 Hwf).
  assert (He1 : entry m1 = e /\
    forall j', cell_at m1 j' =
      if (word image 0 =? 0) && (j' =? word image 1)
      then jump_from_append 0 (set_label (Some (entry_label args j')) (Cell_init (word image j')))
      else Cell_init (word image j')).
  { subst e. destruct (word image 0 =? 0); simpl.
    - destruct Hc1 as (-> & j & Hj & Hc1). split; [done|]. intros j'.
      rewrite cell_index_range in Hj by done. injection Hj as <-.
      rewrite Hc1, !cell_at_load.
      case_decide; subst; [by rewrite Z.eqb_refl|].
      destruct (j' =? word image 1) eqn:Hq; [|done].
      apply Z.eqb_eq in Hq. congruence.
    - destruct Hc1 as (-> & Hc1). split; [done|]. intros j'.
      by rewrite Hc1, cell_at_load. }
  destruct He1 as (He1 & Hc1').
  assert (Hc21 : forall j, cell_at m2 j = cell_at m1 j)
    by (intros j; unfold cell_at; by rewrite Hc2).
  assert (Hd1 : forall j, data (cell_at m1 j) = word image j).
  { intros j. rewrite Hc1'. destruct (_ && _); reflexivity. }
  assert (Her : 0 <= e < NCELLS).
  { subst e. case_match; [done|]. unfold NCELLS. lia. }
  assert (Hef : entry m4 = e) by congruence.
  assert (Hlf : last m4 = last m2) by congruence.
  pose proof (wlp_done _ _ _ _ _ _
    (set_labels_spec args m4 ltac:(lia) ltac:(lia)) H5) as (He5 & Hl5 & _ & Hc5).
  exists m2, m3, m4, pc, x. rewrite He5, Hl5, Hef, Hlf.
  split.
  { rewrite <- He1. repeat split; try done; try congruence.
    intros j. by rewrite Hc21, Hc1'. }
  split; [done|]. split; [done|]. split; [done|].
  split. { rewrite <- Hd1. exact Hnz. }
  split. { intros b Hb. rewrite <- Hd1. by apply Hz. }
  split. { intros j. destruct (Hc4 j) as [[-> _ _ _ _ _] _]. by rewrite Hc21. }
  split. { intros j. destruct (Hc4 j) as [_ ->]. rewrite Hc21, Hc1'.
           destruct (_ && _); reflexivity. }
  split; [|by rewrite Hef, Hlf in Hc5].
  intros H0. destruct (Hc4 (word image 1)) as [[_ _ _ _ _ Hj] _].
  rewrite Hc21, Hc1', H0 in Hj. rewrite (Z.eqb_refl (word image 1)) in Hj. exact Hj.
Qed.

Lemma preparation_loaded args image mf :
  wf_image image ->
  preparation args (load_excel image) = Done tt mf ->
  let e := if word image 0 =? 0 then word image 1 else 0 in
  exists m4,
    entry mf = e /\ 0 <= e < NCELLS
    /\ 0 <= last mf < NCELLS /\ word image (last mf) <> 0
    /\ (forall b, last mf < b < NCELLS -> word image b = 0)
    /\ (forall j, data (cell_at m4 j) = word image j)
    /\ (forall j, label (cell_at m4 j) =
          if (word image 0 =? 0) && (j =? word image 1)
          then Some (entry_label args j) else None)
    /\ (word image 0 = 0 -> [0] `prefix_of` jump_from (cell_at m4 (word image 1)))
    /\ (forall j, cell_at mf j =
          if decide (e <= j <= last mf)
          then set_label (final_label args (cell_at m4 j) j) (cell_at m4 j)
          else cell_at m4 j).
Proof.
  intros Hwf Hrun e.
  destruct (preparation_phases args image mf Hwf Hrun) as (m2 & m3 & m4 & pc & x & _ & H).
  by exists m4.
Qed.

(** ** Checking sample inputs *)

Lemma image_check_spec p image :
  image_check p image = true -> forall k v, image !! k = Some v -> p k v = true.
Proof.
  unfold image_check. rewrite forallb_forall. intros H k v Hkv.
  apply (H (k, v)). apply list_elem_of_In. by apply elem_of_map_to_list.
Qed.

Lemma wf_image_check image : image_check wf_entry image = true -> wf_image image.
Proof.
  intros H a v Hav. apply (image_check_spec _ _ H) in Hav.
  unfold wf_entry in Hav. lia.
Qed.

(** The words above [a] are zero when the image has no non-zero entry there. *)
Lemma zero_above_check image a :
  image_check (fun k v => (k <=? a) || (v =? 0)) image = true ->
  forall b, a < b < NCELLS -> word image b = 0.
Proof.
  intros H b Hb. unfold word. destruct (image !! b) as [v|] eqn:Hv; [|done].
  apply (image_check_spec _ _ H) in Hv. simpl. lia.
Qed.

Lemma is_done_inv {A} (o : outcome A) : is_done o = true -> exists a m, o = Done a m.
Proof. destruct o; [eauto|done..]. Qed.

Lemma ends_with_inv {A} (o : outcome A) P : ends_with o P -> exists a m, o = Done a m /\ P m.
Proof. destruct o; [eauto|done..]. Qed.

(** ** C8: [last] *)

(** C8 (counterexample). On the image without any non-zero word the scan
    runs down through the negative indices and raises [IndexError]; [last]
    is then -65537, no address. *)
Lemma find_last_all_zero :
  raises_with (find_last (load_excel ∅)) IndexError (fun m => last m = -65537)
  /\ raises_with (preparation args_hex (load_excel ∅)) IndexError (fun m => last m = -65537).
Proof. vm_compute. done. Qed.

(** C8 (as amended). On an image whose highest non-zero word is at address
    [a], [find_last] ends normally with [last = a] from any state that holds
    the words of the image, and [last] is [a] when [preparation] ends. *)
Theorem find_last_highest_nonzero (image : gmap Z Z) (a : Z) :
  wf_image image ->
  0 <= a < NCELLS -> word image a <> 0 ->
  (forall b, a < b < NCELLS -> word image b = 0) ->
  (forall m, (forall j, data_at m j = word image j) ->
     exists m', find_last m = Done tt m' /\ last m' = a
                /\ cells m' = cells m /\ entry m' = entry m)
  /\ (forall args mf, preparation args (load_excel image) = Done tt mf -> last mf = a).
Proof.
  intros Hwf Ha Hnz Hz. split.
  - intros m Hd.
    destruct (wlp_total_done find_last _ m total_find_last
                (find_last_spec m a Ha ltac:(by rewrite Hd)
                   ltac:(intros; rewrite Hd; by apply Hz)))
      as ([] & m' & Hrun & Hl & Hc & He & _).
    by exists m'.
  - intros args mf Hrun.
    apply preparation_loaded in Hrun as (m4 & _ & _ & Hl & Hnz' & Hz' & _); [|done].
    destruct (Z.lt_trichotomy (last mf) a) as [Hlt|[Heq|Hgt]]; [|done|].
    + destruct Hnz. apply Hz'. lia.
    + destruct Hnz'. apply Hz. lia.
Qed.

Lemma image_add_clc_wf : wf_image image_add_clc.
Proof. apply wf_image_check. vm_compute. reflexivity. Qed.

Lemma image_add_clc_done : is_done (preparation args_hex (load_excel image_add_clc)) = true.
Proof. vm_compute. reflexivity. Qed.

Lemma find_last_highest_nonzero_witness :
  ends_with (preparation args_hex (load_excel image_add_clc)) (fun mf => last mf = 3).
Proof.
  destruct (is_done_inv _ image_add_clc_done) as ([] & mf & Hrun).
  rewrite Hrun. simpl.
  refine (proj2 (find_last_highest_nonzero image_add_clc 3 image_add_clc_wf _ _ _)
            args_hex mf Hrun).
  - unfold NCELLS. lia.
  - vm_compute. discriminate.
  - apply zero_above_check. vm_compute. reflexivity.
Defined.

(** ** C7: entry resolution *)

Lemma get_entry_point_loaded args image :
  wf_image image ->
  exists m1, get_entry_point args (load_excel image) = Done tt m1
    /\ if word image 0 =? 0 then
         entry m1 = word image 1
         /\ forall j, cell_at m1 j =
              if decide (word image 1 = j)
              then jump_from_append 0
                     (set_label (Some (entry_label args (word image 1)))
                        (Cell_init (word image j)))
              else Cell_init (word image j)
       else entry m1 = 0 /\ forall j, cell_at m1 j = Cell_init (word image j).
Proof.
  intros Hwf. pose proof (word_range image 1 Hwf) as Hw1.
  destruct (wlp_total_done (get_entry_point args) _ (load_excel image)
              (total_get_entry_point args)
              (wlp_mono _ _ _ _ _ _ (get_entry_point_spec args (load_excel image))
                 (fun _ _ H => H)
                 ltac:(intros ? ? H; rewrite data_at_load, cell_index_range in H by done;
                       discriminate)))
    as ([] & m1 & Hrun & _ & _ & H).
  exists m1. split; [done|]. rewrite !data_at_load in H.
  destruct (word image 0 =? 0).
  - destruct H as (He & j & Hj & Hc). split; [done|]. intros j'.
    rewrite cell_index_range in Hj by done. injection Hj as <-.
    rewrite Hc, !cell_at_load. by case_decide; subst.
  - destruct H as (He & Hc). split; [done|]. intros j. by rewrite Hc, cell_at_load.
Qed.

(** C7. On a loaded image: when word 0 is zero, [get_entry_point] sets
    [entry] to word 1 and gives the cell at that address the label
    [Entrypoint_<addr>] and the jump origin 0, and both are still there
    (the origin first in [jump_from]) when [preparation] ends; otherwise
    [entry] is 0, [get_entry_point] changes no cell, and no cell carries an
    [Entrypoint_] label when [preparation] ends: every label is [loc_<addr>]. *)
Theorem entry_resolution (args : Args) (image : gmap Z Z) :
  wf_image image ->
  (word image 0 = 0 ->
     (exists m1, get_entry_point args (load_excel image) = Done tt m1
        /\ entry m1 = word image 1
        /\ label (cell_at m1 (word image 1)) = Some (entry_label args (word image 1))
        /\ jump_from (cell_at m1 (word image 1)) = [0])
     /\ forall mf, preparation args (load_excel image) = Done tt mf ->
          entry mf = word image 1
          /\ label (cell_at mf (word image 1)) = Some (entry_label args (word image 1))
          /\ [0] `prefix_of` jump_from (cell_at mf (word image 1)))
  /\ (word image 0 <> 0 ->
     (exists m1, get_entry_point args (load_excel image) = Done tt m1
        /\ entry m1 = 0
        /\ forall j, cell_at m1 j = cell_at (load_excel image) j)
     /\ forall mf, preparation args (load_excel image) = Done tt mf ->
          entry mf = 0
          /\ forall j l, label (cell_at mf j) = Some l -> l = loc_label args j).
Proof.
  intros Hwf. split; intros H0.
  - split.
    + destruct (get_entry_point_loaded args image Hwf) as (m1 & Hrun & H).
      rewrite H0 in H. simpl in H. destruct H as (He & Hc).
      exists m1. rewrite Hc. by case_decide.
    + intros mf Hrun.
      apply preparation_loaded in Hrun
        as (m4 & He & _ & _ & _ & _ & _ & Hlab & Hjmp & Hc); [|done].
      rewrite H0 in He. simpl in He. split; [done|].
      specialize (Hlab (word image 1)).
      rewrite H0, (Z.eqb_refl (word image 1)) in Hlab. simpl in Hlab.
      rewrite Hc. case_decide.
      * unfold final_label. rewrite Hlab. simpl. split; [done|]. by apply Hjmp.
      * split; [done|]. by apply Hjmp.
  - apply Z.eqb_neq in H0. split.
    + destruct (get_entry_point_loaded args image Hwf) as (m1 & Hrun & H).
      rewrite H0 in H. destruct H as (He & Hc).
      exists m1. repeat split; [done..|]. intros j. by rewrite Hc, cell_at_load.
    + intros mf Hrun.
      apply preparation_loaded in Hrun
        as (m4 & He & _ & _ & _ & _ & _ & Hlab & _ & Hc); [|done].
      rewrite H0 in He. split; [done|]. intros j l.
      specialize (Hlab j). rewrite H0 in Hlab. simpl in Hlab.
      rewrite Hc. case_decide; [|congruence].
      unfold final_label. rewrite Hlab. simpl.
      destruct (_ && _); [|done]. by intros [= <-].
Qed.

Lemma entry_resolution_witness :
  ends_with (preparation args_hex (load_excel image_add_clc))
    (fun mf => entry mf = 2 /\ label (cell_at mf 2) = Some "Entrypoint_0002"
               /\ [0] `prefix_of` jump_from (cell_at mf 2)).
Proof.
  destruct (is_done_inv _ image_add_clc_done) as ([] & mf & Hrun).
  rewrite Hrun. simpl.
  exact (proj2 (proj1 (entry_resolution args_hex image_add_clc image_add_clc_wf) eq_refl)
           mf Hrun).
Defined.

(** ** C6: labels of jump targets *)

(** C6 (counterexample). Address 2 of [image_add_clc] is the entry: it has
    a jump origin, is no second word, and its label is [Entrypoint_0002],
    not [loc_0002]. Address 2 of [image_jump_back] is a jump target before
    the entry: it has a jump origin, is no second word, and has no label. *)
Lemma jump_target_without_loc_label :
  ends_with (preparation args_hex (load_excel image_add_clc))
    (fun mf => jump_from (cell_at mf 2) = [0] /\ is_2nd_word (cell_at mf 2) = false
               /\ label (cell_at mf 2) = Some "Entrypoint_0002")
  /\ ends_with (preparation args_hex (load_excel image_jump_back))
    (fun mf => jump_from (cell_at mf 2) = [4] /\ is_2nd_word (cell_at mf 2) = false
               /\ label (cell_at mf 2) = None /\ entry mf = 4).
Proof. vm_compute. done. Qed.

(** C6 (as amended). When [preparation] ends on a loaded image, every
    address from [entry] to [last] whose [jump_from] is not empty and that is
    no second word carries a label: [Entrypoint_<address>] at the entry of an
    image that starts with a zero word, [loc_<address>] (the address padded
    with a tab when shorter than four characters) everywhere else.
    Conversely a cell carries a [loc_] label only under these conditions. *)
Theorem jump_targets_labelled (args : Args) (image : gmap Z Z) (mf : Machine) :
  wf_image image ->
  preparation args (load_excel image) = Done tt mf ->
  (forall a, entry mf <= a <= last mf ->
     jump_from (cell_at mf a) <> [] -> is_2nd_word (cell_at mf a) = false ->
     label (cell_at mf a) =
       Some (if (word image 0 =? 0) && (a =? word image 1)
             then entry_label args a else loc_label args a))
  /\ (forall a l, label (cell_at mf a) = Some l ->
        (word image 0 = 0 /\ a = word image 1 /\ l = entry_label args a)
        \/ (l = loc_label args a /\ entry mf <= a <= last mf
            /\ jump_from (cell_at mf a) <> [] /\ is_2nd_word (cell_at mf a) = false)).
Proof.
  intros Hwf Hrun.
  apply preparation_loaded in Hrun
    as (m4 & He & _ & _ & _ & _ & _ & Hlab & _ & Hc); [|done].
  rewrite <- He in Hc. split.
  - intros a Ha Hj H2. rewrite Hc in *. case_decide; [|lia].
    simpl in *. unfold final_label. rewrite Hlab.
    destruct ((word image 0 =? 0) && (a =? word image 1)); [done|].
    rewrite H2. unfold nonempty. destruct (jump_from (cell_at m4 a)); done.
  - intros a l. rewrite Hc. specialize (Hlab a). case_decide.
    + simpl. unfold final_label. rewrite Hlab.
      destruct ((word image 0 =? 0) && (a =? word image 1)) eqn:Hb.
      * intros [= <-]. left.
        apply andb_true_iff in Hb as [?%Z.eqb_eq ?%Z.eqb_eq]. by repeat split.
      * destruct (is_2nd_word (cell_at m4 a)); [done|].
        unfold nonempty. destruct (jump_from (cell_at m4 a)) eqn:Hj; [done|].
        simpl. intros [= <-]. right. repeat split; try done; lia.
    + rewrite Hlab.
      destruct ((word image 0 =? 0) && (a =? word image 1)) eqn:Hb; [|done].
      intros [= <-]. left.
        apply andb_true_iff in Hb as [?%Z.eqb_eq ?%Z.eqb_eq]. by repeat split.
Qed.

Lemma image_loop_wf : wf_image image_loop.
Proof. apply wf_image_check. vm_compute. reflexivity. Qed.

Lemma image_loop_run :
  ends_with (preparation args_deci (load_excel image_loop))
    (fun mf => entry mf = 0 /\ last mf = 1 /\ jump_from (cell_at mf 0) = [1]
               /\ is_2nd_word (cell_at mf 0) = false).
Proof. vm_compute. done. Qed.

Lemma jump_targets_labelled_witness :
  ends_with (preparation args_deci (load_excel image_loop))
    (fun mf => label (cell_at mf 0) = Some (loc_label args_deci 0)).
Proof.
  destruct (ends_with_inv _ _ image_loop_run) as ([] & mf & Hrun & He & Hl & Hj & H2).
  rewrite Hrun. simpl.
  apply (proj1 (jump_targets_labelled args_deci image_loop mf image_loop_wf Hrun) 0).
  - lia.
  - by rewrite Hj.
  - exact H2.
Defined.

(** ** C2: cross-references of LOAD and STORE *)

(** Resolve the position of an index that lies in the list. *)
Ltac in_range :=
  repeat match goal with
         | H : cell_index ?i = Some ?j |- _ =>
             lazymatch i with
             | j => fail
             | _ => rewrite (cell_index_range i) in H by (unfold NCELLS in *; lia);
                    injection H as <-
             end
         | H : cell_index ?i = None |- _ =>
             rewrite (cell_index_range i) in H by (unfold NCELLS in *; lia);
             discriminate H
         end.

Lemma opcode_nonzero d : opcode d <> 0 -> d <> 0.
Proof. intros H ->. by apply H. Qed.

Lemma one_instruction_load_store m pc t :
  0 <= pc -> pc + 2 < NCELLS ->
  data_at m (pc + 1) = t -> 0 <= t < NCELLS ->
  opcode (data_at m pc) = 4 \/ opcode (data_at m pc) = 6 ->
  wlp (one_instruction pc)
    (fun pc' m' =>
       pc' = pc + 2 /\ is_2nd_word (cell_at m' (pc + 1)) = true
       /\ (opcode (data_at m pc) = 4 ->
             read_from (cell_at m' t) = (read_from (cell_at m t) ++ [pc])%list)
       /\ (opcode (data_at m pc) = 6 ->
             write_from (cell_at m' t) = (write_from (cell_at m t) ++ [pc])%list))
    (fun _ _ => False) m.
Proof.
  unfold data_at. intros Hpc Hpc2 Ht Htr Hop.
  assert (Hnz : data (cell_at m pc) <> 0) by (apply opcode_nonzero; lia).
  unfold one_instruction.
  repeat (wstep; in_range; norm; try (exfalso; lia)); subst t.
  all: split; [reflexivity|]; split; [|split; intros Hop'; try (exfalso; lia)].
  all: repeat (rewrite ?cell_at_upd, ?cell_at_touch); repeat case_decide; subst; simpl;
    try reflexivity; try lia.
Qed.

(** Resolve the position of a non-negative index that was accepted. *)
Ltac pos_range :=
  repeat match goal with
         | H : cell_index ?i = Some ?j |- _ =>
             lazymatch i with
             | j => fail
             | _ => assert (j = i) by (apply cell_index_Some in H; lia); subst j
             end
         end.

(** What one call of [one_instruction] does, word by word of the decoder. *)
Lemma one_instruction_effect m pc :
  0 <= pc -> 0 <= data_at m (pc + 1) < NCELLS ->
  wlp (one_instruction pc)
    (fun pc' m' =>
       let d := data_at m pc in
       let t := data_at m (pc + 1) in
       pc' = pc + width d
       /\ (opcode d < 7 -> is_2nd_word (cell_at m' (pc + 1)) = true)
       /\ (forall j, read_from (cell_at m' j) =
             if decide (opcode d = 4 /\ j = t)
             then (read_from (cell_at m j) ++ [pc])%list else read_from (cell_at m j))
       /\ (forall j, write_from (cell_at m' j) =
             if decide (opcode d = 6 /\ j = t)
             then (write_from (cell_at m j) ++ [pc])%list else write_from (cell_at m j))
       /\ (forall j, jump_from (cell_at m' j) =
             if decide (opcode d < 4 /\ j = t)
             then (jump_from (cell_at m j) ++ [pc])%list else jump_from (cell_at m j)))
    (fun _ _ => True) m.
Proof.
  unfold data_at, width. intros Hpc Ht. unfold one_instruction.
  repeat (wstep; pos_range; norm; try done).
  all: repeat match goal with H : (_ <? _) = _ |- _ => rewrite H end.
  all: split; [reflexivity|]; split;
    [intros ?; repeat (rewrite ?cell_at_upd, ?cell_at_touch);
     repeat case_decide; subst; simpl; try reflexivity; lia|].
  all: repeat split; intros j0; repeat (rewrite ?cell_at_upd, ?cell_at_touch);
    repeat case_decide; subst; simpl; try reflexivity; try lia; congruence.
Qed.

(** [one_instruction] from a state that holds the words of a well-formed
    image. *)
Lemma one_instruction_image image m pc :
  wf_image image -> (forall j, data_at m j = word image j) -> 0 <= pc ->
  wlp (one_instruction pc)
    (fun pc' m' =>
       let d := word image pc in
       let t := word image (pc + 1) in
       pc' = pc + width d
       /\ lifted cell_swept m m'
       /\ (forall j, data_at m' j = word image j)
       /\ (opcode d < 7 -> is_2nd_word (cell_at m' (pc + 1)) = true)
       /\ (opcode d = 4 -> pc ∈ read_from (cell_at m' t))
       /\ (opcode d = 6 -> pc ∈ write_from (cell_at m' t))
       /\ (opcode d < 4 -> pc ∈ jump_from (cell_at m' t))
       /\ (origins_ok image m -> origins_ok image m'))
    (fun _ _ => True) m.
Proof.
  intros Hwf Hd Hpc.
  eapply wlp_mono;
    [apply (wlp_conj _ _ _ _ _ _
              (one_instruction_effect m pc Hpc
                 ltac:(rewrite Hd; by apply word_range))
              (one_instruction_swept pc m))| |done].
  simpl. intros pc' m' ((Hpc' & H2 & Hr & Hw & Hj) & Hs).
  rewrite !Hd in *. split; [done|]. split; [done|].
  split. { intros j. unfold data_at. destruct Hs as (Hs & _).
           destruct (Hs j) as [[-> _ _ _ _ _] _]. apply Hd. }
  split; [done|].
  assert (Hlast : forall (l : list Z), pc ∈ (l ++ [pc])%list)
    by (intros l; apply elem_of_app; right; by apply list_elem_of_singleton).
  split. { intros H. rewrite Hr. by rewrite decide_True. }
  split. { intros H. rewrite Hw. by rewrite decide_True. }
  split. { intros H. rewrite Hj. by rewrite decide_True. }
  intros Hok j p. destruct (Hok j p) as (Hr1 & Hw1 & Hj1). rewrite Hr, Hw, Hj.
  split; [|split]; intros Hin; (case_decide as Hdec; [|by auto]);
    (apply elem_of_app in Hin as [?| ->%list_elem_of_singleton]; [by auto|]);
    by destruct Hdec.
Qed.

Lemma traced_ok_swept image m m' p :
  lifted cell_swept m m' -> traced_ok image m p -> traced_ok image m' p.
Proof.
  intros (Hs & _ & _) (H2 & Hr & Hw & Hj).
  repeat split; intros H.
  - destruct (Hs (p + 1)) as [[_ _ Hle _ _ _] _]. auto.
  - destruct (Hs (word image (p + 1))) as [[_ _ _ Hle _ _] _].
    eapply elem_of_prefix; [|exact Hle]. auto.
  - destruct (Hs (word image (p + 1))) as [[_ _ _ _ Hle _] _].
    eapply elem_of_prefix; [|exact Hle]. auto.
  - destruct (Hs (word image (p + 1))) as [[_ _ _ _ _ Hle] _].
    eapply elem_of_prefix; [|exact Hle]. auto.
Qed.

Lemma while_sweep image l fuel : forall pc m pcf m',
  wf_image image -> (forall j, data_at m j = word image j) -> 0 <= pc -> last m = l ->
  while fuel (fun pc => let* l := get_last in ret (pc <=? l)) one_instruction pc m
    = Done pcf m' ->
  lifted cell_swept m m'
  /\ (forall j, data_at m' j = word image j)
  /\ (origins_ok image m -> origins_ok image m')
  /\ forall p, p ∈ sweep_pcs image l fuel pc -> traced_ok image m' p.
Proof.
  induction fuel as [|k IH]; intros pc m pcf m' Hwf Hd Hpc Hl Hrun; [done|].
  simpl in Hrun. unfold bind at 1 2 in Hrun. unfold get_last, ret in Hrun.
  simpl. rewrite Hl in Hrun.
  destruct (pc <=? l) eqn:Hc.
  - unfold bind in Hrun.
    destruct (one_instruction pc m) as [pc1 m1| |] eqn:H1; [|done..].
    pose proof (wlp_done _ _ _ _ _ _ (one_instruction_image image m pc Hwf Hd Hpc) H1)
      as (Hpc1 & Hs1 & Hd1 & H2 & Hr & Hw & Hj & Hok). simpl in *.
    assert (0 <= pc1) by (unfold width in Hpc1; case_match; lia).
    assert (last m1 = l) by (destruct Hs1 as (_ & _ & ->); done).
    destruct (IH pc1 m1 pcf m' Hwf Hd1 ltac:(done) ltac:(done) Hrun)
      as (Hs' & Hd' & Hok' & Htr).
    split; [by eapply lifted_swept_trans|]. split; [done|]. split; [by auto|].
    intros p [->|Hp]%elem_of_cons.
    + apply (traced_ok_swept image m1 m' pc Hs'). by repeat split.
    + apply Htr. by rewrite Hpc1.
  - injection Hrun as <- <-. split; [apply lifted_refl, cell_swept_refl|].
    split; [done|]. split; [done|]. intros p Hp. by apply elem_of_nil in Hp.
Qed.

Lemma before_entry_origins image m :
  wf_image image -> (forall j, data_at m j = word image j) -> origins_ok image m ->
  wlp before_entry (fun _ m' => origins_ok image m') (fun _ _ => True) m.
Proof.
  intros Hwf Hd Hok. unfold before_entry.
  eapply wlp_mono;
    [apply (wlp_while_upto _ _ _
       (fun x m' => 0 <= x /\ (forall j, data_at m' j = word image j)
                    /\ origins_ok image m')
       (fun _ m' => origins_ok image m'))| |done].
  - intros x m' (Hx & Hd' & Hok'). repeat wstep.
    destruct (x <? entry m'); [|done].
    assert (Hone : wlp (one_instruction x)
                     (fun x' m'' => 0 <= x' /\ (forall j, data_at m'' j = word image j)
                                    /\ origins_ok image m'')
                     (fun _ _ => True) (touch x m')).
    { eapply wlp_mono;
        [apply (one_instruction_image image (touch x m') x Hwf Hd' Hx)| |done].
      simpl. intros x' m'' (Hx' & _ & Hd'' & _ & _ & _ & _ & Hok'').
      split; [unfold width in Hx'; case_match; lia|]. split; [done|]. by apply Hok''. }
    assert (Hone' : wlp (one_instruction x)
                     (fun x' m'' => 0 <= x' /\ (forall j, data_at m'' j = word image j)
                                    /\ origins_ok image m'')
                     (fun _ _ => True) (touch x (touch x m'))).
    { eapply wlp_mono;
        [apply (one_instruction_image image (touch x (touch x m')) x Hwf Hd' Hx)| |done].
      simpl. intros x' m'' (Hx' & _ & Hd'' & _ & _ & _ & _ & Hok'').
      split; [unfold width in Hx'; case_match; lia|]. split; [done|]. by apply Hok''. }
    repeat wstep; try done. split; [lia|split; [exact Hd'|exact Hok']].
  - split; [lia|split; assumption].
  - simpl. tauto.
Qed.

Lemma opcode_0 : opcode 0 = 0.
Proof. done. Qed.

(** The cross-references at the end of [preparation]. *)
Lemma preparation_xrefs args image mf :
  wf_image image ->
  preparation args (load_excel image) = Done tt mf ->
  origins_ok image mf
  /\ forall p, p ∈ main_sweep image (entry mf) (last mf) -> traced_ok image mf p.
Proof.
  intros Hwf Hrun.
  destruct (preparation_phases args image mf Hwf Hrun)
    as (m2 & m3 & m4 & pc & x & (H3 & H4 & He2 & Hl2 & Hc2)
        & He & Her & _ & _ & _ & _ & _ & _ & Hc).
  assert (Hd2 : forall j, data_at m2 j = word image j).
  { intros j. unfold data_at. rewrite Hc2. by destruct (_ && _). }
  assert (Hok2 : origins_ok image m2).
  { intros j p. rewrite Hc2.
    destruct ((word image 0 =? 0) && (j =? word image 1)) eqn:Hb; simpl.
    - apply andb_true_iff in Hb as [H0%Z.eqb_eq _].
      repeat split; intros Hin; try by apply elem_of_nil in Hin.
      apply list_elem_of_singleton in Hin as ->. rewrite H0, opcode_0. lia.
    - repeat split; intros Hin; by apply elem_of_nil in Hin. }
  unfold traverse, while_upto in H3.
  apply (while_sweep image (last m2)) in H3 as (Hs3 & Hd3 & Hok3 & Htr3);
    [|done|done|lia|done].
  pose proof (wlp_done _ _ _ _ _ _ (before_entry_swept m3) H4) as Hs4.
  pose proof (wlp_done _ _ _ _ _ _
                (before_entry_origins image m3 Hwf Hd3 (Hok3 Hok2)) H4) as Hok4.
  assert (Hsame : forall j,
    read_from (cell_at mf j) = read_from (cell_at m4 j)
    /\ write_from (cell_at mf j) = write_from (cell_at m4 j)
    /\ jump_from (cell_at mf j) = jump_from (cell_at m4 j)
    /\ is_2nd_word (cell_at mf j) = is_2nd_word (cell_at m4 j)).
  { intros j. rewrite Hc. by case_decide. }
  split.
  - intros j p. destruct (Hsame j) as (-> & -> & -> & _). apply Hok4.
  - intros p Hp. rewrite He, <- Hl2 in Hp. unfold main_sweep in Hp. apply Htr3 in Hp.
    apply (traced_ok_swept image m3 m4 p Hs4) in Hp.
    destruct Hp as (P2 & Pr & Pw & Pj).
    unfold traced_ok.
    destruct (Hsame (p + 1)) as (_ & _ & _ & ->).
    destruct (Hsame (word image (p + 1))) as (-> & -> & -> & _). done.
Qed.

(** ** C2 *)

(** C2 (counterexample). The instruction at address 0 of [image_opcode_25]
    has opcode 25: it is traced by the main sweep (which goes on at address
    1), is one word wide, and the cell the following word points to gets
    no [read_from] entry. *)
Lemma opcode_25_is_one_word :
  opcode (word image_opcode_25 0) = 25
  /\ match one_instruction 0 (load_excel image_opcode_25) with
     | Done pc' m' => pc' = 1 /\ read_from (cell_at m' 5) = []
     | _ => False
     end
  /\ ends_with (preparation args_hex (load_excel image_opcode_25))
       (fun mf => main_sweep image_opcode_25 (entry mf) (last mf) = [0; 1]
                  /\ read_from (cell_at mf 5) = []
                  /\ is_2nd_word (cell_at mf 1) = false).
Proof. vm_compute. done. Qed.

(** C2 (as amended). When [preparation] ends on a loaded image, every
    instruction traced by the main sweep whose opcode is 4 or 6 is two words
    wide, the following word is marked as a second word, and the cell whose
    address is the value of the following word has the address of the
    instruction in [read_from] (opcode 4) or [write_from] (opcode 6). An
    instruction whose opcode is 25 is one word wide and its address is in no
    [read_from] or [write_from] list. *)
Theorem load_store_xrefs (args : Args) (image : gmap Z Z) (mf : Machine) :
  wf_image image ->
  preparation args (load_excel image) = Done tt mf ->
  forall pc, pc ∈ main_sweep image (entry mf) (last mf) ->
    let d := word image pc in
    let t := word image (pc + 1) in
    (opcode d = 4 ->
       width d = 2 /\ is_2nd_word (cell_at mf (pc + 1)) = true
       /\ pc ∈ read_from (cell_at mf t))
    /\ (opcode d = 6 ->
       width d = 2 /\ is_2nd_word (cell_at mf (pc + 1)) = true
       /\ pc ∈ write_from (cell_at mf t))
    /\ (opcode d = 25 ->
       width d = 1
       /\ forall j, (pc ∉ read_from (cell_at mf j)) /\ (pc ∉ write_from (cell_at mf j))).
Proof.
  intros Hwf Hrun pc Hpc d t.
  destruct (preparation_xrefs args image mf Hwf Hrun) as (Hok & Htr).
  destruct (Htr pc Hpc) as (H2 & Hr & Hw & _). fold d t in H2, Hr, Hw.
  split; [|split]; intros H.
  - split; [unfold width; by rewrite H|]. split; [apply H2; lia|by apply Hr].
  - split; [unfold width; by rewrite H|]. split; [apply H2; lia|by apply Hw].
  - split; [unfold width; by rewrite H|].
    intros j. split; intros Hin; apply Hok in Hin; fold d in Hin; lia.
Qed.

Lemma image_load_store_wf : wf_image image_load_store.
Proof. apply wf_image_check. vm_compute. reflexivity. Qed.

Lemma image_load_store_run :
  ends_with (preparation args_hex (load_excel image_load_store))
    (fun mf => main_sweep image_load_store (entry mf) (last mf) = [0; 2; 4]).
Proof. vm_compute. done. Qed.

Lemma load_store_xrefs_witness :
  ends_with (preparation args_hex (load_excel image_load_store))
    (fun mf => 0 ∈ read_from (cell_at mf 6) /\ 2 ∈ write_from (cell_at mf 7)).
Proof.
  destruct (ends_with_inv _ _ image_load_store_run) as ([] & mf & Hrun & Hsw).
  rewrite Hrun. simpl. split.
  - apply (load_store_xrefs args_hex image_load_store mf image_load_store_wf Hrun 0);
      [rewrite Hsw; by left|reflexivity].
  - apply (load_store_xrefs args_hex image_load_store mf image_load_store_wf Hrun 2);
      [rewrite Hsw; right; by left|reflexivity].
Defined.

(** ** A Hoare logic over a state invariant *)

Section Hoare.
Context {I : Machine -> Prop} {E : exn -> Prop}.
Context {ok : Z -> Prop} {val : Z -> Cell -> Prop} {okf : (Cell -> Cell) -> Prop}.
Context {e0 l0 : Z}.
Context `{!Invariant I E ok val okf e0 l0}.

Lemma hoare_ret {A} (a : A) (P : A -> Prop) : P a -> hoare I E (ret a) P.
Proof. intros HP m HI. by split. Qed.

Lemma hoare_raise {A} e (P : A -> Prop) : E e -> hoare I E (raise e) P.
Proof. intros HE m HI. by split. Qed.

Lemma hoare_bind {A B} (c : M A) (k : A -> M B) (P : A -> Prop) (Q : B -> Prop) :
  hoare I E c P -> (forall a, P a -> hoare I E (k a) Q) -> hoare I E (bind c k) Q.
Proof.
  intros Hc Hk m HI. apply wlp_bind. eapply wlp_mono; [by apply Hc| |done].
  intros a m' [HI' HP]. by apply Hk.
Qed.

Lemma hoare_seq {A B} (c : M A) (k : M B) (Q : B -> Prop) :
  hoare I E c (fun _ => True) -> hoare I E k Q -> hoare I E (bind c (fun _ => k)) Q.
Proof. intros Hc Hk. eapply hoare_bind; [exact Hc|]. by intros. Qed.

Lemma hoare_weaken {A} (c : M A) (P Q : A -> Prop) :
  hoare I E c P -> (forall a, P a -> Q a) -> hoare I E c Q.
Proof.
  intros Hc HPQ m HI. eapply wlp_mono; [by apply Hc| |done].
  intros a m' [? ?]. auto.
Qed.

Lemma hoare_get_cell i : ok i -> hoare I E (get_cell i) (val i).
Proof.
  intros Hi m HI. pose proof (inv_get i m Hi HI) as I_get.
  apply wlp_get_cell; intros; by simplify_option_eq.
Qed.

Lemma hoare_upd_cell i f : ok i -> okf f -> hoare I E (upd_cell i f) (fun _ => True).
Proof.
  intros Hi Hf m HI. pose proof (inv_upd i f m Hi Hf HI) as I_upd.
  apply wlp_upd_cell; intros; by simplify_option_eq.
Qed.

Lemma hoare_get_entry : hoare I E get_entry (fun e => e = e0).
Proof. intros m HI. split; [done|by eapply inv_entry]. Qed.

Lemma hoare_get_last : hoare I E get_last (fun l => l = l0).
Proof. intros m HI. split; [done|by eapply inv_last]. Qed.

Lemma hoare_write s : hoare I E (write s) (fun _ => True).
Proof. intros m HI. split; [by eapply inv_write|done]. Qed.

Lemma hoare_lift {A} (r : res A) (P : A -> Prop) :
  match r with Ret a => P a | Exn e => E e end -> hoare I E (lift r) P.
Proof. destruct r; intros H m HI; by split. Qed.

Lemma hoare_when b c :
  (b = true -> hoare I E c (fun _ => True)) -> hoare I E (when b c) (fun _ => True).
Proof. destruct b; intros H; [by apply H|by apply hoare_ret]. Qed.

Lemma hoare_while {St} fuel (cond : St -> M bool) (body : St -> M St)
    (J C : St -> Prop) :
  (forall x, J x -> hoare I E (cond x) (fun b => b = true -> C x)) ->
  (forall x, J x -> C x -> hoare I E (body x) J) ->
  forall x, J x -> hoare I E (while fuel cond body x) (fun _ => True).
Proof.
  intros Hc Hb. induction fuel as [|k IH]; intros x HJ m HI; [done|].
  simpl. apply wlp_bind. eapply wlp_mono; [by apply Hc| |done].
  intros [] m' [HI' HC]; [|by split].
  apply wlp_bind. eapply wlp_mono; [by apply Hb; auto| |done].
  intros x' m'' [HI'' HJ']. by apply IH.
Qed.

Lemma hoare_while_upto {St} bound (cond : St -> M bool) (body : St -> M St)
    (J C : St -> Prop) :
  (forall x, J x -> hoare I E (cond x) (fun b => b = true -> C x)) ->
  (forall x, J x -> C x -> hoare I E (body x) J) ->
  forall x, J x -> hoare I E (while_upto bound cond body x) (fun _ => True).
Proof.
  intros Hc Hb x HJ m HI. unfold while_upto.
  by apply (hoare_while _ cond body J C Hc Hb x HJ m HI).
Qed.

Lemma hoare_for_each {St} (l : list St) (body : St -> M unit) :
  (forall x, x ∈ l -> hoare I E (body x) (fun _ => True)) ->
  hoare I E (for_each l body) (fun _ => True).
Proof.
  induction l as [|x l IH]; intros Hb; [by apply hoare_ret|].
  simpl. apply hoare_seq; [apply Hb; by left|].
  apply IH. intros y Hy. apply Hb. by right.
Qed.
End Hoare.

Ltac hstep :=
  cbv beta;
  lazymatch goal with
  | |- hoare _ _ (bind (get_cell _) _) _ =>
      eapply hoare_bind; [apply hoare_get_cell|intros ? ?; cbv beta in *]
  | |- hoare _ _ (bind get_entry _) _ =>
      eapply hoare_bind; [apply hoare_get_entry|intros ? ?; cbv beta in *]
  | |- hoare _ _ (bind get_last _) _ =>
      eapply hoare_bind; [apply hoare_get_last|intros ? ?; cbv beta in *]
  | |- hoare _ _ (bind _ _) _ =>
      eapply (hoare_bind _ _ (fun _ => True)); [|intros ? _]
  | |- hoare _ _ (ret _) _ => apply hoare_ret
  | |- hoare _ _ (raise _) _ => apply hoare_raise
  | |- hoare _ _ (upd_cell _ _) _ => apply hoare_upd_cell
  | |- hoare _ _ (write _) _ => apply hoare_write
  | |- hoare _ _ (when _ _) _ => apply hoare_when; intros ?
  | |- hoare _ _ (if ?b then _ else _) _ => destruct b eqn:?
  | |- hoare _ _ (match ?o with _ => _ end) _ => destruct o eqn:?
  end.

Lemma list_index_in_range {A} (l : list A) i :
  0 <= i < Z.of_nat (length l) -> exists x, Py.list_index l i = Ret x.
Proof.
  intros Hi. unfold Py.list_index.
  destruct (i <? 0) eqn:Hneg; [lia|].
  replace ((0 <=? i) && (i <? Z.of_nat (length l))) with true by lia.
  destruct (lookup_lt_is_Some_2 l (Z.to_nat i) ltac:(lia)) as [x ->]. eauto.
Qed.

Lemma hoare_ins_set_at {Iv E ok val okf e0 l0} `{!Invariant Iv E ok val okf e0 l0} i :
  0 <= i < 26 -> hoare Iv E (ins_set_at i) (fun _ => True).
Proof.
  intros Hi. unfold ins_set_at. apply hoare_lift.
  destruct (list_index_in_range ins_set i Hi) as [x ->]. done.
Qed.

Lemma hoare_ins_set_call {Iv E ok val okf e0 l0} `{!Invariant Iv E ok val okf e0 l0} i :
  E TypeError -> hoare Iv E (ins_set_call i) (fun _ => True).
Proof. intros HE. unfold ins_set_call. by apply hoare_raise. Qed.

Lemma opcode_nonneg d : 0 <= d -> 0 <= opcode d.
Proof. intros. unfold opcode. by apply Z.shiftr_nonneg. Qed.

Ltac hstep' :=
  cbv beta zeta;
  lazymatch goal with
  | |- hoare _ _ (bind (ins_set_at _) _) _ =>
      eapply (hoare_bind _ _ (fun _ => True)); [apply hoare_ins_set_at|intros ? _]
  | |- hoare _ _ (bind (ins_set_call _) _) _ =>
      eapply (hoare_bind _ _ (fun _ => True)); [apply hoare_ins_set_call|intros ? _]
  | |- _ => hstep
  end.

(** ** C10: the indices stay in the list *)

Section Safety.
Variable image : gmap Z Z.
Variables e0 l0 : Z.
Variable E : exn -> Prop.
Hypothesis image_wf : wf_image image.

#[local] Instance safe_invariant :
  Invariant (safe_inv image e0 l0) E
    (fun i => 0 <= i < NCELLS) (fun i c => data c = word image i)
    (fun f => forall c, data (f c) = data c) e0 l0.
Proof.
  split.
  - intros i m Hi (Hb & Hd & He & Hl). rewrite cell_index_range by done.
    split; [|apply Hd]. split; [by apply in_bounds_cons|done].
  - intros i f m Hi Hf (Hb & Hd & He & Hl). rewrite cell_index_range by done.
    split; [by apply in_bounds_cons|]. split; [|done].
    intros j. unfold data_at. rewrite data_cell_at_upd by done. apply Hd.
  - intros s m H. exact H.
  - by intros m (_ & _ & He & _).
  - by intros m (_ & _ & _ & Hl).
Qed.

Lemma word_ok a : 0 <= word image a < NCELLS.
Proof. by apply word_range. Qed.

Lemma one_instruction_safe pc :
  0 <= pc -> pc + 1 < NCELLS -> (word image pc <> 0 -> pc + 2 < NCELLS) ->
  hoare (safe_inv image e0 l0) E (one_instruction pc)
        (fun pc' => pc' = pc + 1 \/ pc' = pc + 2).
Proof.
  intros Hpc Hpc1 Hpc2. unfold one_instruction.
  hstep; [lia|]. rename H into Hc.
  eapply (hoare_bind _ _ (fun _ => True)).
  { repeat hstep; try done; try lia;
      repeat match goal with H : data _ = word image _ |- _ => rewrite H end;
      apply word_ok. }
  intros _ _. hstep; [lia|].
  eapply (hoare_bind _ _ (fun pc' => pc' = pc + 1 \/ pc' = pc + 2)).
  { hstep; [hstep; [hstep; [lia|done]|hstep; lia]|hstep; lia]. }
  intros pc' Hpc'. hstep; [lia|]. hstep.
  - hstep. hstep; [|done].
    match goal with
    | Hz : negb (data ?c =? 0) = true, Hd : data ?c = _ |- _ =>
        rewrite Hd in Hz; apply negb_true_iff, Z.eqb_neq in Hz
    end. lia.
  - by hstep.
Qed.

Hypothesis e0_range : 0 <= e0 < NCELLS.
Hypothesis l0_range : 0 <= l0 /\ l0 + 2 < NCELLS.
Hypothesis zero_above : forall b, l0 < b < NCELLS -> word image b = 0.

Local Abbreviation safe c P := (hoare (safe_inv image e0 l0) E c P).

Lemma traverse_safe pc : 0 <= pc -> safe (traverse pc) (fun _ => True).
Proof.
  intros Hpc. unfold traverse.
  apply (hoare_while_upto _ _ _ (fun x => 0 <= x) (fun x => x <= l0)); [| |done].
  - intros x Hx. hstep. hstep. subst. lia.
  - intros x Hx Hc. eapply hoare_weaken; [apply one_instruction_safe; lia|].
    simpl. lia.
Qed.

Lemma before_entry_safe : safe before_entry (fun _ => True).
Proof.
  unfold before_entry.
  apply (hoare_while_upto _ _ _ (fun x => 0 <= x) (fun x => x < e0)); [| |done].
  - intros x Hx. hstep. hstep. subst. lia.
  - intros x Hx Hc.
    assert (Hone : safe (one_instruction x) (fun x' => 0 <= x')).
    { eapply hoare_weaken; [apply one_instruction_safe; try lia|simpl; lia].
      intros Hnz. destruct (decide (x <= l0)); [lia|].
      destruct Hnz. apply zero_above. lia. }
    repeat hstep; try lia; exact Hone.
Qed.

Lemma set_labels_safe args : safe (set_labels args) (fun _ => True).
Proof.
  unfold set_labels. hstep. subst.
  apply (hoare_while_upto _ _ _ (fun x => 0 <= x) (fun x => x <= l0)); [| |lia].
  - intros x Hx. hstep. hstep. subst. lia.
  - intros x Hx Hc. repeat hstep; try done; lia.
Qed.

(** Side conditions: indices in range and opcodes inside [ins_set]. *)
Ltac side :=
  try done;
  repeat match goal with H : data _ = word image _ |- _ => rewrite H in * end;
  repeat match goal with
         | |- context [word image ?a] =>
             lazymatch goal with
             | _ : 0 <= word image a < NCELLS |- _ => fail
             | _ => pose proof (word_ok a);
                    pose proof (opcode_nonneg (word image a) ltac:(apply word_ok))
             end
         end;
  try (unfold NCELLS in *; lia).

Hypothesis E_TypeError : E TypeError.

Lemma output_vector_warnings_safe args i :
  0 <= i < NCELLS -> safe (output_vector_warnings args i) (fun _ => True).
Proof. intros Hi. unfold output_vector_warnings. repeat hstep'; side. Qed.

Lemma output_data_safe args i :
  0 <= i < NCELLS -> safe (output_data args i) (fun _ => True).
Proof. intros Hi. unfold output_data. repeat hstep'; side. Qed.

Lemma output_operands_safe args opcode_ reg1_ reg2_ second :
  0 <= opcode_ -> 0 <= second < NCELLS ->
  safe (output_operands args opcode_ reg1_ reg2_ second) (fun _ => True).
Proof. intros Hop Hs. unfold output_operands. repeat hstep'; side. Qed.

Lemma output_instruction_safe args pc :
  0 <= pc <= l0 -> safe (output_instruction args pc) (fun pc' => 0 <= pc').
Proof.
  intros Hpc. unfold output_instruction.
  hstep'; [side|]. hstep'; [side|].
  do 3 (hstep'; [repeat hstep'; side|]).
  eapply (hoare_bind _ _ (fun _ => True)).
  { apply output_operands_safe; side. }
  intros unused_bits _.
  do 6 (hstep'; [repeat hstep'; side|]).
  hstep'; [repeat hstep'; side|].
  hstep'; [repeat hstep'; side|].
  hstep'. case_match; lia.
Qed.

Lemma output_safe args now : safe (output args now) (fun _ => True).
Proof.
  unfold output.
  hstep'; [repeat hstep'|].
  hstep'.
  { hstep'. subst. hstep'; [|by hstep'].
    hstep'.
    { hstep'. apply hoare_for_each. intros i Hi.
      apply output_vector_warnings_safe.
      apply elem_of_cons in Hi as [->|Hi]; [side|].
      apply list_elem_of_singleton in Hi as ->. side. }
    hstep'; [hstep'|]. hstep'; [|hstep'].
    hstep'. subst. apply hoare_for_each. intros i Hi.
    apply output_data_safe. apply elem_of_seqZ in Hi. side. }
  hstep'. subst. hstep'; [|by hstep'].
  apply (hoare_while_upto _ _ _ (fun x => 0 <= x) (fun x => x <= l0)); [| |lia].
  - intros x Hx. hstep'. hstep'. subst. lia.
  - intros x Hx Hc. apply output_instruction_safe. lia.
Qed.
End Safety.

(** ** Termination of the emitter *)

#[local] Instance bounds_invariant e0 l0 :
  Invariant (bounds_inv e0 l0) (fun _ => True)
    (fun _ => True) (fun _ _ => True) (fun _ => True) e0 l0.
Proof.
  split.
  - intros i m _ H. by destruct (cell_index i).
  - intros i f m _ _ H. by destruct (cell_index i).
  - by intros s m H.
  - by intros m [He _].
  - by intros m [_ Hl].
Qed.

Ltac hstep_any :=
  cbv beta zeta;
  lazymatch goal with
  | |- hoare _ _ (bind (ins_set_at _) _) _ =>
      eapply (hoare_bind _ _ (fun _ => True));
      [unfold ins_set_at; apply hoare_lift; by case_match|intros ? _]
  | |- hoare _ _ (bind (ins_set_call _) _) _ =>
      eapply (hoare_bind _ _ (fun _ => True)); [by apply hoare_ins_set_call|intros ? _]
  | |- _ => hstep
  end.

Lemma output_instruction_next args pc e0 l0 :
  hoare (bounds_inv e0 l0) (fun _ => True) (output_instruction args pc)
        (fun pc' => pc < pc').
Proof.
  unfold output_instruction.
  hstep_any; [done|]. hstep_any; [done|].
  do 3 (hstep_any; [repeat hstep_any; done|]).
  eapply (hoare_bind _ _ (fun _ => True)).
  { unfold output_operands. repeat hstep_any; done. }
  intros unused_bits _.
  do 8 (hstep_any; [repeat hstep_any; done|]).
  hstep_any. case_match; lia.
Qed.

Ltac tot2 :=
  cbv beta zeta;
  lazymatch goal with
  | |- total (ins_set_at _) => apply total_lift
  | |- total (ins_set_call _) => by intros ?
  | |- total (for_each _ _) => apply total_for_each; intros ?
  | |- _ => tot1
  end.

Lemma total_output_instruction args pc : total (output_instruction args pc).
Proof. unfold output_instruction, output_operands. repeat tot2. Qed.

Lemma total_output args now : total (output args now).
Proof.
  unfold output. repeat tot2.
  - unfold output_vector_warnings. repeat tot2.
  - unfold output_data. repeat tot2.
  - apply while_upto_total.
    + intros x. repeat tot2.
    + apply total_output_instruction.
    + intros x m. repeat wstep. intros Hc%Z.leb_le.
      eapply wlp_mono;
        [apply (output_instruction_next args x (entry m) (last m) m); by split| |done].
      simpl. intros pc' m' ((_ & ->) & Hpc). lia.
Qed.

Lemma total_main args now : total (main args now).
Proof.
  unfold main. apply total_bind; [apply total_preparation|].
  intros _. apply total_output.
Qed.

Lemma get_entry_point_bounds args m :
  in_bounds m -> 0 <= data_at m 1 < NCELLS ->
  wlp (get_entry_point args) (fun _ m' => in_bounds m') (fun _ _ => True) m.
Proof.
  unfold data_at. intros Hb Hd. unfold get_entry_point.
  repeat wstep; try done;
    repeat match goal with
           | H : cell_index 0 = Some _ |- _ => rewrite cell_index_0 in H; injection H as <-
           | H : cell_index 1 = Some _ |- _ => rewrite cell_index_1 in H; injection H as <-
           end;
    norm; unfold in_bounds; simpl;
    repeat (apply Forall_cons; split; [unfold NCELLS in *; lia|]); exact Hb.
Qed.

(** The tracer on an image whose highest non-zero word is at [a], at most
    65533: it ends normally, in a state that satisfies the invariant. *)
Lemma preparation_safe args image a :
  wf_image image ->
  0 <= a -> a + 2 < NCELLS -> word image a <> 0 ->
  (forall b, a < b < NCELLS -> word image b = 0) ->
  exists m1, preparation args (load_excel image) = Done tt m1
    /\ safe_inv image (if word image 0 =? 0 then word image 1 else 0) a m1.
Proof.
  intros Hwf Ha Ha2 Hnz Hz.
  set (e := if word image 0 =? 0 then word image 1 else 0).
  assert (He : 0 <= e < NCELLS).
  { subst e. case_match; [by apply word_range|unfold NCELLS; lia]. }
  destruct (get_entry_point_loaded args image Hwf) as (m1 & H1 & Hc1).
  assert (Hb1 : in_bounds m1).
  { apply (wlp_done _ _ _ _ _ _
             (get_entry_point_bounds args (load_excel image) ltac:(constructor)
                ltac:(rewrite data_at_load; by apply word_range)) H1). }
  assert (He1 : entry m1 = e /\ forall j, data_at m1 j = word image j).
  { subst e. unfold data_at. destruct (word image 0 =? 0).
    - destruct Hc1 as (-> & Hc1). split; [done|]. intros j. rewrite Hc1.
      by case_decide.
    - destruct Hc1 as (-> & Hc1). split; [done|]. intros j. by rewrite Hc1. }
  destruct He1 as (He1 & Hd1).
  destruct (wlp_total_done find_last _ m1 total_find_last
              (find_last_spec m1 a ltac:(unfold NCELLS in *; lia)
                 ltac:(by rewrite Hd1) ltac:(intros; rewrite Hd1; by apply Hz)))
    as ([] & m2 & H2 & Hl2 & Hc2 & He2 & _ & Hb2).
  assert (Hs2 : safe_inv image e a m2).
  { split; [by apply Hb2|]. split; [|split; congruence].
    intros j. unfold data_at, cell_at. rewrite Hc2. apply Hd1. }
  assert (Hrest : hoare (safe_inv image e a) (fun _ => False)
            (let* pc := traverse e in before_entry >> set_labels args >> ret tt)
            (fun _ => True)).
  { hstep.
    - apply traverse_safe; try done. lia.
    - hstep; [by apply before_entry_safe|].
      hstep; [by apply set_labels_safe|]. by hstep. }
  pose proof (Hrest m2 Hs2) as Hw. unfold wlp in Hw.
  pose proof (total_preparation args (load_excel image)) as Htot.
  unfold preparation in *. unfold bind at 1 in Htot. unfold bind at 1.
  rewrite H1 in *. unfold bind at 1 in Htot. unfold bind at 1.
  unfold get_entry at 1 in Htot. unfold get_entry at 1.
  unfold bind at 1 in Htot. unfold bind at 1. rewrite H2 in *. rewrite He1 in *.
  destruct (bind (traverse e) _ m2) as [[] m3|e' m3|]; [|by destruct Hw|done].
  exists m3. split; [done|]. by destruct Hw.
Qed.

(** C10. On a loaded image whose highest non-zero word is at an address no
    greater than 65533, the tracer ends normally and the emitter ends
    normally or with the [TypeError] of the operand warning; every index at
    which [cells] was subscripted, by either, lies in [0, 65535]. *)
Theorem index_safety (args : Args) (now : string) (image : gmap Z Z) (a : Z) :
  wf_image image ->
  0 <= a <= 65533 -> word image a <> 0 ->
  (forall b, a < b < NCELLS -> word image b = 0) ->
  exists m1, preparation args (load_excel image) = Done tt m1
    /\ in_bounds m1
    /\ match output args now m1 with
       | Done _ m2 => in_bounds m2
       | Raised e m2 => e = TypeError /\ in_bounds m2
       | OutOfFuel => False
       end.
Proof.
  intros Hwf Ha Hnz Hz.
  destruct (preparation_safe args image a Hwf ltac:(lia) ltac:(unfold NCELLS; lia) Hnz Hz)
    as (m1 & Hrun & Hs).
  exists m1. split; [done|]. split; [by destruct Hs|].
  assert (He : 0 <= (if word image 0 =? 0 then word image 1 else 0) < NCELLS).
  { case_match; [by apply word_range|unfold NCELLS; lia]. }
  pose proof (output_safe image _ a (fun e => e = TypeError) Hwf He
                ltac:(unfold NCELLS; lia) eq_refl args now m1 Hs) as Hw.
  pose proof (total_output args now m1) as Htot.
  unfold wlp in Hw. destruct (output args now m1) as [[] m2|e m2|]; [| |done].
  - by destruct Hw as [[? _] _].
  - destruct Hw as [[? _] ->]. done.
Qed.

Lemma index_safety_witness :
  exists m1, preparation args_hex (load_excel image_add_clc) = Done tt m1
    /\ in_bounds m1
    /\ match output args_hex "now" m1 with
       | Done _ m2 => in_bounds m2
       | Raised e m2 => e = TypeError /\ in_bounds m2
       | OutOfFuel => False
       end.
Proof.
  apply (index_safety args_hex "now" image_add_clc 3).
  - apply image_add_clc_wf.
  - lia.
  - vm_compute. discriminate.
  - apply zero_above_check. vm_compute. reflexivity.
Defined.

(** ** C1: the emitter can abort *)

(** C1 (the failing input). On [image_operand_target] with the default
    options the emitter writes the mnemonic, the operand and the end of the
    line, and then aborts with [TypeError] where it builds the warning about
    the operand word: [ins_set] is called instead of subscripted. With
    warnings suppressed the same image is listed to the end. *)
Lemma operand_warning_raises :
  raises_with (main args_hex "now" (load_excel image_operand_target)) TypeError
    (fun m => fout m = [Py.TAB ++ "JEQ" ++ Py.TAB; "@0001" ++ Py.TAB ++ Py.TAB; Py.NL])
  /\ is_done (main args_quiet "now" (load_excel image_operand_target)) = true.
Proof. vm_compute. done. Qed.

(** The other two ways in which the program aborts: on the image without any
    non-zero word the scan for [last] runs below the first cell and past the
    wrapped indices; on an image whose sweep reaches an instruction at address
    65535 the tracer subscripts the cell after it. *)
Lemma index_errors :
  raises_with (main args_hex "now" (load_excel ∅)) IndexError
    (fun m => List.hd 0 (accessed m) = - 65537)
  /\ raises_with
       (main args_hex "now" (load_excel (list_to_map [(0, 0x1800); (65535, 0x1800)])))
       IndexError (fun m => List.hd 0 (accessed m) = 65536).
Proof. vm_compute. done. Qed.

(** * Further properties of the code *)

(** ** The fields of an instruction word *)

(** X1. [opcode], [reg1] and [reg2] split a word into its high byte and the
    two nibbles of its low byte: the word is [opcode * 256 + reg1 * 16 + reg2]
    with both registers in [0, 15], and the opcode of a word lies in
    [0, 255] exactly when the word is a 16-bit value. *)
Theorem word_fields (x : Z) :
  x = opcode x * 256 + reg1 x * 16 + reg2 x
  /\ 0 <= reg1 x < 16 /\ 0 <= reg2 x < 16
  /\ (0 <= x < 65536 <-> 0 <= opcode x < 256).
Proof.
  unfold opcode, reg1, reg2.
  rewrite !Z.shiftr_div_pow2 by lia.
  change 0xf with (Z.ones 4). rewrite !Z.land_ones by lia.
  change (2 ^ 8) with 256. change (2 ^ 4) with 16.
  pose proof (Z.div_mod x 16 ltac:(lia)) as H1.
  pose proof (Z.div_mod (x / 16) 16 ltac:(lia)) as H2.
  pose proof (Z.div_div x 16 16 ltac:(lia) ltac:(lia)) as H3.
  change (16 * 16) with 256 in H3.
  pose proof (Z.mod_pos_bound x 16 ltac:(lia)).
  pose proof (Z.mod_pos_bound (x / 16) 16 ltac:(lia)).
  repeat split; lia.
Qed.

(** ** The renderings of an address *)

Lemma length_append (s1 s2 : string) :
  String.length (s1 ++ s2) = (String.length s1 + String.length s2)%nat.
Proof. induction s1 as [|c s1 IH]; simpl; [done|by rewrite IH]. Qed.

Lemma length_zeros k : String.length (Py.zeros k) = k.
Proof. induction k as [|k IH]; simpl; [done|by rewrite IH]. Qed.

Lemma digits_of_length_le base fuel : forall (k : nat) n acc,
  1 < base -> 0 <= n < base ^ Z.of_nat (S k) ->
  (String.length (Py.digits_of base fuel n acc) <= S k + String.length acc)%nat.
Proof.
  induction fuel as [|f IH]; intros k n acc Hb Hn; simpl; [lia|].
  destruct (n / base =? 0) eqn:Hq; simpl; [lia|].
  apply Z.eqb_neq in Hq.
  destruct k as [|k].
  - destruct Hq. apply Z.div_small. change (Z.of_nat 1) with 1 in Hn. lia.
  - etrans; [apply (IH k)|simpl; lia]; [done|].
    split; [apply Z.div_pos; lia|].
    apply Z.div_lt_upper_bound; [lia|].
    rewrite <- Z.pow_succ_r by lia. rewrite <- Nat2Z.inj_succ. lia.
Qed.

Lemma digits_of_length_ge base fuel : forall (k : nat) n acc,
  1 < base -> base ^ Z.of_nat k <= n < 2 ^ Z.of_nat fuel ->
  (S k + String.length acc <= String.length (Py.digits_of base fuel n acc))%nat.
Proof.
  induction fuel as [|f IH]; intros k n acc Hb Hn.
  - pose proof (Z.pow_pos_nonneg base (Z.of_nat k) ltac:(lia) ltac:(lia)).
    change (2 ^ Z.of_nat 0) with 1 in Hn. lia.
  - assert (Hpos : 0 < base ^ Z.of_nat k) by (apply Z.pow_pos_nonneg; lia).
    assert (Hhalf : n / base < 2 ^ Z.of_nat f).
    { apply Z.div_lt_upper_bound; [lia|].
      rewrite Nat2Z.inj_succ, Z.pow_succ_r in Hn by lia.
      pose proof (Z.pow_pos_nonneg 2 (Z.of_nat f) ltac:(lia) ltac:(lia)). nia. }
    simpl. destruct (n / base =? 0) eqn:Hq.
    + apply Z.eqb_eq in Hq. destruct k as [|k]; [simpl; lia|].
      exfalso. rewrite Nat2Z.inj_succ, Z.pow_succ_r in Hn by lia.
      assert (base <= n) by nia.
      pose proof (Z.div_le_lower_bound n base 1 ltac:(lia) ltac:(lia)). lia.
    + apply Z.eqb_neq in Hq.
      assert (0 <= n / base) by (apply Z.div_pos; lia).
      destruct k as [|k].
      * etrans; [|apply (IH 0%nat)]; [simpl; lia|done|].
        change (base ^ Z.of_nat 0) with 1. lia.
      * etrans; [|apply (IH k)]; [simpl; lia|done|].
        split; [|done].
        apply Z.div_le_lower_bound; [lia|].
        rewrite Nat2Z.inj_succ, Z.pow_succ_r in Hn by lia. lia.
Qed.

Lemma digits_length_le base (k : nat) n :
  1 < base -> 0 <= n < base ^ Z.of_nat (S k) ->
  (String.length (Py.digits base n) <= S k)%nat.
Proof.
  intros Hb Hn. unfold Py.digits.
  etrans; [by apply (digits_of_length_le base _ k)|simpl; lia].
Qed.

Lemma digits_length_ge base (k : nat) n :
  1 < base -> base ^ Z.of_nat k <= n ->
  (S k <= String.length (Py.digits base n))%nat.
Proof.
  intros Hb Hn. unfold Py.digits.
  assert (0 < base ^ Z.of_nat k) by (apply Z.pow_pos_nonneg; lia).
  etrans; [|apply (digits_of_length_ge base _ k)]; [simpl; lia|done|].
  split; [done|]. apply (digits_fuel 2); lia.
Qed.

(** X2. The hexadecimal rendering of an address in [0, 65535] has exactly
    four characters, each a digit or an upper-case letter from A to F. *)
Theorem to_hex_four_digits (a : Z) :
  0 <= a <= 65535 ->
  String.length (Address.to_hex a) = 4%nat
  /\ string_forall hex_char (Address.to_hex a) = true.
Proof.
  intros Ha. unfold Address.to_hex, Py.format_X.
  replace (a <? 0) with false by lia. rewrite Z.abs_eq by lia.
  change ("" ++ ?s) with s. change (String.length "") with 0%nat.
  pose proof (digits_length_le 16 3 a ltac:(lia) ltac:(change (16 ^ Z.of_nat 4) with 65536; lia)).
  split.
  - rewrite length_append, length_zeros. lia.
  - rewrite string_forall_app, zeros_hex. simpl. apply digits_hex_chars; lia.
Qed.

Lemma to_hex_four_digits_witness :
  String.length (Address.to_hex 255) = 4%nat
  /\ string_forall hex_char (Address.to_hex 255) = true.
Proof. apply (to_hex_four_digits 255). lia. Defined.

(** X3. [to_row_col] undoes [from_row_col] when the column is in [0, 255],
    whatever the row; [from_row_col] itself checks no range: a column 256
    further on is the same address as the next row. *)
Theorem to_row_col_from_row_col (row col : Z) :
  0 <= col < 256 ->
  Address.to_row_col (Address.from_row_col row col) = (row, col)
  /\ Address.from_row_col row (col + 256) = Address.from_row_col (row + 1) col.
Proof.
  intros Hc. unfold Address.to_row_col, Address.from_row_col. split; [|lia].
  f_equal.
  - rewrite Z.div_add_l by lia. rewrite Z.div_small by lia. lia.
  - rewrite Z.add_comm, Z.mod_add by lia. apply Z.mod_small. lia.
Qed.

Lemma to_row_col_from_row_col_witness :
  Address.to_row_col (Address.from_row_col 3 7) = (3, 7)
  /\ Address.from_row_col 3 (7 + 256) = Address.from_row_col (3 + 1) 7.
Proof. apply (to_row_col_from_row_col 3 7). lia. Defined.

(** X4. [tab_pad] on an address in [0, 65535]: the hexadecimal rendering is
    never padded; the decimal rendering gets one tab exactly when the
    address is below 1000. *)
Theorem tab_pad_width (a : Z) :
  0 <= a <= 65535 ->
  Address.tab_pad hex a = Address.to_hex a
  /\ Address.tab_pad deci a = Py.str a ++ (if a <? 1000 then Py.TAB else "").
Proof.
  intros Ha. unfold Address.tab_pad, Address.to_str, Py.len. split.
  - destruct (to_hex_four_digits a Ha) as [-> _]. simpl. apply append_nil_r.
  - f_equal. unfold Py.str. replace (a <? 0) with false by lia.
    destruct (a <? 1000) eqn:Hlt.
    + pose proof (digits_length_le 10 2 a ltac:(lia)
                    ltac:(change (10 ^ Z.of_nat 3) with 1000; lia)).
      replace (Z.of_nat (String.length (Py.digits 10 a)) <? 4) with true by lia. done.
    + pose proof (digits_length_ge 10 3 a ltac:(lia)
                    ltac:(change (10 ^ Z.of_nat 3) with 1000; lia)).
      replace (Z.of_nat (String.length (Py.digits 10 a)) <? 4) with false by lia. done.
Qed.

Lemma tab_pad_width_witness :
  Address.tab_pad hex 42 = Address.to_hex 42
  /\ Address.tab_pad deci 42 = Py.str 42 ++ (if 42 <? 1000 then Py.TAB else "").
Proof. apply (tab_pad_width 42). lia. Defined.

(** ** [from_excel]: what it accepts *)

Lemma upper_idem c : Py.upper (Py.upper c) = Py.upper c.
Proof. destruct c as [[] [] [] [] [] [] [] []]; vm_compute; reflexivity. Qed.

Lemma isalpha_upper c : Py.isalpha (Py.upper c) = Py.isalpha c.
Proof. destruct c as [[] [] [] [] [] [] [] []]; vm_compute; reflexivity. Qed.

Lemma upper_not_alpha c : Py.isalpha c = false -> Py.upper c = c.
Proof. destruct c as [[] [] [] [] [] [] [] []]; vm_compute; intros; done. Qed.

(** X5. [from_excel] does not tell a column written with a leading [A] from
    the column without it: on an ASCII string made of a letter [c1] followed
    by a character that is no letter, the string with ["A"] in front decodes
    exactly as the string itself (["AB5"] as ["B5"]), so the decoder is not
    one-to-one. *)
Theorem from_excel_leading_A (c1 d : ascii) (r : string) :
  Py.all_ascii (String c1 (String d r)) = true ->
  Py.isalpha c1 = true -> Py.isalpha d = false ->
  Address.from_excel (String "A" (String c1 (String d r)))
  = Address.from_excel (String c1 (String d r)).
Proof.
  intros _ H1 Hd. unfold Address.from_excel.
  cbn [Py.str_index Py.str_from res_bind]. rewrite H1, Hd.
  cbn [Py.str_index Py.str_from res_bind].
  change (Py.ord (Py.upper "A")) with 65.
  destruct (Py.int 10 (String d r)); simpl; [|done].
  f_equal.
Qed.

Lemma from_excel_leading_A_witness :
  Address.from_excel "AB5" = Address.from_excel "B5".
Proof. apply (from_excel_leading_A "B" "5" ""); reflexivity. Defined.

(** X6. [from_excel] reads the column letters through [upper]: on an ASCII
    string, writing the first two characters in upper case changes nothing
    of the result, address or exception. *)
Theorem from_excel_case_insensitive (c0 c1 : ascii) (r : string) :
  Py.all_ascii (String c0 (String c1 r)) = true ->
  Address.from_excel (String (Py.upper c0) (String (Py.upper c1) r))
  = Address.from_excel (String c0 (String c1 r)).
Proof.
  intros _. unfold Address.from_excel.
  cbn [Py.str_index Py.str_from res_bind].
  rewrite isalpha_upper, !upper_idem.
  destruct (Py.isalpha c1) eqn:H1; [done|].
  by rewrite (upper_not_alpha c1 H1).
Qed.

Lemma from_excel_case_insensitive_witness :
  Address.from_excel "JV256" = Address.from_excel "jv256".
Proof. apply (from_excel_case_insensitive "j" "v" "256"). reflexivity. Defined.

(** ** The loader *)

Lemma for_each_app {St} (l1 l2 : list St) (body : St -> M unit) : forall m,
  for_each (l1 ++ l2) body m = (for_each l1 body >> for_each l2 body) m.
Proof.
  induction l1 as [|x l1 IH]; intros m; [done|].
  simpl. unfold bind. destruct (body x m) as [[] m'| |]; [|done..].
  rewrite IH. reflexivity.
Qed.

Lemma for_each_concat {St} (ll : list (list St)) (body : St -> M unit) : forall m,
  for_each ll (fun l => for_each l body) m = for_each (concat ll) body m.
Proof.
  induction ll as [|l ll IH]; intros m; [done|].
  simpl. rewrite for_each_app. unfold bind.
  destruct (for_each l body m) as [[] m'| |]; [|done..]. apply IH.
Qed.

Lemma set_data_init v w : set_data v (Cell_init w) = Cell_init v.
Proof. done. Qed.

Lemma cell_at_fmap m im j :
  cells m = Cell_init <$> im -> cell_at m j = Cell_init (word im j).
Proof.
  intros H. unfold cell_at, word. rewrite H, lookup_total_alt, lookup_fmap.
  by destruct (im !! j).
Qed.

Lemma load_cells_ok (l : list Loader.SheetCell) : forall m im,
  (forall c, c ∈ l -> Loader.value c <> None -> 0 <= Loader.position c < NCELLS) ->
  cells m = Cell_init <$> im ->
  exists m',
    for_each l (fun cell =>
      match Loader.value cell with
      | Some v => upd_cell ((Loader.row cell - 1) * 0x100 + (Loader.column cell - 1))
                    (set_data v)
      | None => ret tt
      end) m = Done tt m'
    /\ cells m' = Cell_init <$> foldl Loader.store_step im l
    /\ entry m' = entry m /\ last m' = last m /\ fout m' = fout m.
Proof.
  induction l as [|c l IH]; intros m im Hr Hm; [by exists m|].
  simpl. unfold bind. unfold Loader.store_step at 2.
  destruct (Loader.value c) as [v|] eqn:Hv.
  - assert (Hp : 0 <= Loader.position c < NCELLS) by (apply Hr; [left|congruence]).
    change ((Loader.row c - 1) * 256 + (Loader.column c - 1)) with (Loader.position c).
    unfold upd_cell. rewrite cell_index_range by done. cbv beta iota.
    destruct (IH (upd (Loader.position c) (set_data v) (Loader.position c) m)
                 (<[Loader.position c := v]> im)) as (m' & Hrun & Hc & He & Hl & Hf).
    { intros c' Hc'. apply Hr. by right. }
    { simpl. rewrite (cell_at_fmap m im _ Hm), set_data_init, Hm. by rewrite fmap_insert. }
    exists m'. split; [exact Hrun|]. split; [exact Hc|]. by repeat split.
  - destruct (IH m im) as (m' & Hrun & H); [intros c' Hc'; apply Hr; by right|done|].
    exists m'. split; [exact Hrun|exact H].
Qed.

Lemma foldl_store_other (l : list Loader.SheetCell) j : forall im,
  (forall c, c ∈ l -> Loader.value c <> None -> Loader.position c <> j) ->
  foldl Loader.store_step im l !! j = im !! j.
Proof.
  induction l as [|c l IH]; intros im H; [done|].
  simpl. rewrite IH by (intros c' Hc'; apply H; by right).
  unfold Loader.store_step. destruct (Loader.value c) eqn:Hv; [|done].
  apply lookup_insert_ne. apply H; [left|congruence].
Qed.

(** X7. [load_excel] on a sheet whose filled cells lie in the first 256
    rows and columns ends normally, with fresh cells that hold the words of
    the sheet and nothing else: a cell of the list stays [Cell()] where the
    sheet has no value, the value of a sheet cell is at address
    [(row - 1) * 256 + (column - 1)] unless a later cell of the sheet is
    stored there too, and [entry], [last] and the output are untouched. The
    cells are those of [load_excel (image_of ...)], the state the other
    theorems start from. *)
Theorem load_excel_stores (ws : list (list Loader.SheetCell)) (m : Machine) :
  (forall c, c ∈ concat ws -> Loader.value c <> None ->
     1 <= Loader.row c <= 256 /\ 1 <= Loader.column c <= 256) ->
  exists m',
    Loader.load_excel ws m = Done tt m'
    /\ cells m' = cells (load_excel (Loader.image_of (concat ws)))
    /\ entry m' = entry m /\ last m' = last m /\ fout m' = fout m
    /\ (forall j, (forall c, c ∈ concat ws -> Loader.value c <> None ->
                     Loader.position c <> j) ->
          cell_at m' j = Cell_init 0)
    /\ (forall l1 c l2 v, concat ws = (l1 ++ c :: l2)%list -> Loader.value c = Some v ->
          (forall c', c' ∈ l2 -> Loader.value c' <> None ->
             Loader.position c' <> Loader.position c) ->
          cell_at m' (Loader.position c) = Cell_init v).
Proof.
  intros Hr. unfold Loader.load_excel, bind at 1, Loader.new_cells.
  rewrite for_each_concat.
  destruct (load_cells_ok (concat ws)
              (mkMachine ∅ (entry m) (last m) (fout m) (accessed m)) ∅)
    as (m' & Hrun & Hc & He & Hl & Hf).
  { intros c Hc Hv. destruct (Hr c Hc Hv). unfold Loader.position, NCELLS. lia. }
  { simpl. by rewrite fmap_empty. }
  exists m'. split; [exact Hrun|]. split; [exact Hc|].
  do 3 (split; [done|]). split.
  - intros j Hj. rewrite (cell_at_fmap m' _ j Hc). unfold word.
    by rewrite foldl_store_other, lookup_empty.
  - intros l1 c l2 v Hl12 Hv Hl2. rewrite (cell_at_fmap m' _ _ Hc). unfold word.
    rewrite Hl12, foldl_app. simpl. rewrite foldl_store_other by done.
    unfold Loader.store_step at 1. rewrite Hv. by rewrite lookup_insert_eq.
Qed.

Lemma load_excel_stores_witness :
  exists m',
    Loader.load_excel sheet_add_clc machine0 = Done tt m'
    /\ cells m' = cells (load_excel (Loader.image_of (concat sheet_add_clc)))
    /\ entry m' = entry machine0 /\ last m' = last machine0 /\ fout m' = fout machine0
    /\ (forall j, (forall c, c ∈ concat sheet_add_clc -> Loader.value c <> None ->
                     Loader.position c <> j) ->
          cell_at m' j = Cell_init 0)
    /\ (forall l1 c l2 v, concat sheet_add_clc = (l1 ++ c :: l2)%list ->
          Loader.value c = Some v ->
          (forall c', c' ∈ l2 -> Loader.value c' <> None ->
             Loader.position c' <> Loader.position c) ->
          cell_at m' (Loader.position c) = Cell_init v).
Proof.
  apply (load_excel_stores sheet_add_clc machine0).
  intros c Hc _. simpl in Hc.
  repeat (apply elem_of_cons in Hc as [->|Hc]; [simpl; lia|]).
  by apply elem_of_nil in Hc.
Defined.

(** X8. [load_excel] checks no range: a filled cell of the sheet whose
    address [(row - 1) * 256 + (column - 1)] is 65536 or more (a cell in row
    257, say) makes it raise [IndexError]. *)
Theorem load_excel_out_of_range (ws : list (list Loader.SheetCell)) (m : Machine) :
  (exists c, c ∈ concat ws /\ Loader.value c <> None /\ NCELLS <= Loader.position c) ->
  exists m', Loader.load_excel ws m = Raised IndexError m'.
Proof.
  intros Hbad. unfold Loader.load_excel, bind at 1, Loader.new_cells.
  rewrite for_each_concat.
  generalize (mkMachine ∅ (entry m) (last m) (fout m) (accessed m)). clear m.
  induction (concat ws) as [|c l IH]; intros m.
  { destruct Hbad as (c & Hc & _). by apply elem_of_nil in Hc. }
  simpl. unfold bind.
  destruct (Loader.value c) as [v|] eqn:Hv.
  - change ((Loader.row c - 1) * 256 + (Loader.column c - 1)) with (Loader.position c).
    unfold upd_cell.
    destruct (cell_index (Loader.position c)) as [j|] eqn:Hj; [|eauto].
    apply IH. destruct Hbad as (c' & [->|Hc']%elem_of_cons & Hv' & Hp'); [|eauto].
    apply cell_index_Some in Hj. lia.
  - apply IH. destruct Hbad as (c' & [->|Hc']%elem_of_cons & Hv' & Hp'); [done|eauto].
Qed.

Lemma load_excel_out_of_range_witness :
  exists m', Loader.load_excel [[Loader.mkSheetCell 257 1 (Some 5)]] machine0
             = Raised IndexError m'.
Proof.
  apply (load_excel_out_of_range [[Loader.mkSheetCell 257 1 (Some 5)]] machine0).
  exists (Loader.mkSheetCell 257 1 (Some 5)). split; [by left|].
  split; [done|]. unfold Loader.position, NCELLS. simpl. lia.
Defined.

(** ** Steps that respect a relation on states *)

Section Frames.
Variable R : Machine -> Machine -> Prop.
Variable okf : (Cell -> Cell) -> Prop.
Hypothesis R_refl : forall m, R m m.
Hypothesis R_trans : forall m1 m2 m3, R m1 m2 -> R m2 m3 -> R m1 m3.
Hypothesis R_touch : forall i m, R m (touch i m).
Hypothesis R_upd : forall j f i m, okf f -> R m (upd j f i m).
Hypothesis R_entry : forall e m,
  R m (mkMachine (cells m) e (last m) (fout m) (accessed m)).
Hypothesis R_last : forall l m,
  R m (mkMachine (cells m) (entry m) l (fout m) (accessed m)).
Hypothesis R_write : forall s m,
  R m (mkMachine (cells m) (entry m) (last m) (fout m ++ [s]) (accessed m)).

Lemma frame_ret {A} (a : A) : steps R (ret a).
Proof. intros m. apply R_refl. Qed.

Lemma frame_raise {A} e : steps R (@raise A e).
Proof. intros m. apply R_refl. Qed.

Lemma frame_bind {A B} (c : M A) (k : A -> M B) :
  steps R c -> (forall a, steps R (k a)) -> steps R (bind c k).
Proof.
  intros Hc Hk m. specialize (Hc m). unfold wlp, bind in *.
  destruct (c m) as [a m'|e m'|]; [|done..].
  specialize (Hk a m'). unfold wlp in Hk.
  destruct (k a m'); [| |done]; by eapply R_trans.
Qed.

Lemma frame_get_cell i : steps R (get_cell i).
Proof. intros m. apply wlp_get_cell; intros; apply R_touch. Qed.

Lemma frame_upd_cell i f : okf f -> steps R (upd_cell i f).
Proof. intros Hf m. apply wlp_upd_cell; intros; [by apply R_upd|apply R_touch]. Qed.

Lemma frame_get_entry : steps R get_entry.
Proof. intros m. apply R_refl. Qed.

Lemma frame_get_last : steps R get_last.
Proof. intros m. apply R_refl. Qed.

Lemma frame_set_entry e : steps R (set_entry e).
Proof. intros m. apply R_entry. Qed.

Lemma frame_set_last l : steps R (set_last l).
Proof. intros m. apply R_last. Qed.

Lemma frame_write s : steps R (write s).
Proof. intros m. apply R_write. Qed.

Lemma frame_lift {A} (r : res A) : steps R (lift r).
Proof. destruct r; [apply frame_ret|apply frame_raise]. Qed.

Lemma frame_when b c : steps R c -> steps R (when b c).
Proof. destruct b; [done|]. intros _. apply frame_ret. Qed.

Lemma frame_while {St} fuel (cond : St -> M bool) (body : St -> M St) x :
  (forall x, steps R (cond x)) -> (forall x, steps R (body x)) ->
  steps R (while fuel cond body x).
Proof.
  intros Hc Hb m.
  apply (wlp_while fuel cond body (fun _ m' => R m m')); [|apply R_refl].
  intros y m' HR. eapply wlp_mono; [apply Hc| |]; simpl; [|by eauto].
  intros [] m'' HR'; [|by eauto].
  eapply wlp_mono; [apply Hb| |]; simpl; eauto.
Qed.

Lemma frame_while_upto {St} bound (cond : St -> M bool) (body : St -> M St) x :
  (forall x, steps R (cond x)) -> (forall x, steps R (body x)) ->
  steps R (while_upto bound cond body x).
Proof. intros Hc Hb m. unfold while_upto. by apply frame_while. Qed.

Lemma frame_for_each {St} (l : list St) body :
  (forall x, steps R (body x)) -> steps R (for_each l body).
Proof.
  intros Hb. induction l as [|x l IH]; [apply frame_ret|].
  simpl. apply frame_bind; auto.
Qed.
End Frames.

Ltac fr1 :=
  cbv beta zeta;
  lazymatch goal with
  | |- steps _ (ret _) => apply frame_ret
  | |- steps _ (raise _) => apply frame_raise
  | |- steps _ (bind _ _) => apply frame_bind; [| |intros ?]
  | |- steps _ (get_cell _) => apply frame_get_cell
  | |- steps _ (lift _) => apply frame_lift
  | |- steps _ (ins_set_at _) => apply frame_lift
  | |- steps _ (ins_set_call _) => apply frame_raise
  | |- steps _ (when _ _) => apply frame_when
  | |- steps _ get_entry => apply frame_get_entry
  | |- steps _ get_last => apply frame_get_last
  | |- steps _ (set_entry _) => apply frame_set_entry
  | |- steps _ (set_last _) => apply frame_set_last
  | |- steps _ (write _) => apply frame_write
  | |- steps _ (while _ _ _ _) => apply frame_while; [| |intros ?|intros ?]
  | |- steps _ (while_upto _ _ _ _) => apply frame_while_upto; [| |intros ?|intros ?]
  | |- steps _ (for_each _ _) => apply frame_for_each; [| |intros ?]
  | |- steps _ (if ?b then _ else _) => destruct b
  | |- steps _ (match ?o with _ => _ end) => destruct o
  end.

(** ** What the tracer leaves alone *)


Lemma cell_grows_refl c : cell_grows c c.
Proof. by repeat split. Qed.

Lemma cell_grows_trans c1 c2 c3 : cell_grows c1 c2 -> cell_grows c2 c3 -> cell_grows c1 c3.
Proof.
  intros (? & ? & ? & ? & ?) (? & ? & ? & ? & ?).
  repeat split; [congruence|auto|by etrans..].
Qed.

Lemma grows_set_label l c : cell_grows c (set_label l c).
Proof. by repeat split. Qed.

Lemma grows_set_exec_from_prev p c : cell_grows c (set_exec_from_prev p c).
Proof. by repeat split. Qed.

Lemma grows_set_is_2nd_word c : cell_grows c (set_is_2nd_word true c).
Proof. by repeat split. Qed.

Lemma grows_jump_from_append a c : cell_grows c (jump_from_append a c).
Proof. repeat split; simpl; try done; by apply prefix_app_r. Qed.

Lemma grows_read_from_append a c : cell_grows c (read_from_append a c).
Proof. repeat split; simpl; try done; by apply prefix_app_r. Qed.

Lemma grows_write_from_append a c : cell_grows c (write_from_append a c).
Proof. repeat split; simpl; try done; by apply prefix_app_r. Qed.

Lemma traced_refl m : traced m m.
Proof. split; [done|]. intros j. apply cell_grows_refl. Qed.

Lemma traced_trans m1 m2 m3 : traced m1 m2 -> traced m2 m3 -> traced m1 m3.
Proof.
  intros [? H1] [? H2]. split; [congruence|].
  intros j. eapply cell_grows_trans; [apply H1|apply H2].
Qed.

Lemma traced_touch i m : traced m (touch i m).
Proof. split; [done|]. intros j. apply cell_grows_refl. Qed.

Lemma traced_upd j f i m : (forall c, cell_grows c (f c)) -> traced m (upd j f i m).
Proof.
  intros Hf. split; [done|]. intros j'. rewrite cell_at_upd.
  case_decide; subst; [apply Hf|apply cell_grows_refl].
Qed.

Lemma traced_upd_cell i f : (forall c, cell_grows c (f c)) -> steps traced (upd_cell i f).
Proof.
  apply (frame_upd_cell traced (fun f => forall c, cell_grows c (f c)));
    [apply traced_touch|apply traced_upd].
Qed.

Create HintDb frames.
#[local] Hint Resolve cell_grows_refl grows_set_label grows_set_exec_from_prev
  grows_set_is_2nd_word grows_jump_from_append grows_read_from_append
  grows_write_from_append traced_refl traced_trans traced_touch : frames.

Lemma preparation_traced args : steps traced (preparation args).
Proof.
  unfold preparation, get_entry_point, find_last, traverse, before_entry, set_labels,
    one_instruction.
  repeat first [apply traced_upd_cell|fr1]; eauto with frames;
    intros; split; try done; intros; apply cell_grows_refl.
Qed.

(** X9. Whatever the state it starts in and however it ends, the tracer
    writes nothing to the output, changes no word, resets no second-word
    mark, and only appends to the lists of cross-references. *)
Theorem preparation_grows (args : Args) (m : Machine) :
  after (preparation args m)
    (fun m' => fout m' = fout m /\ forall j, cell_grows (cell_at m j) (cell_at m' j)).
Proof.
  pose proof (preparation_traced args m) as H.
  pose proof (total_preparation args m) as Ht.
  unfold wlp in H. by destruct (preparation args m).
Qed.

(** ** What the emitter leaves alone *)

Lemma emitted_refl m : emitted m m.
Proof. by repeat split. Qed.

Lemma emitted_trans m1 m2 m3 : emitted m1 m2 -> emitted m2 m3 -> emitted m1 m3.
Proof.
  intros (? & ? & ? & ?) (? & ? & ? & ?). repeat split; [congruence..|by etrans].
Qed.

Lemma emitted_touch i m : emitted m (touch i m).
Proof. by repeat split. Qed.

Lemma emitted_write s m :
  emitted m (mkMachine (cells m) (entry m) (last m) (fout m ++ [s]) (accessed m)).
Proof. repeat split; simpl; by apply prefix_app_r. Qed.

#[local] Hint Resolve emitted_refl emitted_trans emitted_touch emitted_write : frames.

Lemma output_instruction_emitted args pc : steps emitted (output_instruction args pc).
Proof.
  unfold output_instruction, output_operands. repeat fr1; eauto with frames.
Qed.

(** X10. Whatever the state it starts in and however it ends, the emitter
    changes no cell, neither [entry] nor [last], and only appends to the
    output; when the output is not the standard output, the first piece it
    appends is the header. *)
Theorem output_only_writes (args : Args) (now : string) (m : Machine) :
  after (output args now m)
    (fun m' => cells m' = cells m /\ entry m' = entry m /\ last m' = last m
               /\ (fout m ++ (if to_stdout args then []
                              else [HEADER_STR (input args) now]))%list
                  `prefix_of` fout m').
Proof.
  pose proof (total_output args now m) as Ht.
  assert (H : wlp (output args now)
            (fun _ m' => cells m' = cells m /\ entry m' = entry m /\ last m' = last m
               /\ (fout m ++ (if to_stdout args then []
                              else [HEADER_STR (input args) now]))%list
                  `prefix_of` fout m')
            (fun _ m' => cells m' = cells m /\ entry m' = entry m /\ last m' = last m
               /\ (fout m ++ (if to_stdout args then []
                              else [HEADER_STR (input args) now]))%list
                  `prefix_of` fout m') m).
  { unfold output. apply wlp_bind.
    set (m1 := mkMachine (cells m) (entry m) (last m)
                 (fout m ++ (if to_stdout args then []
                             else [HEADER_STR (input args) now])) (accessed m)).
    assert (Hrest : forall c : M unit, steps emitted c ->
              wlp c
                (fun _ m' => cells m' = cells m /\ entry m' = entry m /\ last m' = last m
                   /\ fout m1 `prefix_of` fout m')
                (fun _ m' => cells m' = cells m /\ entry m' = entry m /\ last m' = last m
                   /\ fout m1 `prefix_of` fout m') m1).
    { intros c Hc. eapply wlp_mono; [apply Hc|intros ? ? H; exact H..]. }
    destruct (to_stdout args) eqn:Hs; simpl.
    - replace m with m1 at 1 by (destruct m; unfold m1; simpl; by rewrite app_nil_r).
      apply wlp_ret. apply Hrest.
      unfold output_vector_warnings, output_data.
      repeat first [apply output_instruction_emitted|fr1]; eauto with frames.
    - apply wlp_write. apply Hrest.
      unfold output_vector_warnings, output_data.
      repeat first [apply output_instruction_emitted|fr1]; eauto with frames. }
  unfold wlp in H. by destruct (output args now m).
Qed.

(** ** The emitter with warnings suppressed *)

Section Quiet.
Variable image : gmap Z Z.
Variables e0 l0 : Z.
Variable args : Args.
Hypothesis image_wf : wf_image image.
Hypothesis e0_range : 0 <= e0 < NCELLS.
Hypothesis l0_range : 0 <= l0 /\ l0 + 2 < NCELLS.
Hypothesis quiet : no_warnings args = true.

#[local] Instance quiet_invariant :
  Invariant (safe_inv image e0 l0) (fun _ => False)
    (fun i => 0 <= i < NCELLS) (fun i c => data c = word image i)
    (fun f => forall c, data (f c) = data c) e0 l0 :=
  safe_invariant image e0 l0 (fun _ => False).

Local Abbreviation quietly c P := (hoare (safe_inv image e0 l0) (fun _ => False) c P).

Ltac quiet_side :=
  try done;
  repeat match goal with H : data _ = word image _ |- _ => rewrite H in * end;
  repeat match goal with
         | |- context [word image ?a] =>
             lazymatch goal with
             | _ : 0 <= word image a < NCELLS |- _ => fail
             | _ => pose proof (word_range image a image_wf);
                    pose proof (opcode_nonneg (word image a)
                                  ltac:(apply (word_range image a image_wf)))
             end
         end;
  try (unfold NCELLS in *; lia).

Lemma output_instruction_quiet pc :
  0 <= pc <= l0 -> quietly (output_instruction args pc) (fun pc' => 0 <= pc').
Proof.
  intros Hpc. unfold output_instruction. rewrite quiet.
  change (negb true) with false. rewrite ?andb_false_r.
  hstep'; [quiet_side|]. hstep'; [quiet_side|].
  do 3 (hstep'; [repeat hstep'; quiet_side|]).
  eapply (hoare_bind _ _ (fun _ => True)).
  { apply output_operands_safe; quiet_side. }
  intros unused_bits _.
  do 6 (hstep'; [repeat hstep'; quiet_side|]).
  hstep'; [repeat hstep'; quiet_side|].
  hstep'; [repeat hstep'; quiet_side|].
  hstep'. case_match; lia.
Qed.

Lemma output_quiet now : quietly (output args now) (fun _ => True).
Proof.
  unfold output. rewrite quiet. change (negb true) with false.
  hstep'; [repeat hstep'|].
  hstep'.
  { hstep'. subst. hstep'; [|by hstep'].
    hstep'; [by hstep'|].
    hstep'; [hstep'|]. hstep'; [|hstep'].
    hstep'. subst. apply hoare_for_each. intros i Hi.
    apply output_data_safe; [done|]. apply elem_of_seqZ in Hi. quiet_side. }
  hstep'. subst. hstep'; [|by hstep'].
  apply (hoare_while_upto _ _ _ (fun x => 0 <= x) (fun x => x <= l0)); [| |lia].
  - intros x Hx. hstep'. hstep'. subst. lia.
  - intros x Hx Hc. apply output_instruction_quiet. lia.
Qed.
End Quiet.

(** X11. With warnings suppressed, on a loaded image of 16-bit words whose
    highest non-zero word is at an address no greater than 65533, the whole
    run [preparation] then [output] ends normally: no exception is raised,
    and every index at which [cells] was subscripted lies in [0, 65535]. *)
Theorem quiet_run_completes (args : Args) (now : string) (image : gmap Z Z) (a : Z) :
  no_warnings args = true ->
  wf_image image ->
  0 <= a <= 65533 -> word image a <> 0 ->
  (forall b, a < b < NCELLS -> word image b = 0) ->
  exists m, main args now (load_excel image) = Done tt m /\ in_bounds m.
Proof.
  intros Hq Hwf Ha Hnz Hz.
  destruct (preparation_safe args image a Hwf ltac:(lia) ltac:(unfold NCELLS; lia) Hnz Hz)
    as (m1 & Hrun & Hs).
  assert (He : 0 <= (if word image 0 =? 0 then word image 1 else 0) < NCELLS).
  { case_match; [by apply word_range|unfold NCELLS; lia]. }
  pose proof (output_quiet image _ a args Hwf He ltac:(unfold NCELLS; lia) Hq now m1 Hs) as Hw.
  pose proof (total_output args now m1) as Htot.
  unfold main, bind. rewrite Hrun.
  unfold wlp in Hw. destruct (output args now m1) as [[] m2|e m2|]; [| |done].
  - exists m2. split; [done|]. by destruct Hw as [[? _] _].
  - by destruct Hw as [_ []].
Qed.

Lemma quiet_run_completes_witness :
  exists m, main args_quiet "now" (load_excel image_operand_target) = Done tt m
            /\ in_bounds m.
Proof.
  apply (quiet_run_completes args_quiet "now" image_operand_target 1).
  - reflexivity.
  - apply wf_image_check. vm_compute. reflexivity.
  - lia.
  - vm_compute. discriminate.
  - apply zero_above_check. vm_compute. reflexivity.
Defined.

(** ** Cross-references: what is recorded is right *)

Lemma one_instruction_sound image m pc :
  wf_image image -> (forall j, data_at m j = word image j) -> 0 <= pc ->
  xrefs_sound image m ->
  wlp (one_instruction pc)
    (fun pc' m' => 0 <= pc' /\ (forall j, data_at m' j = word image j)
                   /\ xrefs_sound image m')
    (fun _ _ => True) m.
Proof.
  intros Hwf Hd Hpc Hok.
  eapply wlp_mono;
    [apply (wlp_conj _ _ _ _ _ _
              (one_instruction_effect m pc Hpc ltac:(rewrite Hd; by apply word_range))
              (one_instruction_image image m pc Hwf Hd Hpc))| |done].
  simpl. intros pc' m' ((Hpc' & _ & Hr & Hw & Hj) & (_ & _ & Hd' & _)).
  rewrite !Hd in *.
  split; [unfold width in Hpc'; case_match; lia|]. split; [done|].
  intros j p. destruct (Hok j p) as (Hr1 & Hw1 & Hj1). rewrite Hr, Hw, Hj.
  split; [|split]; intros Hin; (case_decide as Hdec; [|by auto]);
    (apply elem_of_app in Hin as [?| ->%list_elem_of_singleton]; [by auto|]);
    destruct Hdec as [? ->]; by split.
Qed.

Lemma traverse_sound image m pc :
  wf_image image -> (forall j, data_at m j = word image j) -> 0 <= pc ->
  xrefs_sound image m ->
  wlp (traverse pc)
    (fun _ m' => (forall j, data_at m' j = word image j) /\ xrefs_sound image m')
    (fun _ _ => True) m.
Proof.
  intros Hwf Hd Hpc Hok. unfold traverse.
  eapply wlp_mono;
    [apply (wlp_while_upto _ _ _
       (fun x m' => 0 <= x /\ (forall j, data_at m' j = word image j)
                    /\ xrefs_sound image m')
       (fun _ m' => (forall j, data_at m' j = word image j) /\ xrefs_sound image m'))
    | |done].
  - intros x m' (Hx & Hd' & Hok'). repeat wstep.
    destruct (x <=? last m'); [|done].
    by apply one_instruction_sound.
  - done.
  - simpl. tauto.
Qed.

Lemma before_entry_sound image m :
  wf_image image -> (forall j, data_at m j = word image j) -> xrefs_sound image m ->
  wlp before_entry
    (fun _ m' => (forall j, data_at m' j = word image j) /\ xrefs_sound image m')
    (fun _ _ => True) m.
Proof.
  intros Hwf Hd Hok. unfold before_entry.
  eapply wlp_mono;
    [apply (wlp_while_upto _ _ _
       (fun x m' => 0 <= x /\ (forall j, data_at m' j = word image j)
                    /\ xrefs_sound image m')
       (fun _ m' => (forall j, data_at m' j = word image j) /\ xrefs_sound image m'))
    | |done].
  - intros x m' (Hx & Hd' & Hok'). repeat wstep.
    destruct (x <? entry m'); [|done].
    pose proof (one_instruction_sound image (touch x m') x Hwf Hd' Hx Hok') as Hone.
    pose proof (one_instruction_sound image (touch x (touch x m')) x Hwf Hd' Hx Hok')
      as Hone'.
    repeat wstep; try done. split; [lia|split; [exact Hd'|exact Hok']].
  - split; [lia|split; assumption].
  - simpl. tauto.
Qed.

(** X12. When [preparation] ends on a loaded image, every entry [p] of a
    list [read_from], [write_from] or [jump_from] of the cell at [j] is the
    address of an instruction with opcode 4, opcode 6 or an opcode below 4
    respectively, and the word after that instruction holds [j]; and every
    jump instruction the main sweep traces is in the [jump_from] list of the
    cell its operand word names. *)
Theorem cross_references_sound (args : Args) (image : gmap Z Z) (mf : Machine) :
  wf_image image ->
  preparation args (load_excel image) = Done tt mf ->
  xrefs_sound image mf
  /\ forall pc, pc ∈ main_sweep image (entry mf) (last mf) ->
       opcode (word image pc) < 4 ->
       pc ∈ jump_from (cell_at mf (word image (pc + 1))).
Proof.
  intros Hwf Hrun.
  destruct (preparation_xrefs args image mf Hwf Hrun) as (_ & Htr).
  split; [|intros pc Hpc Hop; by apply (Htr pc Hpc)].
  destruct (preparation_phases args image mf Hwf Hrun)
    as (m2 & m3 & m4 & pc & x & (H3 & H4 & He2 & Hl2 & Hc2)
        & He & Her & _ & _ & _ & _ & _ & _ & Hc).
  assert (Hd2 : forall j, data_at m2 j = word image j).
  { intros j. unfold data_at. rewrite Hc2. by destruct (_ && _). }
  assert (Hok2 : xrefs_sound image m2).
  { intros j p. rewrite Hc2.
    destruct ((word image 0 =? 0) && (j =? word image 1)) eqn:Hb; simpl.
    - apply andb_true_iff in Hb as [H0%Z.eqb_eq H1%Z.eqb_eq].
      split; [|split]; intros Hin; try by apply elem_of_nil in Hin.
      apply list_elem_of_singleton in Hin as ->.
      split; [rewrite H0, opcode_0; lia|by subst j].
    - split; [|split]; intros Hin; by apply elem_of_nil in Hin. }
  pose proof (wlp_done _ _ _ _ _ _
                (traverse_sound image m2 _ Hwf Hd2 (proj1 Her) Hok2) H3) as (Hd3 & Hok3).
  pose proof (wlp_done _ _ _ _ _ _
                (before_entry_sound image m3 Hwf Hd3 Hok3) H4) as (_ & Hok4).
  intros j p. specialize (Hok4 j p). rewrite Hc. by case_decide.
Qed.

Lemma cross_references_sound_witness :
  ends_with (preparation args_hex (load_excel image_load_store))
    (fun mf => xrefs_sound image_load_store mf).
Proof.
  destruct (ends_with_inv _ _ image_load_store_run) as ([] & mf & Hrun & Hsw).
  rewrite Hrun. simpl.
  apply (cross_references_sound args_hex image_load_store mf image_load_store_wf Hrun).
Defined.

(** ** The main sweep covers the code *)

Lemma width_cases d : width d = 1 \/ width d = 2.
Proof. unfold width. case_match; auto. Qed.

Lemma sweep_covers image l fuel : forall pc a,
  (Z.to_nat (l + 1 - pc) < fuel)%nat -> pc <= a <= l ->
  a ∈ sweep_pcs image l fuel pc
  \/ exists p, p ∈ sweep_pcs image l fuel pc /\ a = p + 1 /\ opcode (word image p) < 7.
Proof.
  induction fuel as [|k IH]; intros pc a Hf Ha; [lia|].
  simpl. replace (pc <=? l) with true by lia.
  destruct (decide (a = pc)) as [->|Hne]; [left; by left|].
  destruct (decide (a < pc + width (word image pc))) as [Hlt|Hge].
  - right. exists pc. split; [by left|].
    unfold width in Hlt. case_match; [|lia]. split; lia.
  - destruct (width_cases (word image pc)).
    all: destruct (IH (pc + width (word image pc)) a ltac:(lia) ltac:(lia))
           as [Hin|(p & Hin & Hp)]; [left; by right|right; exists p; split; [by right|done]].
Qed.

(** ** An entry vector outside the list *)

(** X14. When word 0 is zero and word 1 is no index of the list of cells
    (below -65536, or 65536 and more), [preparation] raises [IndexError] at
    the first cell it subscripts with word 1; [entry] has been set to word 1
    by then, and no cell has been changed. *)
Theorem entry_vector_out_of_range (args : Args) (m : Machine) :
  data_at m 0 = 0 ->
  data_at m 1 < - NCELLS \/ NCELLS <= data_at m 1 ->
  exists m', preparation args m = Raised IndexError m'
    /\ entry m' = data_at m 1 /\ cells m' = cells m.
Proof.
  unfold data_at. intros H0 H1.
  assert (Hi : cell_index (data (cell_at m 1)) = None).
  { unfold cell_index, NCELLS in *. repeat case_match; try done; lia. }
  assert (H : wlp (preparation args) (fun _ _ => False)
                (fun e m' => e = IndexError /\ entry m' = data (cell_at m 1)
                             /\ cells m' = cells m) m).
  { unfold preparation. apply wlp_bind. unfold get_entry_point.
    wstep; wstep; [|by rewrite cell_index_0 in *].
    rewrite cell_index_0 in Hj. injection Hj as <-. rewrite H0.
    change (0 =? 0) with true. cbv iota.
    repeat wstep; rewrite ?cell_index_1 in *; simplify_eq; norm;
      try (rewrite Hi in *; discriminate); by repeat split. }
  pose proof (total_preparation args m) as Ht. unfold wlp in H.
  destruct (preparation args m) as [? m'|e m'|]; [done| |done].
  destruct H as (-> & ? & ?). by exists m'.
Qed.

Lemma entry_vector_out_of_range_witness :
  exists m', preparation args_hex (load_excel (list_to_map [(1, 70000)]))
             = Raised IndexError m'
    /\ entry m' = data_at (load_excel (list_to_map [(1, 70000)])) 1
    /\ cells m' = cells (load_excel (list_to_map [(1, 70000)])).
Proof.
  apply (entry_vector_out_of_range args_hex (load_excel (list_to_map [(1, 70000)]))).
  - reflexivity.
  - right. vm_compute. discriminate.
Defined.

(** ** The options and the tracer *)

Lemma cell_sim_refl c : cell_sim c c.
Proof. by repeat split. Qed.

Lemma sim_refl m : sim m m.
Proof. repeat split; try done; by intros. Qed.

Lemma sim_touch i m1 m2 : sim m1 m2 -> sim (touch i m1) (touch i m2).
Proof.
  intros (He & Hl & Hf & Ha & Hc). repeat split; simpl; try done; try congruence; apply Hc.
Qed.

Lemma sim_upd j f1 f2 i m1 m2 :
  (forall c1 c2, cell_sim c1 c2 -> cell_sim (f1 c1) (f2 c2)) ->
  sim m1 m2 -> sim (upd j f1 i m1) (upd j f2 i m2).
Proof.
  intros Hf (He & Hl & Hf' & Ha & Hc).
  split; [done|]. split; [done|]. split; [done|]. split; [simpl; congruence|].
  intros j'. rewrite !cell_at_upd. case_decide; [apply Hf|]; apply Hc.
Qed.

Section Related.
Context {A B : Type}.

Lemma rel_ret (RA : A -> A -> Prop) a1 a2 : RA a1 a2 -> related RA (ret a1) (ret a2).
Proof. intros H m1 m2 Hs. by split. Qed.

Lemma rel_raise (RA : A -> A -> Prop) e : related RA (raise e) (raise e).
Proof. intros m1 m2 Hs. by split. Qed.

Lemma rel_bind (RA : A -> A -> Prop) (RB : B -> B -> Prop) c1 c2 k1 k2 :
  related RA c1 c2 -> (forall a1 a2, RA a1 a2 -> related RB (k1 a1) (k2 a2)) ->
  related RB (bind c1 k1) (bind c2 k2).
Proof.
  intros Hc Hk m1 m2 Hs. specialize (Hc m1 m2 Hs). unfold bind, outcome_sim in *.
  destruct (c1 m1) as [a1 m1'|e1 m1'|], (c2 m2) as [a2 m2'|e2 m2'|]; try done.
  destruct Hc as [Ha Hs']. by apply Hk.
Qed.

Lemma rel_lift (r : res A) : related eq (lift r) (lift r).
Proof. destruct r; [by apply rel_ret|apply rel_raise]. Qed.
End Related.

Lemma rel_get_cell i : related cell_sim (get_cell i) (get_cell i).
Proof.
  intros m1 m2 Hs. unfold get_cell. destruct (cell_index i) as [j|]; simpl.
  - split; [apply Hs|by apply sim_touch].
  - split; [done|by apply sim_touch].
Qed.

Lemma rel_upd_cell i f1 f2 :
  (forall c1 c2, cell_sim c1 c2 -> cell_sim (f1 c1) (f2 c2)) ->
  related eq (upd_cell i f1) (upd_cell i f2).
Proof.
  intros Hf m1 m2 Hs. unfold upd_cell. destruct (cell_index i) as [j|]; simpl.
  - split; [done|by apply sim_upd].
  - split; [done|by apply sim_touch].
Qed.

Lemma rel_get_entry : related eq get_entry get_entry.
Proof. intros m1 m2 Hs. split; [apply Hs|done]. Qed.

Lemma rel_get_last : related eq get_last get_last.
Proof. intros m1 m2 Hs. split; [apply Hs|done]. Qed.

Lemma rel_set_entry e : related eq (set_entry e) (set_entry e).
Proof.
  intros m1 m2 (He & Hl & Hf & Ha & Hc). split; [done|].
  do 4 (split; [done|]). exact Hc.
Qed.

Lemma rel_set_last l : related eq (set_last l) (set_last l).
Proof.
  intros m1 m2 (He & Hl & Hf & Ha & Hc). split; [done|].
  do 4 (split; [done|]). exact Hc.
Qed.

Lemma rel_when b c1 c2 : related eq c1 c2 -> related eq (when b c1) (when b c2).
Proof. destruct b; [done|]. intros _. by apply rel_ret. Qed.

Lemma rel_while {St} fuel (cond1 cond2 : St -> M bool) (body1 body2 : St -> M St) :
  (forall x, related eq (cond1 x) (cond2 x)) ->
  (forall x, related eq (body1 x) (body2 x)) ->
  forall x, related eq (while fuel cond1 body1 x) (while fuel cond2 body2 x).
Proof.
  intros Hc Hb. induction fuel as [|k IH]; intros x; [by intros m1 m2 Hs|].
  simpl. eapply rel_bind; [apply Hc|]. intros b ? <-.
  destruct b; [|by apply rel_ret].
  eapply rel_bind; [apply Hb|]. intros x' ? <-. apply IH.
Qed.

Lemma rel_while_upto {St} bound (cond1 cond2 : St -> M bool) (body1 body2 : St -> M St) :
  (forall x m1 m2, sim m1 m2 -> bound x m1 = bound x m2) ->
  (forall x, related eq (cond1 x) (cond2 x)) ->
  (forall x, related eq (body1 x) (body2 x)) ->
  forall x, related eq (while_upto bound cond1 body1 x) (while_upto bound cond2 body2 x).
Proof.
  intros Hbound Hc Hb x m1 m2 Hs. unfold while_upto.
  rewrite (Hbound x m1 m2 Hs). by apply rel_while.
Qed.

(** The fields two related cells share. *)
Ltac use_sim H :=
  let Hd := fresh in let He := fresh in let H2 := fresh in
  let Hr := fresh in let Hw := fresh in let Hj := fresh in let Hl := fresh in
  destruct H as (Hd & He & H2 & Hr & Hw & Hj & Hl);
  rewrite ?Hd, ?He, ?H2, ?Hr, ?Hw, ?Hj.

Ltac rel1 :=
  cbv beta zeta;
  lazymatch goal with
  | |- related _ (bind (get_cell _) _) (bind (get_cell _) _) =>
      eapply rel_bind; [apply rel_get_cell|];
      let c1 := fresh "c" in let c2 := fresh "c" in let H := fresh "Hc" in
      intros c1 c2 H; pose proof H as ?Hsim; use_sim H
  | |- related _ (bind _ _) (bind _ _) =>
      eapply (rel_bind eq); [|intros ? ? <-]
  | |- related _ (ret _) (ret _) => by apply rel_ret
  | |- related _ (raise _) (raise _) => apply rel_raise
  | |- related _ (upd_cell _ _) (upd_cell _ _) => apply rel_upd_cell
  | |- related _ get_entry get_entry => apply rel_get_entry
  | |- related _ get_last get_last => apply rel_get_last
  | |- related _ (set_entry _) (set_entry _) => apply rel_set_entry
  | |- related _ (set_last _) (set_last _) => apply rel_set_last
  | |- related _ (when _ _) (when _ _) => apply rel_when
  | |- related _ (while _ _ _ _) (while _ _ _ _) =>
      apply rel_while; intros ?
  | |- related _ (while_upto _ _ _ _) (while_upto _ _ _ _) =>
      apply rel_while_upto;
      [intros ? ? ? (? & ? & _); simpl; congruence|intros ?|intros ?]
  | |- related _ (if ?b then _ else _) (if ?b then _ else _) => destruct b
  | |- related _ (match label ?c1 with _ => _ end) (match label ?c2 with _ => _ end) =>
      let H1 := fresh in let H2 := fresh in
      destruct (label c1) eqn:H1, (label c2) eqn:H2;
      [|exfalso; by match goal with H : _ <-> _ |- _ => destruct H as [_ H]; specialize (H eq_refl) end
       |exfalso; by match goal with H : _ <-> _ |- _ => destruct H as [H _]; specialize (H eq_refl) end|]
  | |- related _ (match ?o with _ => _ end) (match ?o with _ => _ end) => destruct o
  end.

Lemma sim_set_label l1 l2 c1 c2 :
  cell_sim c1 c2 -> cell_sim (set_label (Some l1) c1) (set_label (Some l2) c2).
Proof.
  intros (? & ? & ? & ? & ? & ? & ?). repeat split; simpl; try done; intros; discriminate.
Qed.

Lemma sim_set_exec_from_prev p c1 c2 :
  cell_sim c1 c2 -> cell_sim (set_exec_from_prev p c1) (set_exec_from_prev p c2).
Proof. intros (? & ? & ? & ? & ? & ? & ?). unfold cell_sim. simpl. intuition congruence. Qed.

Lemma sim_set_is_2nd_word b c1 c2 :
  cell_sim c1 c2 -> cell_sim (set_is_2nd_word b c1) (set_is_2nd_word b c2).
Proof. intros (? & ? & ? & ? & ? & ? & ?). unfold cell_sim. simpl. intuition congruence. Qed.

Lemma sim_jump_from_append a c1 c2 :
  cell_sim c1 c2 -> cell_sim (jump_from_append a c1) (jump_from_append a c2).
Proof. intros (? & ? & ? & ? & ? & ? & ?). unfold cell_sim. simpl. intuition congruence. Qed.

Lemma sim_read_from_append a c1 c2 :
  cell_sim c1 c2 -> cell_sim (read_from_append a c1) (read_from_append a c2).
Proof. intros (? & ? & ? & ? & ? & ? & ?). unfold cell_sim. simpl. intuition congruence. Qed.

Lemma sim_write_from_append a c1 c2 :
  cell_sim c1 c2 -> cell_sim (write_from_append a c1) (write_from_append a c2).
Proof. intros (? & ? & ? & ? & ? & ? & ?). unfold cell_sim. simpl. intuition congruence. Qed.

#[local] Hint Resolve sim_set_label sim_set_exec_from_prev sim_set_is_2nd_word
  sim_jump_from_append sim_read_from_append sim_write_from_append : frames.

Lemma one_instruction_related pc : related eq (one_instruction pc) (one_instruction pc).
Proof. unfold one_instruction. repeat rel1; eauto with frames. Qed.

Lemma preparation_related args1 args2 :
  related eq (preparation args1) (preparation args2).
Proof.
  unfold preparation, get_entry_point, find_last, traverse, before_entry, set_labels.
  repeat first [apply one_instruction_related|rel1]; eauto with frames.
Qed.

(** X15. The options and the tracer: run from the same state under any two
    command lines, [preparation] ends the same way (normally, or with the
    same exception) after subscripting [cells] at the same indices, and the
    two final states have the same [entry], [last], words, cross-reference
    lists, second-word marks and [exec_from_prev] links and labels on the
    same cells; only the text of a label can differ. When the two command
    lines select the same address style the two runs are equal, labels
    included. *)
Theorem preparation_config_independent (args1 args2 : Args) (m : Machine) :
  outcome_sim eq (preparation args1 m) (preparation args2 m)
  /\ (address_style args1 = address_style args2 ->
      preparation args1 m = preparation args2 m).
Proof.
  split; [apply preparation_related, sim_refl|].
  intros Hs. unfold preparation, get_entry_point, set_labels, Address_str, Address_tab_pad.
  by rewrite Hs.
Qed.

(** ** Running the tracer a second time *)

(** The tracer from any state that holds the words of an image whose highest
    non-zero word is at [a], at most 65533: it ends normally, in a state
    that satisfies the invariant. *)
Lemma preparation_safe_from args image a m :
  wf_image image ->
  0 <= a -> a + 2 < NCELLS -> word image a <> 0 ->
  (forall b, a < b < NCELLS -> word image b = 0) ->
  in_bounds m -> (forall j, data_at m j = word image j) ->
  exists m', preparation args m = Done tt m'
    /\ safe_inv image (if word image 0 =? 0 then word image 1 else 0) a m'.
Proof.
  intros Hwf Ha Ha2 Hnz Hz Hb Hd.
  set (e := if word image 0 =? 0 then word image 1 else 0).
  assert (He : 0 <= e < NCELLS).
  { subst e. case_match; [by apply word_range|unfold NCELLS; lia]. }
  pose proof (word_range image 1 Hwf) as Hw1.
  destruct (wlp_total_done (get_entry_point args) _ m (total_get_entry_point args)
              (wlp_mono _ _ _ _ _ _
                 (wlp_conj _ _ _ _ _ _ (get_entry_point_spec args m)
                    (get_entry_point_bounds args m Hb ltac:(by rewrite Hd)))
                 (fun _ _ H => H)
                 ltac:(intros ? ? [H _]; rewrite Hd, cell_index_range in H by done;
                       discriminate)))
    as ([] & m1 & H1 & (_ & _ & Hc1) & Hb1).
  rewrite !Hd in Hc1.
  assert (He1 : entry m1 = e /\ forall j, data_at m1 j = word image j).
  { subst e. unfold data_at. destruct (word image 0 =? 0).
    - destruct Hc1 as (-> & j & _ & Hc1). split; [done|]. intros j'. rewrite Hc1.
      case_decide; subst; apply Hd.
    - destruct Hc1 as (-> & Hc1). split; [done|]. intros j. rewrite Hc1. apply Hd. }
  destruct He1 as (He1 & Hd1).
  destruct (wlp_total_done find_last _ m1 total_find_last
              (find_last_spec m1 a ltac:(unfold NCELLS in *; lia)
                 ltac:(by rewrite Hd1) ltac:(intros; rewrite Hd1; by apply Hz)))
    as ([] & m2 & H2 & Hl2 & Hc2 & He2 & _ & Hb2).
  assert (Hs2 : safe_inv image e a m2).
  { split; [by apply Hb2|]. split; [|split; congruence].
    intros j. unfold data_at, cell_at. rewrite Hc2. apply Hd1. }
  assert (Hrest : hoare (safe_inv image e a) (fun _ => False)
            (let* pc := traverse e in before_entry >> set_labels args >> ret tt)
            (fun _ => True)).
  { hstep.
    - apply traverse_safe; try done. lia.
    - hstep; [by apply before_entry_safe|].
      hstep; [by apply set_labels_safe|]. by hstep. }
  pose proof (Hrest m2 Hs2) as Hw. unfold wlp in Hw.
  pose proof (total_preparation args m) as Htot.
  unfold preparation in *. unfold bind at 1 in Htot. unfold bind at 1.
  rewrite H1 in *. unfold bind at 1 in Htot. unfold bind at 1.
  unfold get_entry at 1 in Htot. unfold get_entry at 1.
  unfold bind at 1 in Htot. unfold bind at 1. rewrite H2 in *. rewrite He1 in *.
  destruct (bind (traverse e) _ m2) as [[] m3|e' m3|]; [|by destruct Hw|done].
  exists m3. split; [done|]. by destruct Hw.
Qed.

Lemma cell_le_final_label args c pc : cell_le c (set_label (final_label args c pc) c).
Proof. split; simpl; try done. intros l Hl. unfold final_label. by rewrite Hl. Qed.

(** X16. [preparation] run a second time on the state it left: on a loaded
    image of 16-bit words whose highest non-zero word is at an address no
    greater than 65533 both runs end normally; the second keeps [entry],
    [last], every word, label and second-word mark, and appends to the lists
    of cross-references, which are never reset: after it, the list
    [jump_from] of the entry of an image that starts with a zero word holds
    the origin 0 once more. *)
Theorem preparation_twice (args : Args) (image : gmap Z Z) (a : Z) :
  wf_image image ->
  0 <= a <= 65533 -> word image a <> 0 ->
  (forall b, a < b < NCELLS -> word image b = 0) ->
  exists m1 m2,
    preparation args (load_excel image) = Done tt m1
    /\ preparation args m1 = Done tt m2
    /\ entry m2 = entry m1 /\ last m2 = last m1
    /\ (forall j, cell_le (cell_at m1 j) (cell_at m2 j))
    /\ (word image 0 = 0 ->
        (jump_from (cell_at m1 (word image 1)) ++ [0])%list
          `prefix_of` jump_from (cell_at m2 (word image 1))).
Proof.
  intros Hwf Ha Hnz Hz.
  destruct (preparation_safe args image a Hwf ltac:(lia) ltac:(unfold NCELLS; lia) Hnz Hz)
    as (m1 & Hrun1 & Hb1 & Hd1 & He1 & Hl1).
  destruct (preparation_safe_from args image a m1 Hwf ltac:(lia)
              ltac:(unfold NCELLS; lia) Hnz Hz Hb1 Hd1)
    as (m2 & Hrun2 & _ & _ & He2 & Hl2).
  exists m1, m2. do 2 (split; [done|]). split; [congruence|]. split; [congruence|].
  pose proof (word_range image 1 Hwf) as Hw1.
  assert (Hlab1 : word image 0 = 0 ->
            label (cell_at m1 (word image 1)) = Some (entry_label args (word image 1))).
  { intros H0.
    destruct (preparation_loaded args image m1 Hwf Hrun1)
      as (m4 & _ & _ & _ & _ & _ & _ & Hlab & _ & Hc).
    specialize (Hlab (word image 1)).
    rewrite H0, (Z.eqb_refl (word image 1)) in Hlab. simpl in Hlab.
    rewrite Hc. case_decide; [|done]. simpl. unfold final_label. by rewrite Hlab. }
  apply preparation_inv in Hrun2
    as (n1 & n2 & n3 & n4 & pc & x & y & G1 & G2 & G3 & G4 & G5).
  pose proof (wlp_done _ _ _ _ _ _ (get_entry_point_spec args m1) G1) as (_ & _ & Hc1).
  pose proof (wlp_done _ _ _ _ _ _ (find_last_done n1) G2)
    as (Hlr & _ & _ & Hc2 & He2' & _).
  pose proof (wlp_done _ _ _ _ _ _ (traverse_swept (entry n1) n2) G3) as Hs3.
  pose proof (wlp_done _ _ _ _ _ _ (before_entry_swept n3) G4) as Hs4.
  pose proof (lifted_swept_trans _ _ _ Hs3 Hs4) as (Hc4 & He4 & Hl4).
  rewrite !Hd1 in Hc1.
  assert (Hn1 : entry n1 = (if word image 0 =? 0 then word image 1 else 0)
                /\ (forall j, cell_le (cell_at m1 j) (cell_at n1 j))
                /\ (word image 0 = 0 ->
                    jump_from (cell_at n1 (word image 1))
                    = (jump_from (cell_at m1 (word image 1)) ++ [0])%list)).
  { destruct (word image 0 =? 0) eqn:H0.
    - apply Z.eqb_eq in H0. destruct Hc1 as (-> & j & Hj & Hc1).
      rewrite cell_index_range in Hj by done. injection Hj as <-.
      split; [done|]. split.
      + intros j. rewrite Hc1. case_decide; [subst j|apply cell_le_refl].
        split; simpl; try done; [|by apply prefix_app_r].
        intros l Hl. rewrite (Hlab1 H0) in Hl. congruence.
      + intros _. rewrite Hc1. by rewrite decide_True.
    - apply Z.eqb_neq in H0. destruct Hc1 as (-> & Hc1).
      split; [done|]. split; [|done].
      intros j. rewrite Hc1. apply cell_le_refl. }
  destruct Hn1 as (En1 & Hle1 & Hj1).
  assert (Hc21 : forall j, cell_at n2 j = cell_at n1 j)
    by (intros j; unfold cell_at; by rewrite Hc2).
  assert (He4' : 0 <= entry n4).
  { rewrite He4, He2', En1. case_match; lia. }
  pose proof (wlp_done _ _ _ _ _ _
    (set_labels_spec args n4 He4' ltac:(lia)) G5) as (_ & _ & _ & Hc5).
  assert (Hle : forall j, cell_le (cell_at n1 j) (cell_at m2 j)).
  { intros j. rewrite <- Hc21. eapply cell_le_trans; [apply (Hc4 j)|].
    rewrite Hc5. case_decide; [apply cell_le_final_label|apply cell_le_refl]. }
  split.
  - intros j. eapply cell_le_trans; [apply Hle1|apply Hle].
  - intros H0. rewrite <- (Hj1 H0). apply Hle.
Qed.

Lemma preparation_twice_witness :
  exists m1 m2,
    preparation args_hex (load_excel image_add_clc) = Done tt m1
    /\ preparation args_hex m1 = Done tt m2
    /\ entry m2 = entry m1 /\ last m2 = last m1
    /\ (forall j, cell_le (cell_at m1 j) (cell_at m2 j))
    /\ (word image_add_clc 0 = 0 ->
        (jump_from (cell_at m1 (word image_add_clc 1)) ++ [0])%list
          `prefix_of` jump_from (cell_at m2 (word image_add_clc 1))).
Proof.
  apply (preparation_twice args_hex image_add_clc 3).
  - apply image_add_clc_wf.
  - lia.
  - vm_compute. discriminate.
  - apply zero_above_check. vm_compute. reflexivity.
Defined.

(** ** The links [exec_from_prev] *)

Lemma one_instruction_exec m pc :
  0 <= pc -> 0 <= data_at m (pc + 1) < NCELLS ->
  wlp (one_instruction pc)
    (fun pc' m' =>
       forall j, exec_from_prev (cell_at m' j) =
         if decide (data_at m pc <> 0 /\ j = pc + width (data_at m pc))
         then Some pc else exec_from_prev (cell_at m j))
    (fun _ _ => True) m.
Proof.
  unfold data_at, width. intros Hpc Ht. unfold one_instruction.
  repeat (wstep; pos_range; norm; try done).
  all: repeat match goal with H : (_ <? _) = _ |- _ => rewrite H end.
  all: intros j0; repeat (rewrite ?cell_at_upd, ?cell_at_touch);
    repeat case_decide; subst; simpl; try reflexivity; try lia;
    repeat match goal with H : _ /\ _ |- _ => destruct H end; try lia; try congruence.
Qed.

Lemma one_instruction_links image m pc :
  wf_image image -> (forall j, data_at m j = word image j) -> 0 <= pc ->
  links_ok image m ->
  wlp (one_instruction pc)
    (fun pc' m' => 0 <= pc' /\ (forall j, data_at m' j = word image j)
                   /\ links_ok image m'
                   /\ (word image pc <> 0 ->
                       exec_from_prev (cell_at m' (pc + width (word image pc))) = Some pc))
    (fun _ _ => True) m.
Proof.
  intros Hwf Hd Hpc Hok.
  eapply wlp_mono;
    [apply (wlp_conj _ _ _ _ _ _
              (one_instruction_exec m pc Hpc ltac:(rewrite Hd; by apply word_range))
              (one_instruction_image image m pc Hwf Hd Hpc))| |done].
  simpl. intros pc' m' (Hx & (Hpc' & _ & Hd' & _)).
  rewrite !Hd in *.
  split; [unfold width in Hpc'; case_match; lia|]. split; [done|]. split.
  - intros j p Hp. rewrite Hx in Hp.
    case_decide as Hdec; [injection Hp as <-; exact Hdec|exact (Hok j p Hp)].
  - intros Hnz. rewrite Hx. by rewrite decide_True.
Qed.

Lemma traverse_links image m pc :
  wf_image image -> (forall j, data_at m j = word image j) -> 0 <= pc ->
  links_ok image m ->
  wlp (traverse pc)
    (fun _ m' => (forall j, data_at m' j = word image j) /\ links_ok image m')
    (fun _ _ => True) m.
Proof.
  intros Hwf Hd Hpc Hok. unfold traverse.
  eapply wlp_mono;
    [apply (wlp_while_upto _ _ _
       (fun x m' => 0 <= x /\ (forall j, data_at m' j = word image j)
                    /\ links_ok image m')
       (fun _ m' => (forall j, data_at m' j = word image j) /\ links_ok image m'))
    | |done].
  - intros x m' (Hx & Hd' & Hok'). repeat wstep.
    destruct (x <=? last m'); [|done].
    eapply wlp_mono; [by apply (one_instruction_links image)| |done].
    simpl. tauto.
  - done.
  - simpl. tauto.
Qed.

Lemma before_entry_links image m :
  wf_image image -> (forall j, data_at m j = word image j) -> links_ok image m ->
  wlp before_entry
    (fun _ m' => (forall j, data_at m' j = word image j) /\ links_ok image m')
    (fun _ _ => True) m.
Proof.
  intros Hwf Hd Hok. unfold before_entry.
  eapply wlp_mono;
    [apply (wlp_while_upto _ _ _
       (fun x m' => 0 <= x /\ (forall j, data_at m' j = word image j)
                    /\ links_ok image m')
       (fun _ m' => (forall j, data_at m' j = word image j) /\ links_ok image m'))
    | |done].
  - intros x m' (Hx & Hd' & Hok'). repeat wstep.
    destruct (x <? entry m'); [|done].
    assert (Hone : forall m0, (forall j, data_at m0 j = word image j) -> links_ok image m0 ->
              wlp (one_instruction x)
                (fun x' m'' => 0 <= x' /\ (forall j, data_at m'' j = word image j)
                               /\ links_ok image m'')
                (fun _ _ => True) m0).
    { intros m0 Hd0 Hok0.
      eapply wlp_mono; [by apply (one_instruction_links image)| |done]. simpl. tauto. }
    pose proof (Hone (touch x m') Hd' Hok').
    pose proof (Hone (touch x (touch x m')) Hd' Hok').
    repeat wstep; try done. split; [lia|split; [exact Hd'|exact Hok']].
  - split; [lia|split; assumption].
  - simpl. tauto.
Qed.

Lemma exec_kept_refl c : exec_kept c c.
Proof. by intros ?. Qed.

Lemma exec_kept_trans c1 c2 c3 : exec_kept c1 c2 -> exec_kept c2 c3 -> exec_kept c1 c3.
Proof. unfold exec_kept. auto. Qed.

Lemma one_instruction_kept pc : steps (lifted exec_kept) (one_instruction pc).
Proof.
  unfold one_instruction. st; try exact exec_kept_refl; try exact exec_kept_trans.
  all: intros c; unfold exec_kept; simpl; congruence.
Qed.

Lemma sweep_loop_kept fuel pc :
  steps (lifted exec_kept)
    (while fuel (fun pc => let* l := get_last in ret (pc <=? l)) one_instruction pc).
Proof.
  apply steps_while; try exact exec_kept_refl; try exact exec_kept_trans.
  - intros x. st; try exact exec_kept_refl; exact exec_kept_trans.
  - apply one_instruction_kept.
Qed.

Lemma before_entry_kept : steps (lifted exec_kept) before_entry.
Proof.
  apply steps_while_upto; try exact exec_kept_refl; try exact exec_kept_trans.
  - intros x. st; try exact exec_kept_refl; exact exec_kept_trans.
  - intros x. st; try exact exec_kept_refl; try exact exec_kept_trans;
      apply one_instruction_kept.
Qed.

Lemma while_sweep_exec image l fuel : forall pc m pcf m',
  wf_image image -> (forall j, data_at m j = word image j) -> 0 <= pc -> last m = l ->
  while fuel (fun pc => let* l := get_last in ret (pc <=? l)) one_instruction pc m
    = Done pcf m' ->
  forall p, p ∈ sweep_pcs image l fuel pc -> word image p <> 0 ->
    exec_from_prev (cell_at m' (p + width (word image p))) <> None.
Proof.
  induction fuel as [|k IH]; intros pc m pcf m' Hwf Hd Hpc Hl Hrun; [done|].
  simpl in Hrun. unfold bind at 1 2 in Hrun. unfold get_last, ret in Hrun.
  simpl. rewrite Hl in Hrun.
  destruct (pc <=? l) eqn:Hc.
  - unfold bind in Hrun.
    destruct (one_instruction pc m) as [pc1 m1| |] eqn:H1; [|done..].
    pose proof (wlp_done _ _ _ _ _ _ (one_instruction_image image m pc Hwf Hd Hpc) H1)
      as (Hpc1 & Hs1 & Hd1 & _). simpl in *.
    assert (Hx : forall j, exec_from_prev (cell_at m1 j) =
         if decide (data_at m pc <> 0 /\ j = pc + width (data_at m pc))
         then Some pc else exec_from_prev (cell_at m j)).
    { apply (wlp_done _ _ _ _ _ _
               (one_instruction_exec m pc Hpc ltac:(rewrite Hd; by apply word_range)) H1). }
    assert (0 <= pc1) by (unfold width in Hpc1; case_match; lia).
    assert (last m1 = l) by (destruct Hs1 as (_ & _ & ->); done).
    pose proof (wlp_done _ _ _ _ _ _ (sweep_loop_kept k pc1 m1) Hrun) as (Hk & _).
    intros p [->|Hp]%elem_of_cons Hnz.
    + apply Hk. rewrite Hx, Hd. by rewrite decide_True.
    + apply (IH pc1 m1 pcf m'); try done. by rewrite Hpc1.
  - intros p Hp. by apply elem_of_nil in Hp.
Qed.

(** X17. When [preparation] ends on a loaded image, every link
    [exec_from_prev] of a cell leads back to an instruction whose word is not
    zero and that ends right before the cell; and the cell after every
    instruction of the main sweep whose word is not zero has such a link. *)
Theorem exec_links (args : Args) (image : gmap Z Z) (mf : Machine) :
  wf_image image ->
  preparation args (load_excel image) = Done tt mf ->
  links_ok image mf
  /\ forall p, p ∈ main_sweep image (entry mf) (last mf) -> word image p <> 0 ->
       exec_from_prev (cell_at mf (p + width (word image p))) <> None.
Proof.
  intros Hwf Hrun.
  destruct (preparation_phases args image mf Hwf Hrun)
    as (m2 & m3 & m4 & pc & x & (H3 & H4 & He2 & Hl2 & Hc2)
        & He & Her & _ & _ & _ & _ & _ & _ & Hc).
  assert (Hd2 : forall j, data_at m2 j = word image j).
  { intros j. unfold data_at. rewrite Hc2. by destruct (_ && _). }
  assert (Hok2 : links_ok image m2).
  { intros j p. rewrite Hc2. by destruct (_ && _). }
  pose proof (wlp_done _ _ _ _ _ _
                (traverse_links image m2 _ Hwf Hd2 (proj1 Her) Hok2) H3) as (Hd3 & Hok3).
  pose proof (wlp_done _ _ _ _ _ _
                (before_entry_links image m3 Hwf Hd3 Hok3) H4) as (_ & Hok4).
  assert (Hsame : forall j, exec_from_prev (cell_at mf j) = exec_from_prev (cell_at m4 j)).
  { intros j. rewrite Hc. by case_decide. }
  split.
  - intros j p. rewrite Hsame. apply Hok4.
  - intros p Hp Hnz. rewrite Hsame.
    pose proof (wlp_done _ _ _ _ _ _ (before_entry_kept m3) H4) as (Hk & _).
    apply Hk. unfold traverse, while_upto in H3.
    apply (while_sweep_exec image (last m2) _ _ _ _ _ Hwf Hd2 (proj1 Her) eq_refl H3);
      [|done].
    rewrite He, <- Hl2 in Hp. exact Hp.
Qed.

Lemma exec_links_witness :
  ends_with (preparation args_hex (load_excel image_load_store))
    (fun mf => links_ok image_load_store mf).
Proof.
  destruct (ends_with_inv _ _ image_load_store_run) as ([] & mf & Hrun & Hsw).
  rewrite Hrun. simpl.
  apply (exec_links args_hex image_load_store mf image_load_store_wf Hrun).
Defined.

(** ** Labels name one cell *)

Lemma string_forall_impl (P Q : ascii -> bool) s :
  (forall c, P c = true -> Q c = true) ->
  string_forall P s = true -> string_forall Q s = true.
Proof.
  intros HPQ. induction s as [|c s IH]; simpl; [done|].
  intros [Hc Hs]%andb_true_iff. rewrite (HPQ c Hc). simpl. auto.
Qed.

Lemma hex_char_visible c : hex_char c = true -> visible c = true.
Proof. intros H%hex_char_ord. unfold visible. lia. Qed.

Lemma is_digit_visible c : Py.is_digit c = true -> visible c = true.
Proof. unfold Py.is_digit, visible. lia. Qed.

Lemma str_visible n : 0 <= n -> string_forall visible (Py.str n) = true.
Proof.
  intros Hn. unfold Py.str. replace (n <? 0) with false by lia.
  eapply string_forall_impl; [apply is_digit_visible|by apply digits_10_chars].
Qed.

Lemma letter_visible x : 0 <= x < 26 -> visible (Py.chr (x + 65)) = true.
Proof. intros Hx. unfold visible. rewrite ord_chr by lia. lia. Qed.

Lemma to_str_visible style a :
  0 <= a -> string_forall visible (Address.to_str style a) = true.
Proof.
  intros Ha. destruct style; simpl.
  - by apply str_visible.
  - eapply string_forall_impl; [apply hex_char_visible|].
    unfold Address.to_hex, Py.format_X. replace (a <? 0) with false by lia.
    rewrite Z.abs_eq by lia. change ("" ++ ?s) with s.
    rewrite string_forall_app, zeros_hex. simpl. apply digits_hex_chars; lia.
  - rewrite !string_forall_app. simpl.
    rewrite !str_visible; [done|apply Z.mod_pos_bound; lia|apply Z.div_pos; lia].
  - unfold Address.to_excel, Address.to_row_col.
    pose proof (Z.mod_pos_bound a 256 ltac:(lia)) as Hc.
    assert (0 <= a / 256) by (apply Z.div_pos; lia).
    destruct (26 <=? a mod 256) eqn:H26; simpl.
    + rewrite letter_visible, letter_visible, str_visible; [done|lia| |].
      * apply Z.mod_pos_bound. lia.
      * split; [apply Z.div_pos; lia|]. apply Z.div_lt_upper_bound; lia.
    + rewrite letter_visible, str_visible; [done|lia|lia].
Qed.

Lemma pad_inj s1 : forall s2 p1 p2,
  string_forall visible s1 = true -> string_forall visible s2 = true ->
  (p1 = Py.TAB \/ p1 = "") -> (p2 = Py.TAB \/ p2 = "") ->
  s1 ++ p1 = s2 ++ p2 -> s1 = s2.
Proof.
  induction s1 as [|c1 s1 IH]; intros [|c2 s2] p1 p2 H1 H2 Hp1 Hp2 Heq; [done| | |].
  - exfalso. simpl in *. apply andb_true_iff in H2 as [Hc _].
    destruct Hp1 as [-> | ->]; [|done]. injection Heq as <- _. by vm_compute in Hc.
  - exfalso. simpl in *. apply andb_true_iff in H1 as [Hc _].
    destruct Hp2 as [-> | ->]; [|done]. injection Heq as -> _. by vm_compute in Hc.
  - simpl in *. apply andb_true_iff in H1 as [_ H1]. apply andb_true_iff in H2 as [_ H2].
    injection Heq as -> Heq. f_equal. by apply (IH s2 p1 p2).
Qed.

Lemma pad_cases (b : bool) :
  (if b then Py.TAB else "") = Py.TAB \/ (if b then Py.TAB else "") = "".
Proof. destruct b; auto. Qed.

Lemma tab_pad_inj style a b :
  0 <= a -> 0 <= b -> Address.tab_pad style a = Address.tab_pad style b -> a = b.
Proof.
  intros Ha Hb Heq. unfold Address.tab_pad in Heq.
  assert (Hs : Address.to_str style a = Address.to_str style b).
  { eapply (pad_inj _ _ _ _ (to_str_visible style a Ha) (to_str_visible style b Hb));
      [| |exact Heq]; apply pad_cases. }
  pose proof (to_str_reader style a Ha) as Ra.
  pose proof (to_str_reader style b Hb) as Rb.
  rewrite Hs in Ra. rewrite Ra in Rb. by injection Rb.
Qed.

(** X18. When [preparation] ends on a loaded image, no two cells carry the
    same label: the text of a label determines the address it names. *)
Theorem labels_unique (args : Args) (image : gmap Z Z) (mf : Machine) :
  wf_image image ->
  preparation args (load_excel image) = Done tt mf ->
  forall a b l,
    label (cell_at mf a) = Some l -> label (cell_at mf b) = Some l -> a = b.
Proof.
  intros Hwf Hrun.
  apply preparation_loaded in Hrun
    as (m4 & He & Her & Hl & _ & _ & _ & Hlab & _ & Hc); [|done].
  assert (Hkind : forall a l, label (cell_at mf a) = Some l ->
            (a = word image 1 /\ l = entry_label args a)
            \/ (0 <= a /\ l = loc_label args a)).
  { intros a l. rewrite Hc. specialize (Hlab a). case_decide.
    - cbn [label set_label]. unfold final_label. rewrite Hlab.
      destruct ((word image 0 =? 0) && (a =? word image 1)) eqn:Hb.
      + intros [= <-]. left. apply andb_true_iff in Hb as [_ ?%Z.eqb_eq]. by split.
      + destruct (negb _ && _); [|done]. intros [= <-]. right. split; [lia|done].
    - rewrite Hlab.
      destruct ((word image 0 =? 0) && (a =? word image 1)) eqn:Hb; [|done].
      intros [= <-]. left. apply andb_true_iff in Hb as [_ ?%Z.eqb_eq]. by split. }
  intros a b l Ha Hb.
  destruct (Hkind a l Ha) as [[-> ->]|[Ha0 ->]], (Hkind b _ Hb) as [[-> Hl']|[Hb0 Hl']].
  - done.
  - unfold entry_label, loc_label in Hl'. simpl in Hl'. discriminate.
  - unfold entry_label, loc_label in Hl'. simpl in Hl'. discriminate.
  - unfold loc_label in Hl'. simpl in Hl'. injection Hl' as Hl'.
    by apply (tab_pad_inj (address_style args)).
Qed.

Lemma labels_unique_witness :
  ends_with (preparation args_hex (load_excel image_add_clc))
    (fun mf => forall a b l,
       label (cell_at mf a) = Some l -> label (cell_at mf b) = Some l -> a = b).
Proof.
  destruct (is_done_inv _ image_add_clc_done) as ([] & mf & Hrun).
  rewrite Hrun. simpl.
  apply (labels_unique args_hex image_add_clc mf image_add_clc_wf Hrun).
Defined.

(** ** The code section lists the main sweep *)

#[local] Instance listing_invariant (m0 : Machine) :
  Invariant (emitted m0) (fun _ => True)
    (fun _ => True)
    (fun i c => forall j, cell_index i = Some j -> c = cell_at m0 j)
    (fun _ => False) (entry m0) (last m0).
Proof.
  split.
  - intros i m _ (Hc & He & Hl & Hf). destruct (cell_index i) as [j|] eqn:Hi.
    + split; [by repeat split|]. intros j' [= <-]. unfold cell_at. by rewrite Hc.
    + split; [by repeat split|done].
  - intros i f m _ [].
  - intros s m (Hc & He & Hl & Hf). repeat split; simpl; try done.
    etrans; [exact Hf|]. by apply prefix_app_r.
  - by intros m (_ & He & _).
  - by intros m (_ & _ & Hl & _).
Qed.

Lemma output_instruction_result args pc m :
  0 <= pc < NCELLS ->
  wlp (output_instruction args pc)
    (fun pc' m' => emitted m m' /\ pc' = pc + width (data_at m pc))
    (fun _ m' => emitted m m' /\ True) m.
Proof.
  intros Hpc.
  cut (hoare (emitted m) (fun _ => True) (output_instruction args pc)
         (fun pc' => pc' = pc + width (data_at m pc))).
  { intros H. apply H, emitted_refl. }
  unfold output_instruction.
  hstep_any; [done|]. rename H into Hc.
  hstep_any; [done|].
  do 3 (hstep_any; [repeat hstep_any; done|]).
  eapply (hoare_bind _ _ (fun _ => True)).
  { unfold output_operands. repeat hstep_any; done. }
  intros unused_bits _.
  do 8 (hstep_any; [repeat hstep_any; done|]).
  hstep_any. rewrite (Hc pc (cell_index_range pc Hpc)).
  unfold width, data_at. repeat case_match; lia.
Qed.

Lemma bind_Done {A B} (c : M A) (k : A -> M B) m a m' :
  c m = Done a m' -> bind c k m = k a m'.
Proof. unfold bind. by intros ->. Qed.

Lemma bind_Raised {A B} (c : M A) (k : A -> M B) m e m' :
  c m = Raised e m' -> bind c k m = Raised e m'.
Proof. unfold bind. by intros ->. Qed.

Lemma bind_OutOfFuel {A B} (c : M A) (k : A -> M B) m :
  c m = OutOfFuel -> bind c k m = OutOfFuel.
Proof. unfold bind. by intros ->. Qed.

Lemma bind_assoc {A B C} (c : M A) (k : A -> M B) (k' : B -> M C) m :
  bind (bind c k) k' m = bind c (fun a => bind (k a) k') m.
Proof. unfold bind. by destruct (c m). Qed.

Lemma listing_loop args image l fuel : forall pc m,
  (forall j, data_at m j = word image j) -> last m = l -> l < NCELLS -> 0 <= pc ->
  (Z.to_nat (l + 1 - pc) < fuel)%nat ->
  (while fuel (fun pc => let* l := get_last in ret (pc <=? l))
     (output_instruction args) pc >> ret tt) m
  = for_each (sweep_pcs image l fuel pc)
      (fun pc => output_instruction args pc >> ret tt) m.
Proof.
  induction fuel as [|k IH]; intros pc m Hd Hl Hr Hpc Hf; [lia|].
  cbn [while sweep_pcs].
  rewrite bind_assoc. unfold bind at 1. unfold bind at 1. unfold get_last at 1.
  unfold ret at 1. rewrite Hl.
  destruct (pc <=? l) eqn:Hc; [|done].
  cbn [for_each]. rewrite !bind_assoc.
  pose proof (output_instruction_result args pc m ltac:(lia)) as Hres.
  unfold wlp in Hres.
  destruct (output_instruction args pc m) as [pc' m'|e m'|] eqn:Hoi.
  - rewrite !(bind_Done _ _ _ _ _ Hoi).
    destruct Hres as ((Hcells & _ & Hl' & _) & ->). rewrite Hd.
    unfold ret at 2. cbv beta.
    assert (Hd' : forall j, data_at m' j = word image j).
    { intros j. unfold data_at, cell_at. rewrite Hcells. apply Hd. }
    pose proof (width_cases (word image pc)).
    apply (IH _ m' Hd'); [congruence|done|lia|lia].
  - by rewrite !(bind_Raised _ _ _ _ _ Hoi).
  - by rewrite !(bind_OutOfFuel _ _ _ Hoi).
Qed.

Lemma output_preamble_emitted args now : steps emitted (output_preamble args now).
Proof.
  unfold output_preamble, output_vector_warnings, output_data.
  repeat fr1; eauto with frames.
Qed.

(** From a state that holds the words of an image, [output] is its preamble
    followed by [output_instruction] at each address of the main sweep. *)
Lemma output_as_listing (args : Args) (now : string) (image : gmap Z Z)
    (m : Machine) :
  (forall j, data_at m j = word image j) -> 0 <= entry m -> last m < NCELLS ->
  output args now m
  = (output_preamble args now >>
     for_each (main_sweep image (entry m) (last m))
       (fun pc => output_instruction args pc >> ret tt)) m.
Proof.
  intros Hd He Hl.
  assert (Hsplit : output args now m
    = (output_preamble args now >>
       (let* pc := get_entry in
        while_upto (fun pc m => last m + 1 - pc)
          (fun pc => let* l := get_last in ret (pc <=? l))
          (output_instruction args) pc >> ret tt)) m).
  { unfold output, output_preamble. by rewrite bind_assoc. }
  rewrite Hsplit.
  pose proof (output_preamble_emitted args now m) as Hpre. unfold wlp in Hpre.
  destruct (output_preamble args now m) as [[] m1|e m1|] eqn:Hp.
  - rewrite !(bind_Done _ _ _ _ _ Hp).
    destruct Hpre as (Hcells & He1 & Hl1 & _).
    change ((while (S (Z.to_nat (last m1 + 1 - entry m1)))
               (fun pc => let* l := get_last in ret (pc <=? l))
               (output_instruction args) (entry m1) >> ret tt) m1
            = for_each (main_sweep image (entry m) (last m))
                (fun pc => output_instruction args pc >> ret tt) m1).
    rewrite He1, Hl1. unfold main_sweep.
    apply listing_loop; try done; try lia.
    intros j. unfold data_at, cell_at. rewrite Hcells. apply Hd.
  - by rewrite !(bind_Raised _ _ _ _ _ Hp).
  - by rewrite !(bind_OutOfFuel _ _ _ Hp).
Qed.

Lemma prepared_state args image mf :
  wf_image image ->
  preparation args (load_excel image) = Done tt mf ->
  (forall j, data_at mf j = word image j)
  /\ 0 <= entry mf < NCELLS /\ 0 <= last mf < NCELLS.
Proof.
  intros Hwf Hrun.
  apply preparation_loaded in Hrun
    as (m4 & He & Her & Hl & _ & _ & Hd & _ & _ & Hc); [|done].
  split; [|by rewrite He].
  intros j. unfold data_at. rewrite Hc. case_decide; apply Hd.
Qed.

(** X19. The emitter walks the code as the tracer did: on the state
    [preparation] leaves for a loaded image, [output] is its preamble (the
    header and the data section) followed by [output_instruction] at each
    address of the main sweep, in order, and at no other address, up to the
    first that raises. *)
Theorem code_section_follows_sweep (args : Args) (now : string) (image : gmap Z Z)
    (mf : Machine) :
  wf_image image ->
  preparation args (load_excel image) = Done tt mf ->
  output args now mf
  = (output_preamble args now >>
     for_each (main_sweep image (entry mf) (last mf))
       (fun pc => output_instruction args pc >> ret tt)) mf.
Proof.
  intros Hwf Hrun.
  destruct (prepared_state args image mf Hwf Hrun) as (Hd & He & Hl).
  apply output_as_listing; [done|lia|lia].
Qed.

Lemma code_section_follows_sweep_witness :
  ends_with (preparation args_hex (load_excel image_load_store))
    (fun mf =>
       output args_hex "now" mf
       = (output_preamble args_hex "now" >>
          for_each (main_sweep image_load_store (entry mf) (last mf))
            (fun pc => output_instruction args_hex pc >> ret tt)) mf).
Proof.
  destruct (ends_with_inv _ _ image_load_store_run) as ([] & mf & Hrun & Hsw).
  rewrite Hrun. simpl.
  apply (code_section_follows_sweep args_hex "now" image_load_store mf
           image_load_store_wf Hrun).
Defined.

(** ** When the listing aborts *)

Lemma hoare_raise_bind {A B} (I : Machine -> Prop) (E : exn -> Prop) e
    (k : A -> M B) (Q : B -> Prop) :
  E e -> hoare I E (bind (raise e) k) Q.
Proof. intros HE m HI. by split. Qed.

Lemma sweep_pcs_range image l fuel : forall pc p,
  0 <= pc -> p ∈ sweep_pcs image l fuel pc -> pc <= p <= l.
Proof.
  induction fuel as [|k IH]; intros pc p Hpc Hp; [by apply elem_of_nil in Hp|].
  simpl in Hp. destruct (pc <=? l) eqn:Hc; [|by apply elem_of_nil in Hp].
  apply elem_of_cons in Hp as [->|Hp]; [lia|].
  pose proof (width_cases (word image pc)).
  apply IH in Hp; lia.
Qed.

Section Frozen.
Variable image : gmap Z Z.
Variable args : Args.
Variable m0 : Machine.
Variable E : exn -> Prop.
Hypothesis image_wf : wf_image image.
Hypothesis data0 : forall j, data (cell_at m0 j) = word image j.
Hypothesis e0_range : 0 <= entry m0 < NCELLS.
Hypothesis l0_range : 0 <= last m0 /\ last m0 + 2 < NCELLS.

#[local] Instance frozen_invariant :
  Invariant (frozen m0) E (fun i => 0 <= i < NCELLS) (fun i c => c = cell_at m0 i)
    (fun _ => False) (entry m0) (last m0).
Proof.
  split.
  - intros i m Hi (Hb & Hc & He & Hl). rewrite cell_index_range by done.
    split; [|unfold cell_at; by rewrite Hc]. split; [by apply in_bounds_cons|done].
  - intros i f m _ [].
  - intros s m H. exact H.
  - by intros m (_ & _ & He & _).
  - by intros m (_ & _ & _ & Hl).
Qed.

Local Abbreviation listing c P := (hoare (frozen m0) E c P).

Ltac fside :=
  try done; subst;
  rewrite ?data0 in *;
  repeat match goal with
         | |- context [word image ?a] =>
             lazymatch goal with
             | _ : 0 <= word image a < NCELLS |- _ => fail
             | _ => pose proof (word_range image a image_wf);
                    pose proof (opcode_nonneg (word image a)
                                  ltac:(apply (word_range image a image_wf)))
             end
         end;
  try (unfold NCELLS in *; lia).

Lemma frozen_vector_warnings i :
  0 <= i < NCELLS -> listing (output_vector_warnings args i) (fun _ => True).
Proof. intros Hi. unfold output_vector_warnings. repeat hstep'; fside. Qed.

Lemma frozen_data i :
  0 <= i < NCELLS -> listing (output_data args i) (fun _ => True).
Proof. intros Hi. unfold output_data. repeat hstep'; fside. Qed.

Lemma frozen_operands opcode_ reg1_ reg2_ second :
  0 <= opcode_ -> 0 <= second < NCELLS ->
  listing (output_operands args opcode_ reg1_ reg2_ second) (fun _ => True).
Proof. intros Hop Hs. unfold output_operands. repeat hstep'; fside. Qed.

Lemma frozen_preamble now : listing (output_preamble args now) (fun _ => True).
Proof.
  unfold output_preamble.
  hstep'; [repeat hstep'|].
  hstep'. subst. hstep'; [|by hstep'].
  hstep'.
  { hstep'. apply hoare_for_each. intros i Hi.
    apply frozen_vector_warnings.
    apply elem_of_cons in Hi as [->|Hi]; [fside|].
    apply list_elem_of_singleton in Hi as ->. fside. }
  hstep'; [hstep'|]. hstep'; [|hstep'].
  hstep'. subst. apply hoare_for_each. intros i Hi.
  apply frozen_data. apply elem_of_seqZ in Hi. fside.
Qed.

Lemma frozen_instruction_ok pc :
  0 <= pc <= last m0 -> warns_operand args m0 pc = false ->
  listing (output_instruction args pc) (fun _ => True).
Proof.
  intros Hpc Hw. unfold warns_operand, data_at in Hw. unfold output_instruction.
  hstep'; [fside|]. hstep'; [fside|].
  do 3 (hstep'; [repeat hstep'; fside|]).
  eapply (hoare_bind _ _ (fun _ => True)).
  { apply frozen_operands; fside. }
  intros unused_bits _.
  do 4 (hstep'; [repeat hstep'; fside|]).
  hstep'.
  { hstep'; [|by hstep'].
    hstep'; [fside|]. subst. apply hoare_when. intros Hb. exfalso.
    match goal with H : (opcode _ <? 7) = true |- _ => rewrite H in Hw end.
    cbn [andb] in Hw. rewrite Hb in Hw. discriminate. }
  do 3 (hstep'; [repeat hstep'; fside|]).
  by hstep'.
Qed.

Lemma frozen_instruction_raises pc :
  0 <= pc <= last m0 -> warns_operand args m0 pc = true -> E TypeError ->
  listing (output_instruction args pc) (fun _ => False).
Proof.
  intros Hpc Hw HE. unfold warns_operand, data_at in Hw.
  apply andb_true_iff in Hw as [[H7 Hj]%andb_true_iff Hnw].
  unfold output_instruction.
  hstep'; [fside|]. hstep'; [fside|].
  do 3 (hstep'; [repeat hstep'; fside|]).
  eapply (hoare_bind _ _ (fun _ => True)).
  { apply frozen_operands; fside. }
  intros unused_bits _.
  do 4 (hstep'; [repeat hstep'; fside|]).
  eapply (hoare_bind _ _ (fun _ => False)); [|intros ? []].
  subst. rewrite H7.
  hstep'; [fside|]. subst. rewrite Hj, Hnw. simpl.
  unfold ins_set_call. by apply hoare_raise_bind.
Qed.

Lemma frozen_listing_ok (l : list Z) :
  (forall pc, pc ∈ l -> 0 <= pc <= last m0 /\ warns_operand args m0 pc = false) ->
  listing (for_each l (fun pc => output_instruction args pc >> ret tt)) (fun _ => True).
Proof.
  intros Hl. apply hoare_for_each. intros pc Hpc. destruct (Hl pc Hpc).
  hstep'; [by apply frozen_instruction_ok|by hstep'].
Qed.

Lemma frozen_listing_raises (l : list Z) :
  (forall pc, pc ∈ l -> 0 <= pc <= last m0) ->
  (exists pc, pc ∈ l /\ warns_operand args m0 pc = true) ->
  E TypeError ->
  listing (for_each l (fun pc => output_instruction args pc >> ret tt)) (fun _ => False).
Proof.
  intros Hl Hex HE. induction l as [|a l IH].
  { destruct Hex as (pc & Hpc & _). by apply elem_of_nil in Hpc. }
  simpl. destruct (warns_operand args m0 a) eqn:Hw.
  - eapply (hoare_bind _ _ (fun _ => False)); [|intros ? []].
    eapply (hoare_bind _ _ (fun _ => False)); [|intros ? []].
    apply frozen_instruction_raises; [apply Hl; by left|done..].
  - eapply (hoare_bind _ _ (fun _ => True)).
    + hstep'; [apply frozen_instruction_ok; [apply Hl; by left|done]|by hstep'].
    + intros _ _. apply IH.
      * intros pc Hpc. apply Hl. by right.
      * destruct Hex as (pc & [->|Hpc]%elem_of_cons & Hw'); [congruence|eauto].
Qed.
End Frozen.

(** X20. When the listing aborts: on a loaded image of 16-bit words whose
    highest non-zero word is at an address no greater than 65533, the tracer
    ends normally, and the emitter then either ends normally or raises
    [TypeError]; it raises [TypeError] exactly when warnings are not
    suppressed and the operand word of some two-word instruction of the main
    sweep (opcode below 7) is a jump target, that is, has a [jump_from]
    list that is not empty. *)
Theorem listing_aborts_iff (args : Args) (now : string) (image : gmap Z Z) (a : Z) :
  wf_image image ->
  0 <= a <= 65533 -> word image a <> 0 ->
  (forall b, a < b < NCELLS -> word image b = 0) ->
  exists m1, preparation args (load_excel image) = Done tt m1
    /\ ((exists m2, output args now m1 = Done tt m2)
        \/ (exists m2, output args now m1 = Raised TypeError m2))
    /\ ((exists m2, output args now m1 = Raised TypeError m2) <->
        no_warnings args = false
        /\ exists pc, pc ∈ main_sweep image (entry m1) (last m1)
             /\ opcode (word image pc) < 7
             /\ jump_from (cell_at m1 (pc + 1)) <> []).
Proof.
  intros Hwf Ha Hnz Hz.
  destruct (preparation_safe args image a Hwf ltac:(lia) ltac:(unfold NCELLS; lia) Hnz Hz)
    as (m1 & Hrun & Hb1 & Hd1 & He1 & Hl1).
  exists m1. split; [done|].
  assert (Her : 0 <= entry m1 < NCELLS).
  { rewrite He1. case_match; [by apply word_range|unfold NCELLS; lia]. }
  assert (Hlr : 0 <= last m1 /\ last m1 + 2 < NCELLS) by (unfold NCELLS; lia).
  assert (Hfz : frozen m1 m1) by by repeat split.
  rewrite (output_as_listing args now image m1 Hd1 ltac:(lia) ltac:(lia)).
  pose proof (total_output args now m1) as Htot.
  rewrite (output_as_listing args now image m1 Hd1 ltac:(lia) ltac:(lia)) in Htot.
  set (sweep := main_sweep image (entry m1) (last m1)) in *.
  assert (Hrange : forall pc, pc ∈ sweep -> 0 <= pc <= last m1).
  { intros pc Hpc. apply sweep_pcs_range in Hpc; lia. }
  assert (Hwarn : forall pc, warns_operand args m1 pc = true <->
            no_warnings args = false /\ opcode (word image pc) < 7
            /\ jump_from (cell_at m1 (pc + 1)) <> []).
  { intros pc. unfold warns_operand, nonempty. rewrite Hd1.
    destruct (jump_from (cell_at m1 (pc + 1))); destruct (no_warnings args); simpl;
      rewrite ?andb_false_r, ?andb_true_r; (split; [intros H|intros (? & ? & ?)]);
      try done; try lia. repeat split; try done; lia. }
  destruct (existsb (warns_operand args m1) sweep) eqn:Hex.
  - apply existsb_exists in Hex as (pc & Hpc%list_elem_of_In & Hw).
    assert (Hh : hoare (frozen m1) (fun e => e = TypeError)
              (output_preamble args now >>
               for_each sweep (fun pc => output_instruction args pc >> ret tt))
              (fun _ => False)).
    { eapply (hoare_bind _ _ (fun _ => True)); [by apply (frozen_preamble image)|].
      intros _ _. apply (frozen_listing_raises image); try done. by exists pc. }
    specialize (Hh m1 Hfz). unfold wlp in Hh.
    destruct (bind (output_preamble args now) _ m1) as [[] m2|e m2|];
      [by destruct Hh|destruct Hh as [_ ->]|done].
    split; [right; by exists m2|]. split; [intros _|by exists m2].
    apply Hwarn in Hw as (? & ? & ?). split; [done|]. by exists pc.
  - assert (Hno : forall pc, pc ∈ sweep -> warns_operand args m1 pc = false).
    { intros pc Hpc. destruct (warns_operand args m1 pc) eqn:Hw; [|done].
      assert (existsb (warns_operand args m1) sweep = true); [|congruence].
      apply existsb_exists. exists pc. split; [by apply list_elem_of_In|done]. }
    assert (Hh : hoare (frozen m1) (fun _ => False)
              (output_preamble args now >>
               for_each sweep (fun pc => output_instruction args pc >> ret tt))
              (fun _ => True)).
    { eapply (hoare_bind _ _ (fun _ => True)); [by apply (frozen_preamble image)|].
      intros _ _. apply (frozen_listing_ok image); try done.
      intros pc Hpc. split; [by apply Hrange|by apply Hno]. }
    specialize (Hh m1 Hfz). unfold wlp in Hh.
    destruct (bind (output_preamble args now) _ m1) as [[] m2|e m2|];
      [|by destruct Hh|done].
    split; [left; by exists m2|]. split; [by intros [? ?]|].
    intros (Hnw & pc & Hpc & H7 & Hj).
    assert (warns_operand args m1 pc = true) by (apply Hwarn; by repeat split).
    rewrite Hno in * by done. discriminate.
Qed.

Lemma listing_aborts_iff_witness :
  exists m1, preparation args_hex (load_excel image_operand_target) = Done tt m1
    /\ ((exists m2, output args_hex "now" m1 = Done tt m2)
        \/ (exists m2, output args_hex "now" m1 = Raised TypeError m2))
    /\ ((exists m2, output args_hex "now" m1 = Raised TypeError m2) <->
        no_warnings args_hex = false
        /\ exists pc, pc ∈ main_sweep image_operand_target (entry m1) (last m1)
             /\ opcode (word image_operand_target pc) < 7
             /\ jump_from (cell_at m1 (pc + 1)) <> []).
Proof.
  apply (listing_aborts_iff args_hex "now" image_operand_target 1).
  - apply wf_image_check. vm_compute. reflexivity.
  - lia.
  - vm_compute. discriminate.
  - apply zero_above_check. vm_compute. reflexivity.
Defined.

(** ** [find_last] on an image without any non-zero word *)

Lemma find_last_outcome m :
  wlp find_last
    (fun _ m' => exists j, 0 <= j < NCELLS /\ data_at m j <> 0)
    (fun e m' => e = IndexError /\ last m' = -65537 /\ cells m' = cells m
                 /\ forall j, 0 <= j < NCELLS -> data_at m j = 0) m.
Proof.
  unfold find_last. repeat wstep.
  apply (wlp_while _ _ _
    (fun _ m' => cells m' = cells m /\ - NCELLS - 1 <= last m' < NCELLS
                 /\ forall b j, last m' < b < NCELLS -> cell_index b = Some j ->
                      data_at m j = 0)).
  - intros [] m' (Hc & Hl & Hz). repeat wstep.
    + assert (Hd : data (cell_at m' j) = data_at m j)
        by (unfold data_at, cell_at; by rewrite Hc).
      rewrite Hd. pose proof (cell_index_Some _ _ Hj) as (Hjr & Hlr & _).
      destruct (data_at m j =? 0) eqn:Hdz.
      * apply Z.eqb_eq in Hdz. repeat wstep. simpl.
        split; [done|]. split; [lia|].
        intros b j' Hb Hj'. destruct (decide (b = last m')) as [->|Hne].
        -- congruence.
        -- apply (Hz b); [lia|done].
      * apply Z.eqb_neq in Hdz. simpl. by exists j.
    + simpl. apply cell_index_None in Hj. unfold NCELLS in *.
      split; [done|]. split; [lia|]. split; [done|].
      intros j Hjr. apply (Hz j); [lia|]. by apply cell_index_range.
  - simpl. unfold NCELLS. split; [done|]. split; [lia|]. intros b j Hb. lia.
Qed.

(** X21. [find_last] from any state: it raises exactly when none of the
    65536 words is non-zero, and then the exception is [IndexError], raised
    at index -65537 after the scan has gone through the negative indices,
    with the cells unchanged; otherwise it ends normally. *)
Theorem find_last_raises_iff (m : Machine) :
  ((exists e m', find_last m = Raised e m')
   <-> forall j, 0 <= j < NCELLS -> data_at m j = 0)
  /\ ((exists m', find_last m = Done tt m')
      <-> exists j, 0 <= j < NCELLS /\ data_at m j <> 0)
  /\ (forall e m', find_last m = Raised e m' ->
        e = IndexError /\ last m' = -65537 /\ cells m' = cells m).
Proof.
  pose proof (find_last_outcome m) as H. pose proof (total_find_last m) as Ht.
  unfold wlp in H. destruct (find_last m) as [[] m'|e m'|]; [| |done].
  - destruct H as (j & Hj & Hnz). split; [|split].
    + split; [by intros (? & ? & ?)|]. intros Hz. destruct Hnz. by apply Hz.
    + split; [intros _; by exists j|intros _; by exists m'].
    + by intros.
  - destruct H as (-> & Hl & Hc & Hz). split; [|split].
    + split; [done|]. intros _. by exists IndexError, m'.
    + split; [by intros (? & ?)|]. intros (j & Hj & Hnz). destruct Hnz. by apply Hz.
    + by intros ? ? [= <- <-].
Qed.

(** ** What the listing contains *)

#[local] Hint Resolve emitted_refl emitted_trans emitted_touch emitted_write : frames.

Lemma steps_emitted_wlp {A} (c : M A) m (Q : Machine -> Prop) :
  steps emitted c -> (forall m', emitted m m' -> Q m') ->
  wlp c (fun _ m' => Q m') (fun _ m' => Q m') m.
Proof. intros Hc HQ. eapply wlp_mono; [apply Hc|intros ? ?; apply HQ..]. Qed.

(** The first statement only appends to the output. *)
Ltac frame_first :=
  lazymatch goal with
  | |- wlp ?c _ _ ?m =>
      let H := fresh in
      assert (H : steps emitted c)
        by (unfold output_operands, output_vector_warnings, output_data;
            repeat fr1; eauto with frames);
      eapply wlp_mono; [apply H| |done]; clear H
  end.

Lemma emitted_elem s m m' : emitted m m' -> s ∈ fout m -> s ∈ fout m'.
Proof. intros (_ & _ & _ & Hf) Hs. by eapply elem_of_prefix. Qed.

Lemma emitted_write_elem s acc m m' :
  emitted (mkMachine (cells m) (entry m) (last m) (fout m ++ [s]) acc) m' ->
  emitted m m' /\ s ∈ fout m'.
Proof.
  intros He. split.
  - destruct He as (? & ? & ? & Hf). repeat split; try done.
    etrans; [|exact Hf]. simpl. by apply prefix_app_r.
  - eapply emitted_elem; [exact He|]. simpl. apply elem_of_app. right. by left.
Qed.

Lemma output_data_line args i m :
  0 <= i < NCELLS ->
  wlp (output_data args i)
    (fun _ m' => emitted m m' /\ data_line args i (data_at m i) ∈ fout m')
    (fun _ _ => True) m.
Proof.
  intros Hi. unfold output_data. apply wlp_bind. frame_first.
  unfold data_at. intros [] m1 H1. cbv beta. apply wlp_bind. wstep. wstep; [|done].
  in_range. wstep. norm.
  frame_first. intros ? m' Hm'. simpl in Hm'. apply emitted_write_elem in Hm' as [Hm' Hin].
  split; [by eapply emitted_trans|].
  destruct H1 as (Hc & _). unfold cell_at in *. rewrite Hc in Hin. exact Hin.
Qed.

Lemma for_each_data_lines args (l : list Z) : forall m,
  (forall i, i ∈ l -> 0 <= i < NCELLS) ->
  wlp (for_each l (output_data args))
    (fun _ m' => emitted m m'
                 /\ forall i, i ∈ l -> data_line args i (data_at m i) ∈ fout m')
    (fun _ _ => True) m.
Proof.
  induction l as [|a l IH]; intros m Hl.
  { simpl. split; [apply emitted_refl|]. intros i Hi. by apply elem_of_nil in Hi. }
  simpl. apply wlp_bind.
  eapply wlp_mono; [apply output_data_line, Hl; by left| |done].
  intros [] m1 (H1 & Ha). cbv beta.
  eapply wlp_mono; [apply IH; intros i Hi; apply Hl; by right| |done].
  intros [] m2 (H2 & Hrest). cbv beta.
  split; [by eapply emitted_trans|].
  intros i [->|Hi]%elem_of_cons.
  - by eapply emitted_elem.
  - specialize (Hrest i Hi). destruct H1 as (Hc & _).
    unfold data_at, cell_at in *. by rewrite Hc in Hrest.
Qed.

Lemma output_preamble_lines args now m :
  0 <= entry m <= NCELLS ->
  wlp (output_preamble args now)
    (fun _ m' => emitted m m'
                 /\ forall i, 2 <= i < entry m ->
                      data_line args i (data_at m i) ∈ fout m')
    (fun _ _ => True) m.
Proof.
  intros He. unfold output_preamble. apply wlp_bind. frame_first.
  intros [] m1 H1. cbv beta. pose proof H1 as (Hc1 & He1 & _).
  wstep. wstep. destruct (negb (entry m1 =? 0)) eqn:Hnz; cycle 1.
  { apply wlp_ret. split; [done|]. intros i Hi.
    apply negb_false_iff, Z.eqb_eq in Hnz. lia. }
  apply wlp_bind. frame_first.
  intros [] m2 H2. cbv beta. apply wlp_bind. wstep. apply wlp_bind. wstep. wstep.
  eapply wlp_mono; [apply for_each_data_lines| |done].
  - intros i Hi%elem_of_seqZ. simpl in Hi. destruct H2 as (_ & He2 & _).
    simpl in Hi. unfold NCELLS in *. lia.
  - intros [] m3 (H3 & Hlines). cbv beta. wstep.
    assert (H13 : emitted m1 m3).
    { eapply emitted_trans; [exact H2|].
      eapply emitted_trans; [apply emitted_write|exact H3]. }
    split.
    + eapply emitted_trans; [exact H1|].
      eapply emitted_trans; [exact H13|apply emitted_write].
    + intros i Hi. simpl. apply elem_of_app. left.
      destruct H2 as (Hc2 & He2 & _).
      assert (Hin : i ∈ seqZ 2 (entry m2 - 2)).
      { apply elem_of_seqZ. simpl. lia. }
      specialize (Hlines i Hin). simpl in Hlines.
      unfold data_at, cell_at in *. simpl in Hlines.
      by rewrite Hc2, Hc1 in Hlines.
Qed.

Lemma output_instruction_label args pc m :
  0 <= pc < NCELLS ->
  wlp (output_instruction args pc)
    (fun _ m' => emitted m m'
                 /\ forall l, label (cell_at m pc) = Some l -> label_line l ∈ fout m')
    (fun _ _ => True) m.
Proof.
  intros Hpc. unfold output_instruction.
  wstep. wstep; [|done]. in_range. cbv zeta.
  wstep. wstep; [|done]. norm.
  wstep. wstep. wstep; [|done]. in_range. norm.
  destruct (label (cell_at m pc)) as [l|] eqn:Hl.
  - wstep. wstep; [|done]. in_range. norm. rewrite Hl. simpl. wstep.
    frame_first. intros ? m' Hm'. simpl in Hm'.
    apply emitted_write_elem in Hm' as [Hm' Hin].
    split; [done|]. intros ? [= <-]. exact Hin.
  - wstep.
    frame_first. intros ? m' Hm'. simpl in Hm'. split; [|done].
    destruct Hm' as (? & ? & ? & ?). by repeat split.
Qed.

Lemma listing_labels args (l : list Z) : forall m,
  (forall pc, pc ∈ l -> 0 <= pc < NCELLS) ->
  wlp (for_each l (fun pc => output_instruction args pc >> ret tt))
    (fun _ m' => emitted m m'
                 /\ forall pc lb, pc ∈ l -> label (cell_at m pc) = Some lb ->
                      label_line lb ∈ fout m')
    (fun _ _ => True) m.
Proof.
  induction l as [|a l IH]; intros m Hl.
  { simpl. split; [apply emitted_refl|]. intros pc lb Hpc. by apply elem_of_nil in Hpc. }
  simpl. apply wlp_bind. apply wlp_bind.
  eapply wlp_mono; [apply output_instruction_label, Hl; by left| |done].
  intros pc' m1 (H1 & Ha). cbv beta. wstep.
  eapply wlp_mono; [apply IH; intros i Hi; apply Hl; by right| |done].
  intros [] m2 (H2 & Hrest). cbv beta.
  split; [by eapply emitted_trans|].
  intros pc lb [->|Hi]%elem_of_cons Hlb.
  - eapply emitted_elem; [exact H2|]. by apply Ha.
  - apply (Hrest pc lb Hi). destruct H1 as (Hc & _).
    unfold cell_at in *. by rewrite Hc.
Qed.

Lemma listing_emitted args (l : list Z) :
  steps emitted (for_each l (fun pc => output_instruction args pc >> ret tt)).
Proof.
  apply frame_for_each; eauto with frames. intros pc.
  apply frame_bind; eauto with frames; [apply output_instruction_emitted|].
  intros ?. apply frame_ret; eauto with frames.
Qed.

(** X22. The data section declares the words before the entry: on a loaded
    image of 16-bit words whose highest non-zero word is at an address no
    greater than 65533, however [output] ends (normally, or with the
    [TypeError] of the operand warning), it has written for every address
    [i] from 2 up to [entry] the line [var_<i> = $<word>], the word in
    four hexadecimal digits. Addresses 0 and 1 are never declared. *)
Theorem data_section_declares (args : Args) (now : string) (image : gmap Z Z) (a : Z) :
  wf_image image ->
  0 <= a <= 65533 -> word image a <> 0 ->
  (forall b, a < b < NCELLS -> word image b = 0) ->
  exists m1, preparation args (load_excel image) = Done tt m1
    /\ after (output args now m1)
         (fun m2 => forall i, 2 <= i < entry m1 ->
                      data_line args i (word image i) ∈ fout m2).
Proof.
  intros Hwf Ha Hnz Hz.
  destruct (preparation_safe args image a Hwf ltac:(lia) ltac:(unfold NCELLS; lia) Hnz Hz)
    as (m1 & Hrun & Hb1 & Hd1 & He1 & Hl1).
  exists m1. split; [done|].
  assert (Her : 0 <= entry m1 < NCELLS).
  { rewrite He1. case_match; [by apply word_range|unfold NCELLS; lia]. }
  assert (Hlr : 0 <= last m1 /\ last m1 + 2 < NCELLS) by (unfold NCELLS; lia).
  assert (Hfz : frozen m1 m1) by by repeat split.
  pose proof (total_output args now m1) as Htot.
  rewrite (output_as_listing args now image m1 Hd1 ltac:(lia) ltac:(lia)) in *.
  pose proof (wlp_conj _ _ _ _ _ _
                (output_preamble_lines args now m1 ltac:(lia))
                (frozen_preamble image args m1 (fun _ => False) Hwf Hd1 Her now m1 Hfz))
    as Hpre.
  unfold wlp in Hpre. unfold bind in *.
  destruct (output_preamble args now m1) as [[] m1'|e m1'|]; [| by destruct Hpre as (_ & _ & [])|done].
  destruct Hpre as ((Hem & Hlines) & _).
  pose proof (listing_emitted args (main_sweep image (entry m1) (last m1)) m1') as Hlist.
  unfold wlp in Hlist.
  destruct (for_each _ _ m1') as [[] m2|e m2|]; [| |done]; simpl;
    intros i Hi; (eapply emitted_elem; [exact Hlist|]); rewrite <- Hd1; by apply Hlines.
Qed.

Lemma data_section_declares_witness :
  exists m1, preparation args_hex (load_excel image_jump_back) = Done tt m1
    /\ after (output args_hex "now" m1)
         (fun m2 => forall i, 2 <= i < entry m1 ->
                      data_line args_hex i (word image_jump_back i) ∈ fout m2).
Proof.
  apply (data_section_declares args_hex "now" image_jump_back 5).
  - apply wf_image_check. vm_compute. reflexivity.
  - lia.
  - vm_compute. discriminate.
  - apply zero_above_check. vm_compute. reflexivity.
Defined.

(** X23. Every label of the code is declared in the listing: when
    [preparation] ends on a loaded image and [output] then ends normally,
    the line [<label>:] of every labelled cell from [entry] to [last] has
    been written. *)
Theorem labels_declared (args : Args) (now : string) (image : gmap Z Z)
    (mf m2 : Machine) :
  wf_image image ->
  preparation args (load_excel image) = Done tt mf ->
  output args now mf = Done tt m2 ->
  forall a l, entry mf <= a <= last mf -> label (cell_at mf a) = Some l ->
    label_line l ∈ fout m2.
Proof.
  intros Hwf Hrun Hout a l Ha Hl.
  destruct (prepared_state args image mf Hwf Hrun) as (Hd & He & Hlr).
  assert (Hin : a ∈ main_sweep image (entry mf) (last mf)).
  { destruct (sweep_covers image (last mf) (S (Z.to_nat (last mf + 1 - entry mf)))
                (entry mf) a ltac:(lia) Ha) as [Hin|(p & Hin & -> & Hop)]; [done|].
    exfalso.
    destruct (preparation_xrefs args image mf Hwf Hrun) as (_ & Htr).
    destruct (Htr p Hin) as (H2 & _). specialize (H2 Hop).
    pose proof (preparation_loaded args image mf Hwf Hrun)
      as (m4 & He' & _ & _ & _ & _ & _ & Hlab & _ & Hc).
    rewrite <- He' in Hc. rewrite Hc in Hl, H2. rewrite decide_True in Hl, H2 by done.
    cbn [label set_label is_2nd_word] in Hl, H2. unfold final_label in Hl.
    specialize (Hlab (p + 1)). rewrite Hlab in Hl.
    destruct ((word image 0 =? 0) && (p + 1 =? word image 1)) eqn:Hb.
    - apply andb_true_iff in Hb as [H0 H1%Z.eqb_eq].
      rewrite H0 in He'. simpl in He'.
      assert (p + 1 = entry mf) by congruence.
      unfold main_sweep in Hin. apply sweep_pcs_range in Hin; lia.
    - rewrite H2 in Hl. simpl in Hl. discriminate. }
  rewrite (output_as_listing args now image mf Hd ltac:(lia) ltac:(lia)) in Hout.
  pose proof (output_preamble_emitted args now mf) as Hpre. unfold wlp in Hpre.
  destruct (output_preamble args now mf) as [[] m1|e m1|] eqn:Hp;
    [rewrite (bind_Done _ _ _ _ _ Hp) in Hout
    |by rewrite (bind_Raised _ _ _ _ _ Hp) in Hout
    |by rewrite (bind_OutOfFuel _ _ _ Hp) in Hout].
  pose proof (listing_labels args (main_sweep image (entry mf) (last mf)) m1) as Hlist.
  unfold wlp in Hlist. rewrite Hout in Hlist.
  destruct Hlist as (_ & Hlist).
  - intros pc Hpc. unfold main_sweep in Hpc. apply sweep_pcs_range in Hpc; lia.
  - apply (Hlist a l Hin). destruct Hpre as (Hc & _). unfold cell_at in *. by rewrite Hc.
Qed.

Lemma image_loop_listing :
  ends_with (preparation args_quiet (load_excel image_loop))
    (fun mf => is_done (output args_quiet "now" mf) = true
               /\ entry mf = 0 /\ last mf = 1
               /\ label (cell_at mf 0) = Some "loc_0000").
Proof. vm_compute. done. Qed.

Lemma labels_declared_witness :
  ends_with (preparation args_quiet (load_excel image_loop))
    (fun mf => ends_with (output args_quiet "now" mf)
                 (fun m2 => label_line "loc_0000" ∈ fout m2)).
Proof.
  destruct (ends_with_inv _ _ image_loop_listing)
    as ([] & mf & Hrun & Hdone & He & Hl & Hlab).
  destruct (is_done_inv _ Hdone) as ([] & m2 & Hout).
  rewrite Hrun. simpl. rewrite Hout. simpl.
  apply (labels_declared args_quiet "now" image_loop mf m2 image_loop_wf Hrun Hout 0);
    [lia|exact Hlab].
Defined.

(** ** The second-word marks *)

Lemma one_instruction_marks m pc :
  0 <= pc -> 0 <= data_at m (pc + 1) < NCELLS ->
  wlp (one_instruction pc)
    (fun pc' m' =>
       forall j, is_2nd_word (cell_at m' j) =
         if decide (opcode (data_at m pc) < 7 /\ j = pc + 1)
         then true else is_2nd_word (cell_at m j))
    (fun _ _ => True) m.
Proof.
  unfold data_at. intros Hpc Ht. unfold one_instruction.
  repeat (wstep; pos_range; norm; try done).
  all: intros j0; repeat (rewrite ?cell_at_upd, ?cell_at_touch);
    repeat case_decide; subst; simpl; try reflexivity; try lia;
    repeat match goal with H : _ /\ _ |- _ => destruct H end; try lia; try congruence.
Qed.

(** An invariant of [one_instruction] on the words of an image is an
    invariant of both sweeps. *)
Lemma sweeps_preserve image (P : Machine -> Prop) :
  wf_image image ->
  (forall i m, P m -> P (touch i m)) ->
  (forall m pc, (forall j, data_at m j = word image j) -> 0 <= pc -> P m ->
     wlp (one_instruction pc) (fun _ m' => P m') (fun _ _ => True) m) ->
  forall m, (forall j, data_at m j = word image j) -> P m ->
    (forall pc, 0 <= pc ->
       wlp (traverse pc)
         (fun _ m' => (forall j, data_at m' j = word image j) /\ P m')
         (fun _ _ => True) m)
    /\ wlp before_entry
         (fun _ m' => (forall j, data_at m' j = word image j) /\ P m')
         (fun _ _ => True) m.
Proof.
  intros Hwf Ptouch Pone m Hd HP.
  assert (Hone : forall m0 x, (forall j, data_at m0 j = word image j) -> 0 <= x -> P m0 ->
            wlp (one_instruction x)
              (fun x' m'' => 0 <= x' /\ (forall j, data_at m'' j = word image j) /\ P m'')
              (fun _ _ => True) m0).
  { intros m0 x Hd0 Hx HP0.
    eapply wlp_mono;
      [apply (wlp_conj _ _ _ _ _ _ (one_instruction_image image m0 x Hwf Hd0 Hx)
                (Pone m0 x Hd0 Hx HP0))| |done].
    simpl. intros x' m'' ((Hx' & _ & Hd' & _) & HP').
    split; [unfold width in Hx'; case_match; lia|done]. }
  split.
  - intros pc Hpc. unfold traverse.
    eapply wlp_mono;
      [apply (wlp_while_upto _ _ _
         (fun x m' => 0 <= x /\ (forall j, data_at m' j = word image j) /\ P m')
         (fun _ m' => (forall j, data_at m' j = word image j) /\ P m'))
      | |done].
    + intros x m' (Hx & Hd' & HP'). repeat wstep.
      destruct (x <=? last m'); [|done]. by apply Hone.
    + done.
    + simpl. tauto.
  - unfold before_entry.
    eapply wlp_mono;
      [apply (wlp_while_upto _ _ _
         (fun x m' => 0 <= x /\ (forall j, data_at m' j = word image j) /\ P m')
         (fun _ m' => (forall j, data_at m' j = word image j) /\ P m'))
      | |done].
    + intros x m' (Hx & Hd' & HP'). repeat wstep.
      destruct (x <? entry m'); [|done].
      pose proof (Hone (touch x m') x Hd' Hx (Ptouch _ _ HP')).
      pose proof (Hone (touch x (touch x m')) x Hd' Hx (Ptouch _ _ (Ptouch _ _ HP'))).
      repeat wstep; try done. split; [lia|split; [exact Hd'|by repeat apply Ptouch]].
    + split; [lia|split; assumption].
    + simpl. tauto.
Qed.

(** X24. When [preparation] ends on a loaded image, a cell is marked
    [is_2nd_word] only if the word before it is an instruction with an opcode
    below 7, a two-word instruction. *)
Theorem second_word_marks (args : Args) (image : gmap Z Z) (mf : Machine) :
  wf_image image ->
  preparation args (load_excel image) = Done tt mf ->
  forall j, is_2nd_word (cell_at mf j) = true -> opcode (word image (j - 1)) < 7.
Proof.
  intros Hwf Hrun.
  destruct (preparation_phases args image mf Hwf Hrun)
    as (m2 & m3 & m4 & pc & x & (H3 & H4 & He2 & Hl2 & Hc2)
        & He & Her & _ & _ & _ & _ & _ & _ & Hc).
  assert (Hd2 : forall j, data_at m2 j = word image j).
  { intros j. unfold data_at. rewrite Hc2. by destruct (_ && _). }
  assert (Hok2 : marks_ok image m2).
  { intros j. rewrite Hc2. by destruct (_ && _). }
  assert (Hone : forall m pc0, (forall j, data_at m j = word image j) -> 0 <= pc0 ->
            marks_ok image m ->
            wlp (one_instruction pc0) (fun _ m' => marks_ok image m') (fun _ _ => True) m).
  { intros m pc0 Hd Hpc0 Hok.
    eapply wlp_mono;
      [apply (one_instruction_marks m pc0 Hpc0 ltac:(rewrite Hd; by apply word_range))
      | |done].
    simpl. intros _ m' Hx j. rewrite Hx, Hd.
    destruct (decide (opcode (word image pc0) < 7 /\ j = pc0 + 1)) as [Hdec|Hdec];
      [|exact (Hok j)].
    intros _. destruct Hdec as [? ->]. by replace (pc0 + 1 - 1) with pc0 by lia. }
  destruct (sweeps_preserve image (marks_ok image) Hwf ltac:(by intros) Hone m2 Hd2 Hok2)
    as (Htr & _).
  pose proof (wlp_done _ _ _ _ _ _ (Htr _ (proj1 Her)) H3) as (Hd3 & Hok3).
  destruct (sweeps_preserve image (marks_ok image) Hwf ltac:(by intros) Hone m3 Hd3 Hok3)
    as (_ & Hbe).
  pose proof (wlp_done _ _ _ _ _ _ Hbe H4) as (_ & Hok4).
  intros j. rewrite Hc. specialize (Hok4 j). by case_decide.
Qed.

Lemma second_word_marks_witness :
  ends_with (preparation args_hex (load_excel image_load_store))
    (fun mf => forall j, is_2nd_word (cell_at mf j) = true ->
                 opcode (word image_load_store (j - 1)) < 7).
Proof.
  destruct (ends_with_inv _ _ image_load_store_run) as ([] & mf & Hrun & Hsw).
  rewrite Hrun. simpl.
  apply (second_word_marks args_hex image_load_store mf image_load_store_wf Hrun).
Defined.

(** ** The main sweep covers the code *)

(** The main sweep leaves no link at or below the address it starts from,
    and in the cell after each instruction with a nonzero word a link to
    that very instruction. *)
Lemma while_sweep_exact image l fuel : forall pc m pcf m',
  wf_image image -> (forall j, data_at m j = word image j) -> 0 <= pc -> last m = l ->
  while fuel (fun pc => let* l := get_last in ret (pc <=? l)) one_instruction pc m
    = Done pcf m' ->
  (forall j, j <= pc -> exec_from_prev (cell_at m' j) = exec_from_prev (cell_at m j))
  /\ forall p, p ∈ sweep_pcs image l fuel pc -> word image p <> 0 ->
       exec_from_prev (cell_at m' (p + width (word image p))) = Some p.
Proof.
  induction fuel as [|k IH]; intros pc m pcf m' Hwf Hd Hpc Hl Hrun; [done|].
  simpl in Hrun. unfold bind at 1 2 in Hrun. unfold get_last, ret in Hrun.
  simpl. rewrite Hl in Hrun.
  destruct (pc <=? l) eqn:Hc.
  - unfold bind in Hrun.
    destruct (one_instruction pc m) as [pc1 m1| |] eqn:H1; [|done..].
    pose proof (wlp_done _ _ _ _ _ _ (one_instruction_image image m pc Hwf Hd Hpc) H1)
      as (Hpc1 & Hs1 & Hd1 & _). simpl in *.
    assert (Hx : forall j, exec_from_prev (cell_at m1 j) =
         if decide (data_at m pc <> 0 /\ j = pc + width (data_at m pc))
         then Some pc else exec_from_prev (cell_at m j)).
    { apply (wlp_done _ _ _ _ _ _
               (one_instruction_exec m pc Hpc ltac:(rewrite Hd; by apply word_range)) H1). }
    pose proof (width_cases (word image pc)) as Hw.
    assert (0 <= pc1) by lia.
    assert (last m1 = l) by (destruct Hs1 as (_ & _ & ->); done).
    destruct (IH pc1 m1 pcf m' Hwf Hd1 ltac:(done) ltac:(done) Hrun) as (Hbelow & Hin).
    split.
    + intros j Hj. rewrite Hbelow by lia. rewrite Hx, Hd.
      destruct (decide (word image pc <> 0 /\ j = pc + width (word image pc)))
        as [[_ ?]|_]; [lia|done].
    + intros p [->|Hp]%elem_of_cons Hnz.
      * rewrite <- Hpc1. rewrite Hbelow by lia. rewrite Hx, Hd.
        rewrite Hpc1. by rewrite decide_True.
      * rewrite <- Hpc1 in Hp. by apply Hin.
  - injection Hrun as <- <-. split; [done|].
    intros p Hp. by apply elem_of_nil in Hp.
Qed.

(** The sweep of the cells before the entry changes a link only to name an
    instruction before the entry. *)
Lemma before_entry_exact image m :
  wf_image image -> (forall j, data_at m j = word image j) ->
  wlp before_entry
    (fun _ m' => forall j,
       exec_from_prev (cell_at m' j) = exec_from_prev (cell_at m j)
       \/ exists x, 0 <= x < entry m /\ exec_from_prev (cell_at m' j) = Some x)
    (fun _ _ => True) m.
Proof.
  intros Hwf Hd. unfold before_entry.
  set (P := fun m' : Machine => entry m' = entry m /\ forall j,
       exec_from_prev (cell_at m' j) = exec_from_prev (cell_at m j)
       \/ exists x, 0 <= x < entry m /\ exec_from_prev (cell_at m' j) = Some x).
  eapply wlp_mono;
    [apply (wlp_while_upto _ _ _
       (fun x m' => 0 <= x /\ (forall j, data_at m' j = word image j) /\ P m')
       (fun _ m' => P m'))
    | |done].
  - intros x m' (Hx & Hd' & HP'). repeat wstep.
    destruct (x <? entry m') eqn:Hlt; [|done].
    assert (Hone : forall m0, (forall j, data_at m0 j = word image j) -> P m0 ->
              wlp (one_instruction x)
                (fun x' m'' => 0 <= x' /\ (forall j, data_at m'' j = word image j) /\ P m'')
                (fun _ _ => True) m0).
    { intros m0 Hd0 (He0 & HP0).
      eapply wlp_mono;
        [apply (wlp_conj _ _ _ _ _ _
                  (one_instruction_exec m0 x Hx ltac:(rewrite Hd0; by apply word_range))
                  (one_instruction_image image m0 x Hwf Hd0 Hx))| |done].
      simpl. intros x' m'' (Hex & (Hx' & Hs & Hd'' & _)).
      pose proof (width_cases (word image x)).
      split; [lia|]. split; [done|]. split.
      - destruct Hs as (_ & -> & _). done.
      - intros j. rewrite Hex.
        destruct (decide (data_at m0 x <> 0 /\ j = x + width (data_at m0 x))); [|apply HP0].
        right. exists x. split; [|done].
        destruct HP' as (He' & _). lia. }
    pose proof (Hone (touch x m') Hd' HP').
    pose proof (Hone (touch x (touch x m')) Hd' HP').
    repeat wstep; try done. split; [lia|split; [exact Hd'|exact HP']].
  - split; [lia|]. split; [done|]. split; [done|]. intros j. by left.
  - simpl. intros _ m' (_ & HP'). exact HP'.
Qed.

(** What the tracer leaves for each instruction of the main sweep. *)
Lemma main_sweep_recorded args image mf :
  wf_image image ->
  preparation args (load_excel image) = Done tt mf ->
  forall p, p ∈ main_sweep image (entry mf) (last mf) -> recorded image mf p.
Proof.
  intros Hwf Hrun p Hp.
  destruct (preparation_xrefs args image mf Hwf Hrun) as (_ & Htr).
  split; [by apply Htr|]. intros Hnz.
  destruct (preparation_phases args image mf Hwf Hrun)
    as (m2 & m3 & m4 & pc & x & (H3 & H4 & He2 & Hl2 & Hc2)
        & He & Her & _ & _ & _ & _ & _ & _ & Hc).
  assert (Hd2 : forall j, data_at m2 j = word image j).
  { intros j. unfold data_at. rewrite Hc2. by destruct (_ && _). }
  assert (Hok2 : links_ok image m2).
  { intros j q. rewrite Hc2. by destruct (_ && _). }
  pose proof (wlp_done _ _ _ _ _ _
                (traverse_links image m2 _ Hwf Hd2 (proj1 Her) Hok2) H3) as (Hd3 & Hok3).
  pose proof (wlp_done _ _ _ _ _ _
                (before_entry_links image m3 Hwf Hd3 Hok3) H4) as (_ & Hok4).
  assert (Hsame : forall j, exec_from_prev (cell_at mf j) = exec_from_prev (cell_at m4 j)).
  { intros j. rewrite Hc. by case_decide. }
  unfold traverse, while_upto in H3.
  assert (He3 : entry m3 = entry mf).
  { pose proof (wlp_done _ _ _ _ _ _ (sweep_loop_kept _ _ m2) H3) as (_ & He3 & _).
    by rewrite He3, He2, He. }
  rewrite He, <- Hl2 in Hp.
  destruct (while_sweep_exact image (last m2) _ _ _ _ _ Hwf Hd2 (proj1 Her) eq_refl H3)
    as (_ & Hex).
  specialize (Hex p Hp Hnz).
  pose proof (sweep_pcs_range image (last m2) _ _ p (proj1 Her) Hp) as Hrange.
  pose proof (wlp_done _ _ _ _ _ _ (before_entry_exact image m3 Hwf Hd3) H4) as Hbe.
  unfold linked. rewrite Hsame.
  destruct (Hbe (p + width (word image p))) as [Hk|(y & Hy & Hk)].
  - left. by rewrite Hk.
  - right. rewrite Hk. rewrite He3 in Hy.
    destruct (Hok4 _ _ Hk) as (_ & Hj).
    pose proof (width_cases (word image p)). pose proof (width_cases (word image y)).
    rewrite He in *. split; [lia|f_equal; lia].
Qed.

(** X13. When [preparation] ends on a loaded image, every address from
    [entry] to [last] bears what [one_instruction] leaves for the
    instruction at that address (its mark, its cross-reference and its
    link), or is the marked second word of an instruction with an opcode
    below 7 for which this holds. *)
Theorem sweep_covers_code (args : Args) (image : gmap Z Z) (mf : Machine) :
  wf_image image ->
  preparation args (load_excel image) = Done tt mf ->
  forall a, entry mf <= a <= last mf ->
    recorded image mf a
    \/ (entry mf <= a - 1 /\ opcode (word image (a - 1)) < 7
        /\ recorded image mf (a - 1) /\ is_2nd_word (cell_at mf a) = true).
Proof.
  intros Hwf Hrun a Ha.
  pose proof (main_sweep_recorded args image mf Hwf Hrun) as Hrec.
  destruct (preparation_phases args image mf Hwf Hrun)
    as (_ & _ & _ & _ & _ & _ & He & Her & _).
  destruct (sweep_covers image (last mf) (S (Z.to_nat (last mf + 1 - entry mf)))
              (entry mf) a ltac:(lia) Ha) as [Hin|(p & Hin & -> & Hop)].
  - left. by apply Hrec.
  - right. replace (p + 1 - 1) with p by lia.
    assert (entry mf <= p).
    { unfold main_sweep in Hrec.
      apply sweep_pcs_range in Hin; [lia|]. rewrite He. apply Her. }
    split; [done|]. split; [done|]. split; [by apply Hrec|].
    by apply (Hrec p Hin).
Qed.

Lemma image_entry_link_wf : wf_image image_entry_link.
Proof. apply wf_image_check. vm_compute. reflexivity. Qed.

(** The link of the cell after the entry can name the instruction before
    the entry: the sweep of the cells before the entry runs last. *)
Lemma image_entry_link_run :
  ends_with (preparation args_hex (load_excel image_entry_link))
    (fun mf => entry mf = 3 /\ last mf = 5
               /\ exec_from_prev (cell_at mf 4) = Some 2
               /\ is_2nd_word (cell_at mf 3) = true).
Proof. vm_compute. done. Qed.

Lemma sweep_covers_code_witness :
  ends_with (preparation args_hex (load_excel image_entry_link))
    (fun mf => recorded image_entry_link mf 3
       \/ (entry mf <= 3 - 1 /\ opcode (word image_entry_link (3 - 1)) < 7
           /\ recorded image_entry_link mf (3 - 1)
           /\ is_2nd_word (cell_at mf 3) = true)).
Proof.
  destruct (ends_with_inv _ _ image_entry_link_run) as ([] & mf & Hrun & He & Hl & _).
  rewrite Hrun. simpl.
  apply (sweep_covers_code args_hex image_entry_link mf image_entry_link_wf Hrun 3).
  lia.
Defined.
